(** * OpenVault: memory extraction, state propagation and retrieval

    A shallow embedding of the memory pipeline of the OpenVault extension:
    the state propagator, the point-of-view filter, the relevance selector
    and the context formatter of index.js, and the extraction orchestrator
    and the backfill scheduler of the extraction module
    ([extractMemories], [extractAllMessages]).  The extraction module
    calls [parseExtractionResult], [updateCharacterStatesFromEvents] and
    [updateRelationshipsFromEvents]; they are embedded as index.js has
    them.

    Conventions of the embedding.
    - A JavaScript string is a [string]: a sequence of code units, each in
      the Latin-1 range.  [toLowerCase], [\s] and [.] of regular
      expressions are written out for that range.
    - A JavaScript object used as a dictionary is a [gmap string _] of
      its own properties.  A lookup [obj[name]] also finds what the object
      inherits from [Object.prototype]: [inheritedName] lists those
      names, and the code that tests [obj[name]] for truth is written
      out for them.  A relationship is stored under a key that holds
      [<->], which no inherited name does.  The map does not keep the
      order in which the keys were inserted: where the code walks
      [Object.entries], the entries are given in that order from
      outside.
    - JavaScript numbers are exact: integers are [Z], fractions are [Q].
      The relevance score is the exact value of what the code computes
      in doubles.
    - The store [chatMetadata.openvault] is mutated in place by the code.
      A computation is therefore a function from the store to the store it
      leaves behind together with either a returned value or a thrown
      error: mutations made before a [throw] stay in the store.
    - [Date.now()], id generation, the reply of the language model and the
      outcome of saving are inputs of a cycle. *)

From Stdlib Require Import ZArith QArith Qminmax String Ascii List Lia.
From Stdlib Require Import DecimalString Sorted Permutation.
From stdpp Require Import gmap strings list fin_maps.
Import ListNotations.

Open Scope Z_scope.

(** ** JavaScript strings *)

Module Js.

Definition code (c : ascii) : N := N_of_ascii c.

(** [String.prototype.toLowerCase] on one code unit: A-Z, and the
    Latin-1 capitals U+00C0..U+00DE except the multiplication sign. *)
Definition lowerChar (c : ascii) : ascii :=
  let n := code c in
  if ((65 <=? n) && (n <=? 90))%N then ascii_of_N (n + 32)
  else if ((192 <=? n) && (n <=? 222) && negb (n =? 215))%N
       then ascii_of_N (n + 32)
       else c.

Fixpoint toLowerCase (s : string) : string :=
  match s with
  | EmptyString => EmptyString
  | String c s' => String (lowerChar c) (toLowerCase s')
  end.

(** The class [\s]: TAB, LF, VT, FF, CR, SPACE, NBSP. *)
Definition isWhiteSpace (c : ascii) : bool :=
  let n := code c in
  ((n =? 9) || (n =? 10) || (n =? 11) || (n =? 12) || (n =? 13)
   || (n =? 32) || (n =? 160))%N.

(** [.] matches every code unit but a line terminator. *)
Definition isLineTerminator (c : ascii) : bool :=
  let n := code c in ((n =? 10) || (n =? 13))%N.

(** [s.startsWith(p)] *)
Fixpoint startsWith (p s : string) : bool :=
  match p, s with
  | EmptyString, _ => true
  | String a p', String b s' => Ascii.eqb a b && startsWith p' s'
  | String _ _, EmptyString => false
  end.

(** [s.includes(w)] *)
Fixpoint includes (s w : string) : bool :=
  startsWith w s
  || match s with
     | EmptyString => false
     | String _ s' => includes s' w
     end.

(** [s.split(/\s+/)]: the pieces between maximal runs of white space;
    [inRun] tells that the previous code unit was white space, [cur] is
    the piece being read. *)
Fixpoint splitWsFrom (inRun : bool) (cur : string) (s : string) : list string :=
  match s with
  | EmptyString => [cur]
  | String c s' =>
      if isWhiteSpace c
      then if inRun then splitWsFrom true cur s'
           else cur :: splitWsFrom true EmptyString s'
      else splitWsFrom false (cur +:+ String c EmptyString) s'
  end.

Definition splitWs (s : string) : list string := splitWsFrom false EmptyString s.

(** [lines.join(sep)] *)
Fixpoint join (sep : string) (l : list string) : string :=
  match l with
  | [] => EmptyString
  | [x] => x
  | x :: rest => x +:+ sep +:+ join sep rest
  end.

(** [Array.prototype.slice(start, end)] with relative (negative)
    indices. *)
Definition relIndex (len i : Z) : Z :=
  if i <? 0 then Z.max (len + i) 0 else Z.min i len.

Definition slice {A} (l : list A) (start stop : Z) : list A :=
  let len := Z.of_nat (length l) in
  let k := relIndex len start in
  let e := relIndex len stop in
  firstn (Z.to_nat (e - k)) (skipn (Z.to_nat k) l).

(** [slice(start)] *)
Definition sliceFrom {A} (l : list A) (start : Z) : list A :=
  slice l start (Z.of_nat (length l)).

(** A JSON value met where the code expects text. *)
Inductive Value : Type :=
| VString (s : string)
| VNumber (n : Z)
| VBool (b : bool)
| VNull.

(** Outcome of a call: a returned value or a thrown error. *)
Inductive Outcome (A : Type) : Type :=
| Returned (a : A)
| Thrown (message : string).
Arguments Returned {A} a.
Arguments Thrown {A} message.

(** [v.toLowerCase()]: a method of strings only. *)
Definition valueToLowerCase (v : Value) : Outcome string :=
  match v with
  | VString s => Returned (toLowerCase s)
  | VNull => Thrown "Cannot read properties of null (reading 'toLowerCase')"
  | _ => Thrown "impact.toLowerCase is not a function"
  end.

End Js.

Import Js.

(** ** Data model *)

Record MemoryEvent : Type := mkMemoryEvent {
  id : string;
  event_type : option string;
  summary : option string;
  characters_involved : list string;
  witnesses : list string;
  location : string;
  is_secret : bool;
  emotional_impact : list (string * string);
  relationship_impact : list (string * Value);
  message_ids : list Z;
  created_at : Z;
  sequence : option Q
}.

Record CharacterState : Type := mkCharacterState {
  name : string;
  current_emotion : string;
  emotion_intensity : Z;
  known_events : list string;
  last_updated : option Z
}.

Record HistoryEntry : Type := mkHistoryEntry {
  event_id : string;
  impact : string;
  timestamp : Z
}.

Record Relationship : Type := mkRelationship {
  character_a : string;
  character_b : string;
  trust_level : Z;
  tension_level : Z;
  relationship_type : string;
  history : list HistoryEntry
}.

(** The store kept in the chat metadata.  The key [extracted_batches]
    may be missing: nothing in the code creates it. *)
Record OpenVaultData : Type := mkData {
  memories : list MemoryEvent;
  character_states : gmap string CharacterState;
  relationships : gmap string Relationship;
  last_processed_message_id : option Z;
  last_extraction_batch : option string;
  extracted_batches : option (list nat)
}.

(** [getOpenVaultData] creates this store when the chat has none: the
    four keys [memories], [character_states], [relationships] and
    [last_processed_message_id]. *)
Definition emptyData : OpenVaultData :=
  {| memories := [];
     character_states := ∅;
     relationships := ∅;
     last_processed_message_id := Some (-1);
     last_extraction_batch := None;
     extracted_batches := None |}.

(** ** Computations over the store *)

Definition Eff (S A : Type) : Type := S -> S * Outcome A.

Definition ret {S A} (a : A) : Eff S A := fun s => (s, Returned a).
Definition throw {S A} (msg : string) : Eff S A := fun s => (s, Thrown msg).
Definition bind {S A B} (m : Eff S A) (k : A -> Eff S B) : Eff S B :=
  fun s => match m s with
           | (s', Returned a) => k a s'
           | (s', Thrown e) => (s', Thrown e)
           end.
Definition modify {S} (f : S -> S) : Eff S unit := fun s => (f s, Returned tt).
Definition liftOutcome {S A} (o : Outcome A) : Eff S A := fun s => (s, o).

Notation "'let*' x ':=' m 'in' k" := (bind m (fun x => k))
  (at level 10, x name, m at level 100, k at level 200).
Notation "'exec' m 'then' k" := (bind m (fun _ => k))
  (at level 10, m at level 100, k at level 200).

(** [for (const x of l) body(x)]: stops at the first throw. *)
Fixpoint forEach {S A} (l : list A) (body : A -> Eff S unit) : Eff S unit :=
  match l with
  | [] => ret tt
  | x :: rest => exec body x then forEach rest body
  end.

(** [try { body } catch (error) { handler(error) }] *)
Definition tryCatch {S A} (body : Eff S A) (handler : string -> Eff S A) : Eff S A :=
  fun s => match body s with
           | (s', Returned a) => (s', Returned a)
           | (s', Thrown e) => handler e s'
           end.

(** ** State propagator (index.js) *)

(** The regular expression [/^(.+?)\s*->\s*(.+)$/], by backtracking. *)

(** [(.+)$]: the rest of the text, not empty, no line terminator. *)
Fixpoint noLineTerminator (s : string) : bool :=
  match s with
  | EmptyString => true
  | String c s' => negb (isLineTerminator c) && noLineTerminator s'
  end.

Definition matchDotPlusEnd (s : string) : option string :=
  match s with
  | EmptyString => None
  | _ => if noLineTerminator s then Some s else None
  end.

(** [\s*(.+)$]: the greedy [\s*] first takes the white space, and gives it
    back when what follows does not match. *)
Fixpoint matchTail (s : string) : option string :=
  match s with
  | EmptyString => None
  | String c s' =>
      if isWhiteSpace c
      then match matchTail s' with
           | Some b => Some b
           | None => matchDotPlusEnd s
           end
      else matchDotPlusEnd s
  end.

(** [->\s*(.+)$] *)
Definition matchArrowHere (s : string) : option string :=
  match s with
  | String c (String d t) =>
      if Ascii.eqb c "-" && Ascii.eqb d ">" then matchTail t else None
  | _ => None
  end.

(** [\s*->\s*(.+)$] *)
Fixpoint matchArrow (s : string) : option string :=
  match s with
  | EmptyString => None
  | String c s' =>
      if isWhiteSpace c
      then match matchArrow s' with
           | Some b => Some b
           | None => matchArrowHere s
           end
      else matchArrowHere s
  end.

(** [(.+?)] has read [a]; it is lazy, so the rest of the pattern is tried
    before one more code unit is taken. *)
Fixpoint matchLazy (a : string) (rest : string) : option (string * string) :=
  match matchArrow rest with
  | Some b => Some (a, b)
  | None =>
      match rest with
      | EmptyString => None
      | String c rest' =>
          if isLineTerminator c then None
          else matchLazy (a +:+ String c EmptyString) rest'
      end
  end.

(** [relationKey.match(/^(.+?)\s*->\s*(.+)$/)] *)
Definition matchRelationKey (relationKey : string) : option (string * string) :=
  match relationKey with
  | EmptyString => None
  | String c rest =>
      if isLineTerminator c then None
      else matchLazy (String c EmptyString) rest
  end.

Definition pairKey (charA charB : string) : string := charA +:+ "<->" +:+ charB.

Definition newRelationship (charA charB : string) : Relationship :=
  {| character_a := charA;
     character_b := charB;
     trust_level := 5;
     tension_level := 0;
     relationship_type := "acquaintance";
     history := [] |}.

Definition setTrust (v : Z) (r : Relationship) : Relationship :=
  {| character_a := character_a r; character_b := character_b r;
     trust_level := v; tension_level := tension_level r;
     relationship_type := relationship_type r; history := history r |}.

Definition setTension (v : Z) (r : Relationship) : Relationship :=
  {| character_a := character_a r; character_b := character_b r;
     trust_level := trust_level r; tension_level := v;
     relationship_type := relationship_type r; history := history r |}.

Definition pushHistory (h : HistoryEntry) (r : Relationship) : Relationship :=
  {| character_a := character_a r; character_b := character_b r;
     trust_level := trust_level r; tension_level := tension_level r;
     relationship_type := relationship_type r; history := history r ++ [h] |}.

Definition adjustTrust (impactLower : string) (r : Relationship) : Relationship :=
  if includes impactLower "trust" && includes impactLower "increas"
  then setTrust (Z.min 10 (trust_level r + 1)) r
  else if includes impactLower "trust" && includes impactLower "decreas"
       then setTrust (Z.max 0 (trust_level r - 1)) r
       else r.

Definition adjustTension (impactLower : string) (r : Relationship) : Relationship :=
  if includes impactLower "tension" && includes impactLower "increas"
  then setTension (Z.min 10 (tension_level r + 1)) r
  else if includes impactLower "tension" && includes impactLower "decreas"
       then setTension (Z.max 0 (tension_level r - 1)) r
       else r.

(** [if (!rels[key]) rels[key] = {...}] *)
Definition ensureRelationship (key charA charB : string)
    (rels : gmap string Relationship) : gmap string Relationship :=
  match rels !! key with
  | Some _ => rels
  | None => <[key := newRelationship charA charB]> rels
  end.

(** The body of the inner loop of [updateRelationshipsFromEvents], on one
    entry of [event.relationship_impact]. *)
Definition applyImpact (now : Z) (eventId : string) (entry : string * Value)
  : Eff (gmap string Relationship) unit :=
  let '(relationKey, impactValue) := entry in
  match matchRelationKey relationKey with
  | None => ret tt
  | Some (charA, charB) =>
      let key := pairKey charA charB in
      exec modify (ensureRelationship key charA charB) then
      let* impactLower := liftOutcome (valueToLowerCase impactValue) in
      exec modify (alter (adjustTrust impactLower) key) then
      exec modify (alter (adjustTension impactLower) key) then
      modify (alter (pushHistory
                       {| event_id := eventId;
                          impact := match impactValue with
                                    | VString s => s
                                    | _ => EmptyString
                                    end;
                          timestamp := now |}) key)
  end.

Definition updateRelationships (now : Z) (events : list MemoryEvent)
  : Eff (gmap string Relationship) unit :=
  forEach events (fun event =>
    forEach (relationship_impact event) (applyImpact now (id event))).

(** Run a computation over one field of the store. *)
Definition onRelationships {A} (m : Eff (gmap string Relationship) A)
  : Eff OpenVaultData A :=
  fun data =>
    let '(rels, o) := m (relationships data) in
    ({| memories := memories data;
        character_states := character_states data;
        relationships := rels;
        last_processed_message_id := last_processed_message_id data;
        last_extraction_batch := last_extraction_batch data;
        extracted_batches := extracted_batches data |}, o).

Definition updateRelationshipsFromEvents (now : Z) (events : list MemoryEvent)
  : Eff OpenVaultData unit :=
  onRelationships (updateRelationships now events).

Definition newCharacterState (charName : string) : CharacterState :=
  {| name := charName;
     current_emotion := "neutral";
     emotion_intensity := 5;
     known_events := [];
     last_updated := None |}.

(** The names every object inherits from [Object.prototype]: for them
    [chars[name]] is a function (or the prototype itself), hence truthy,
    also when [chars] has no state of that name. *)
Definition inheritedNames : list string :=
  ["__proto__"; "constructor"; "hasOwnProperty"; "isPrototypeOf";
   "propertyIsEnumerable"; "toLocaleString"; "toString"; "valueOf";
   "__defineGetter__"; "__defineSetter__"; "__lookupGetter__";
   "__lookupSetter__"].

Definition inheritedName (n : string) : bool :=
  existsb (String.eqb n) inheritedNames.

(** [if (!chars[charName]) chars[charName] = {...}]: a state is created
    when the lookup finds nothing, neither a state nor an inherited
    property. *)
Definition ensureCharacter (charName : string)
    (chars : gmap string CharacterState) : gmap string CharacterState :=
  match chars !! charName with
  | Some _ => chars
  | None => if inheritedName charName then chars
            else <[charName := newCharacterState charName]> chars
  end.

Definition setEmotion (now : Z) (emotion : string) (c : CharacterState) : CharacterState :=
  {| name := name c; current_emotion := emotion;
     emotion_intensity := emotion_intensity c;
     known_events := known_events c; last_updated := Some now |}.

(** [if (!known_events.includes(id)) known_events.push(id)] *)
Definition learnEvent (eventId : string) (c : CharacterState) : CharacterState :=
  if existsb (String.eqb eventId) (known_events c) then c
  else {| name := name c; current_emotion := current_emotion c;
          emotion_intensity := emotion_intensity c;
          known_events := known_events c ++ [eventId];
          last_updated := last_updated c |}.

(** One entry of [event.emotional_impact].  The two assignments go to
    [chars[charName]]: for an inherited name without a state that is the
    inherited object, and the store is not changed.  (For the name
    [__proto__] the inherited object is [Object.prototype] itself; the
    names it has are taken to be those the language gives it.) *)
Definition applyEmotion (now : Z) (chars : gmap string CharacterState)
    (entry : string * string) : gmap string CharacterState :=
  let '(charName, emotion) := entry in
  alter (setEmotion now emotion) charName (ensureCharacter charName chars).

(** One witness of an event.  For an inherited name without a state,
    [chars[witness].known_events] is undefined and [.includes] throws. *)
Definition applyWitness (eventId : string) (witness : string)
  : Eff (gmap string CharacterState) unit :=
  exec modify (ensureCharacter witness) then
  fun chars =>
    match chars !! witness with
    | Some _ => (alter (learnEvent eventId) witness chars, Returned tt)
    | None =>
        (chars, Thrown "Cannot read properties of undefined (reading 'includes')")
    end.

Definition updateCharacterStates (now : Z) (events : list MemoryEvent)
  : Eff (gmap string CharacterState) unit :=
  forEach events (fun event =>
    exec modify (fun chars =>
                   fold_left (applyEmotion now) (emotional_impact event) chars) then
    forEach (witnesses event) (applyWitness (id event))).

(** Run a computation over the character states of the store. *)
Definition onCharacters {A} (m : Eff (gmap string CharacterState) A)
  : Eff OpenVaultData A :=
  fun data =>
    let '(chars, o) := m (character_states data) in
    ({| memories := memories data;
        character_states := chars;
        relationships := relationships data;
        last_processed_message_id := last_processed_message_id data;
        last_extraction_batch := last_extraction_batch data;
        extracted_batches := extracted_batches data |}, o).

Definition updateCharacterStatesFromEvents (now : Z) (events : list MemoryEvent)
  : Eff OpenVaultData unit :=
  onCharacters (updateCharacterStates now events).

(** ** Extraction orchestrator (extraction module) *)

(** A message of the chat; [sender] is its field [name]. *)

Record Message : Type := mkMessage {
  is_system : bool;
  is_user : bool;
  sender : option string;
  mes : string
}.

(** An element of [messagesToExtract]: [{ id, ...chat[id] }]. *)
Record Turn : Type := mkTurn {
  turn_id : Z;
  turn_message : option Message
}.

Record Settings : Type := mkSettings {
  enabled : bool;
  extractionProfile : string;
  selectedProfile : string;
  messagesPerExtraction : option Z
}.

(** [x || d] on a number that may be missing: 0 is falsy. *)
Definition orDefault (x : option Z) (d : Z) : Z :=
  match x with
  | None => d
  | Some 0 => d
  | Some n => n
  end.

(** [chat[id]] *)
Definition chatAt (chat : list Message) (i : Z) : option Message :=
  if i <? 0 then None else chat !! Z.to_nat i.

(** [chat.map((m, idx) => ({ id: idx, ...m }))] *)
Definition indexed (chat : list Message) : list Turn :=
  imap (fun idx m => {| turn_id := Z.of_nat idx; turn_message := Some m |}) chat.

(** [!m.is_system]: a turn without a message has no such field. *)
Definition turnIsSystem (t : Turn) : bool :=
  match turn_message t with
  | Some m => is_system m
  | None => false
  end.

(** The choice of [messagesToExtract] in [extractMemories]: the turns of
    the ids given, or else the last unprocessed turns. *)
Definition selectTurns (st : Settings) (chat : list Message)
    (data : OpenVaultData) (messageIds : option (list Z)) : list Turn :=
  match messageIds with
  | Some (i :: ids) =>
      map (fun i => {| turn_id := i; turn_message := chatAt chat i |}) (i :: ids)
  | _ =>
      let lastProcessedId := orDefault (last_processed_message_id data) (-1) in
      let messageCount := orDefault (messagesPerExtraction st) 5 in
      sliceFrom
        (List.filter (fun t => negb (turnIsSystem t) && (lastProcessedId <? turn_id t))
                (indexed chat))
        (- messageCount)
  end.

(** What one cycle takes from outside: the clock, the fresh ids, the
    answer of [ConnectionManagerRequestService.sendRequest] (the text
    [result?.content || result || ''], or a thrown error) and whether
    [saveOpenVaultData] fails. *)
Record CycleInput : Type := mkCycleInput {
  now : Z;
  batchId : string;
  generateId : nat -> string;
  sendRequest : Outcome string;
  saveError : option string
}.

(** An element of the array the model answered, before normalisation.
    The spread [...event] copies every field of the answer; [sequence]
    is the one among the others that the code reads later on. *)
Record RawEvent : Type := mkRawEvent {
  raw_id : option string;
  raw_event_type : option string;
  raw_summary : option string;
  raw_characters_involved : option (list string);
  raw_witnesses : option (list string);
  raw_location : option string;
  raw_is_secret : option bool;
  raw_emotional_impact : option (list (string * string));
  raw_relationship_impact : option (list (string * Value));
  raw_sequence : option Q
}.

Definition callLLMForExtraction (st : Settings) (inp : CycleInput) : Outcome string :=
  let profileId :=
    if String.eqb (extractionProfile st) "" then selectedProfile st
    else extractionProfile st in
  if String.eqb profileId ""
  then Thrown "No connection profile available for extraction. Please configure a profile in Connection Manager."
  else match sendRequest inp with
       | Thrown e => Thrown e
       | Returned content =>
           if String.eqb content "" then Thrown "Empty response from LLM"
           else Returned content
       end.

Definition truthyString (s : option string) : option string :=
  match s with
  | Some "" => None
  | other => other
  end.

Section Orchestrator.

(** Reading the answer: the stripping of a reasoning segment, the fenced
    block, [JSON.parse], [Array.isArray(parsed) ? parsed : [parsed]] and
    the fields of each element.  [None] when any of these throws. *)
Variable readEvents : string -> option (list RawEvent).

Definition enrich (turns : list Turn) (inp : CycleInput)
    (index : nat) (event : RawEvent) : MemoryEvent :=
  let involved := default [] (raw_characters_involved event) in
  {| id := default (generateId inp index) (raw_id event);
     event_type := raw_event_type event;
     summary := raw_summary event;
     characters_involved := involved;
     witnesses := default involved (raw_witnesses event);
     location := default "unknown" (truthyString (raw_location event));
     is_secret := default false (raw_is_secret event);
     emotional_impact := default [] (raw_emotional_impact event);
     relationship_impact := default [] (raw_relationship_impact event);
     message_ids := map turn_id turns;
     created_at := now inp;
     sequence := raw_sequence event |}.

Definition parseExtractionResult (jsonString : string) (turns : list Turn)
    (inp : CycleInput) : list MemoryEvent :=
  match readEvents jsonString with
  | Some events => imap (enrich turns inp) events
  | None => []
  end.

(** [Math.max(...ids)] of a list that is not empty. *)
Definition maxId (turns : list Turn) : Z :=
  match map turn_id turns with
  | [] => -1
  | i :: ids => fold_left Z.max ids i
  end.

Definition pushMemories (events : list MemoryEvent) (data : OpenVaultData) : OpenVaultData :=
  {| memories := memories data ++ events;
     character_states := character_states data;
     relationships := relationships data;
     last_processed_message_id := last_processed_message_id data;
     last_extraction_batch := last_extraction_batch data;
     extracted_batches := extracted_batches data |}.

Definition advanceMarker (turns : list Turn) (batch : string)
    (data : OpenVaultData) : OpenVaultData :=
  {| memories := memories data;
     character_states := character_states data;
     relationships := relationships data;
     last_processed_message_id :=
       Some (Z.max (orDefault (last_processed_message_id data) (-1)) (maxId turns));
     last_extraction_batch := Some batch;
     extracted_batches := extracted_batches data |}.

Definition saveOpenVaultData (inp : CycleInput) : Eff OpenVaultData unit :=
  match saveError inp with
  | Some e => throw e
  | None => ret tt
  end.

Record ExtractionResult : Type := mkResult {
  events_created : nat;
  messages_processed : nat
}.

(** The branch [if (events.length > 0) { ... }]. *)
Definition storeEvents (messagesToExtract : list Turn) (inp : CycleInput)
    (events : list MemoryEvent) : Eff OpenVaultData unit :=
  exec modify (pushMemories events) then
  exec updateCharacterStatesFromEvents (now inp) events then
  exec updateRelationshipsFromEvents (now inp) events then
  exec modify (advanceMarker messagesToExtract (batchId inp)) then
  saveOpenVaultData inp.

(** The [try] block of [extractMemories]. *)
Definition extractionCycle (st : Settings) (inp : CycleInput)
    (messagesToExtract : list Turn)
  : Eff OpenVaultData (option ExtractionResult) :=
  let* extractedJson := liftOutcome (callLLMForExtraction st inp) in
  let events := parseExtractionResult extractedJson messagesToExtract inp in
  exec (match events with
        | [] => ret tt
        | _ => storeEvents messagesToExtract inp events
        end) then
  ret (Some {| events_created := length events;
               messages_processed := length messagesToExtract |}).

(** [extractMemories(messageIds)]; [None] is the [undefined] of the
    early returns.  The store exists ([getOpenVaultData()] is not
    null).  The [catch] block reports the error and throws it again. *)
Definition extractMemories (st : Settings) (chat : list Message)
    (inp : CycleInput) (messageIds : option (list Z))
  : Eff OpenVaultData (option ExtractionResult) :=
  fun data =>
  if negb (enabled st) then (data, Returned None)
  else match chat with
  | [] => (data, Returned None)
  | _ =>
    let messagesToExtract := selectTurns st chat data messageIds in
    match messagesToExtract with
    | [] => (data, Returned None)
    | _ =>
      tryCatch (extractionCycle st inp messagesToExtract)
               (fun error => throw error) data
    end
  end.

(** ** Backfill scheduler (extraction module) *)

(** Ids of the turns some stored memory was extracted from. *)
Definition alreadyExtracted (data : OpenVaultData) : gset Z :=
  list_to_set (concat (map message_ids (memories data))).

Definition allMessageIds (chat : list Message) (data : OpenVaultData) : list Z :=
  List.filter (fun idx => bool_decide (idx ∉ alreadyExtracted data))
         (imap (fun idx _ => Z.of_nat idx) chat).

(** The turns left after the reserved tail is cut off: [slice(0, -N)]. *)
Definition eligible (st : Settings) (chat : list Message) (data : OpenVaultData) : list Z :=
  slice (allMessageIds chat data) 0 (- orDefault (messagesPerExtraction st) 5).

Definition completeBatches (st : Settings) (chat : list Message) (data : OpenVaultData) : Z :=
  Z.of_nat (length (eligible st chat data)) / orDefault (messagesPerExtraction st) 5.

Definition backfillTurns (st : Settings) (chat : list Message) (data : OpenVaultData) : list Z :=
  let messageCount := orDefault (messagesPerExtraction st) 5 in
  let messagesToExtract := eligible st chat data in
  let completeMessageCount := completeBatches st chat data * messageCount in
  let remainder := Z.of_nat (length messagesToExtract) - completeMessageCount in
  if 0 <? remainder then slice messagesToExtract 0 completeMessageCount
  else messagesToExtract.

(** [messagesToExtract.slice(i * N, i * N + N)] *)
Definition batchOf (messageCount : Z) (turns : list Z) (i : nat) : list Z :=
  slice turns (Z.of_nat i * messageCount) (Z.of_nat i * messageCount + messageCount).

(** [if (!data.extracted_batches.includes(i)) data.extracted_batches.push(i)]:
    when the store has no such list, reading [.includes] throws. *)
Definition markExtracted (i : nat) : Eff OpenVaultData unit :=
  fun data =>
    match extracted_batches data with
    | None =>
        (data, Thrown "Cannot read properties of undefined (reading 'includes')")
    | Some done =>
        ({| memories := memories data;
            character_states := character_states data;
            relationships := relationships data;
            last_processed_message_id := last_processed_message_id data;
            last_extraction_batch := last_extraction_batch data;
            extracted_batches :=
              Some (if existsb (Nat.eqb i) done then done else done ++ [i]) |},
         Returned tt)
    end.

(** [result?.events_created || 0] *)
Definition eventsCreatedOr0 (r : option ExtractionResult) : nat :=
  match r with
  | Some r => events_created r
  | None => 0%nat
  end.

(** What the loop did with batch [batch_index]: what [extractMemories]
    returned or threw for it, and the error the [catch] of the loop
    reported, if any. *)
Record BatchLog : Type := mkBatchLog {
  batch_index : nat;
  batch_turns : list Z;
  batch_result : Outcome (option ExtractionResult);
  batch_error : option string
}.

(** The state of a backfill run: the store, the counter [totalEvents] of
    the loop and what the loop has logged so far. *)
Record Backfill : Type := mkBackfill {
  store : OpenVaultData;
  totalEvents : nat;
  batchLog : list BatchLog
}.

Definition onStore {A} (m : Eff OpenVaultData A) : Eff Backfill A :=
  fun run =>
    let '(data, o) := m (store run) in
    ({| store := data; totalEvents := totalEvents run; batchLog := batchLog run |}, o).

(** [totalEvents += n] *)
Definition addEvents (n : nat) (run : Backfill) : Backfill :=
  {| store := store run; totalEvents := (totalEvents run + n)%nat;
     batchLog := batchLog run |}.

Definition logBatch (entry : BatchLog) (run : Backfill) : Backfill :=
  {| store := store run; totalEvents := totalEvents run;
     batchLog := batchLog run ++ [entry] |}.

(** The [try]/[catch] inside the loop, for batch [i]: the events are
    counted before the index is recorded, and the [catch] takes an error
    of either.  The value is the error that was caught. *)
Definition backfillAttempt (st : Settings) (chat : list Message)
    (inp : CycleInput) (batch : list Z) (i : nat)
  : Eff Backfill (option string) :=
  tryCatch
    (let* result := onStore (extractMemories st chat inp (Some batch)) in
     exec modify (addEvents (eventsCreatedOr0 result)) then
     exec onStore (markExtracted i) then
     ret None)
    (fun error => ret (Some error)).

(** One iteration of the loop, with its entry in the log. *)
Definition backfillStep (st : Settings) (chat : list Message)
    (inp : CycleInput) (batch : list Z) (i : nat)
  : Eff Backfill unit :=
  fun run =>
    let extracted := snd (extractMemories st chat inp (Some batch) (store run)) in
    (let* caught := backfillAttempt st chat inp batch i in
     modify (logBatch {| batch_index := i; batch_turns := batch;
                         batch_result := extracted; batch_error := caught |})) run.

(** The loop [for (let i = 0; i < completeBatches; i++)], from index [i]
    with [todo] iterations left; [inputs i] is what the cycle of batch
    [i] takes from outside. *)
Fixpoint backfillLoop (st : Settings) (chat : list Message)
    (inputs : nat -> CycleInput) (turns : list Z) (todo : nat) (i : nat)
  : Eff Backfill unit :=
  match todo with
  | O => ret tt
  | S todo' =>
      exec backfillStep st chat (inputs i)
             (batchOf (orDefault (messagesPerExtraction st) 5) turns i) i then
      backfillLoop st chat inputs turns todo' (S i)
  end.

(** [await saveChatConditional()] after the loop; [finalSaveError] is
    its error, if it fails. *)
Definition saveChatConditional (finalSaveError : option string) : Eff Backfill unit :=
  match finalSaveError with
  | Some e => throw e
  | None => ret tt
  end.

(** The final toast: [`Extracted ${totalEvents} events from
    ${messagesToExtract.length} messages`]. *)
Record BackfillReport : Type := mkReport {
  eventsReported : nat;
  messagesCount : nat
}.

(** [extractAllMessages]: the state the run ends in, and the report of
    its final toast; [None] stands for the early returns.  The final
    save is outside every [try]: when it fails, the run throws and
    reports nothing. *)
Definition extractAllMessages (st : Settings) (chat : list Message)
    (inputs : nat -> CycleInput) (finalSaveError : option string)
    (data : OpenVaultData) : Backfill * Outcome (option BackfillReport) :=
  let start := {| store := data; totalEvents := 0; batchLog := [] |} in
  match chat with
  | [] => (start, Returned None)
  | _ =>
    let messagesToExtract := backfillTurns st chat data in
    match messagesToExtract with
    | [] => (start, Returned None)
    | _ =>
      (exec backfillLoop st chat inputs messagesToExtract
              (Z.to_nat (completeBatches st chat data)) 0 then
       exec saveChatConditional finalSaveError then
       fun run =>
         (run, Returned (Some {| eventsReported := totalEvents run;
                                 messagesCount := length messagesToExtract |})))
        start
    end
  end.

End Orchestrator.

(** ** Point-of-view filter (index.js, [retrieveAndInjectContext] and
       [updatePersistentInjection]) *)

(** [data.character_states?.[characterName]?.known_events || []] *)
Definition knownEventIds (data : OpenVaultData) (characterName : string) : list string :=
  match character_states data !! characterName with
  | Some c => known_events c
  | None => []
  end.

(** [names.some(n => n.toLowerCase() === charNameLower)] *)
Definition someNamed (charNameLower : string) (names : list string) : bool :=
  existsb (fun n => String.eqb (toLowerCase n) charNameLower) names.

(** The predicate given to [memories.filter]. *)
Definition povVisible (characterName : string) (known : list string)
    (m : MemoryEvent) : bool :=
  let charNameLower := toLowerCase characterName in
  if someNamed charNameLower (witnesses m) then true
  else if negb (is_secret m) && someNamed charNameLower (characters_involved m) then true
  else if existsb (String.eqb (id m)) known then true
  else false.

Definition accessibleMemories (data : OpenVaultData) (characterName : string)
  : list MemoryEvent :=
  List.filter (povVisible characterName (knownEventIds data characterName))
              (memories data).

(** The filtered list, or every memory when the filter left none. *)
Definition memoriesToUse (data : OpenVaultData) (characterName : string)
  : list MemoryEvent :=
  let accessible := accessibleMemories data characterName in
  if (length accessible =? 0)%nat && (0 <? length (memories data))%nat
  then memories data
  else accessible.

(** ** Relevance selector (index.js, [selectRelevantMemories]) *)

Definition Qlt_bool (a b : Q) : bool := negb (Qle_bool b a).

(** [(Date.now() - memory.created_at) / (1000 * 60 * 60)] *)
Definition ageHours (nowMs : Z) (m : MemoryEvent) : Q :=
  inject_Z (nowMs - created_at m) / inject_Z (1000 * 60 * 60).

(** [memory.summary?.toLowerCase() || ''] *)
Definition summaryLower (m : MemoryEvent) : string :=
  match summary m with
  | Some s => toLowerCase s
  | None => ""
  end.

(** [recentContext.toLowerCase().split(/\s+/).filter(w => w.length > 3)] *)
Definition contextWords (recentContext : string) : list string :=
  List.filter (fun w => (3 <? String.length w)%nat)
              (splitWs (toLowerCase recentContext)).

Definition arrayIncludes (l : list string) (x : string) : bool :=
  existsb (String.eqb x) l.

Definition isType (m : MemoryEvent) (t : string) : bool :=
  match event_type m with
  | Some s => String.eqb s t
  | None => false
  end.

(** The body of [memories.map(memory => ...)]: [score] starts at 0 and is
    increased statement by statement.  The arithmetic is exact; the
    doubles of the code can differ from it in the last place, so that the
    code may rank two memories of one exact score in either order. *)
Definition scoreMemory (nowMs : Z) (recentContext : string)
    (activeCharacters : list string) (m : MemoryEvent) : Q :=
  let score := 0%Q in
  let score := (score + Qmax 0 (10 - ageHours nowMs m))%Q in
  let score :=
    fold_left (fun score char =>
        let score := if arrayIncludes (characters_involved m) char
                     then (score + 5)%Q else score in
        if arrayIncludes (witnesses m) char then (score + 3)%Q else score)
      activeCharacters score in
  let score :=
    fold_left (fun score word =>
        if includes (summaryLower m) word then (score + 1)%Q else score)
      (contextWords recentContext) score in
  let score := if isType m "revelation" then (score + 3)%Q else score in
  let score := if isType m "relationship_change" then (score + 2)%Q else score in
  score.

(** [scored.sort((a, b) => b.score - a.score)]: a stable sort, highest
    score first. *)
Fixpoint insertScored (x : MemoryEvent * Q) (l : list (MemoryEvent * Q))
  : list (MemoryEvent * Q) :=
  match l with
  | [] => [x]
  | y :: l' => if Qlt_bool (snd x) (snd y) then y :: insertScored x l'
               else x :: y :: l'
  end.

Definition sortScored (l : list (MemoryEvent * Q)) : list (MemoryEvent * Q) :=
  fold_right insertScored [] l.

Definition selectRelevantMemories (nowMs : Z) (mems : list MemoryEvent)
    (recentContext : string) (activeCharacters : list string) (limit : Z)
  : list MemoryEvent :=
  let scored := map (fun m => (m, scoreMemory nowMs recentContext activeCharacters m)) mems in
  map fst (slice (sortScored scored) 0 limit).

(** ** Context formatter (index.js, [formatContextForInjection]) *)

Record RelationshipSummary : Type := mkSummary {
  rel_character : string;
  rel_trust : Z;
  rel_tension : Z;
  rel_type : option string
}.

Definition newline : string := String (ascii_of_nat 10) EmptyString.

Definition relationshipLine (rel : RelationshipSummary) : string :=
  let trustDesc := if 7 <=? rel_trust rel then "high trust"
                   else if rel_trust rel <=? 3 then "low trust"
                   else "moderate trust" in
  let tensionDesc := if 7 <=? rel_tension rel then "high tension"
                     else if 4 <=? rel_tension rel then "some tension"
                     else "" in
  "- " +:+ rel_character rel +:+ ": "
  +:+ default "acquaintance" (truthyString (rel_type rel))
  +:+ " (" +:+ trustDesc
  +:+ (if String.eqb tensionDesc "" then "" else ", " +:+ tensionDesc)
  +:+ ")".

(** [`${memory.summary}`] *)
Definition summaryText (m : MemoryEvent) : string :=
  default "undefined" (summary m).

Definition memoryLine (m : MemoryEvent) : string :=
  "- " +:+ (if is_secret m then "[Secret] " else "") +:+ summaryText m.

Definition contextLines (mems : list MemoryEvent)
    (rels : list RelationshipSummary) (emotionalState characterName : string)
  : list string :=
  ["[" +:+ characterName +:+ "'s Memory & State]"; ""]
  ++ (if String.eqb emotionalState "" || String.eqb emotionalState "neutral"
      then []
      else ["Current emotional state: " +:+ emotionalState; ""])
  ++ (match rels with
      | [] => []
      | _ => ["Relationships with present characters:"]
             ++ map relationshipLine rels ++ [""]
      end)
  ++ (match mems with
      | [] => []
      | _ => ["Relevant memories:"] ++ map memoryLine mems
      end)
  ++ ["[End " +:+ characterName +:+ "'s Memory]"].

Definition lengthQ (s : string) : Q := inject_Z (Z.of_nat (String.length s)).

(** [(memory.summary?.length || 0) / 4 + 5] *)
Definition memoryTokens (m : MemoryEvent) : Q :=
  (match summary m with
   | Some s => lengthQ s
   | None => 0
   end / 4 + 5)%Q.

(** The loop that fills [truncatedMemories]; it breaks at the first
    memory that does not fit. *)
Fixpoint truncateMemories (availableForMemories currentTokens : Q)
    (mems : list MemoryEvent) : list MemoryEvent :=
  match mems with
  | [] => []
  | m :: rest =>
      if Qle_bool (currentTokens + memoryTokens m) availableForMemories
      then m :: truncateMemories availableForMemories
                  (currentTokens + memoryTokens m) rest
      else []
  end.

Definition overheadTokens (lines : list string) : Q :=
  ((lengthQ (join newline (slice lines 0 5))
    + lengthQ (join newline (sliceFrom lines (-1)))) / 4)%Q.

(** [fuel] bounds the depth of the recursion: [None] when it is used up. *)
Fixpoint formatContextForInjection (fuel : nat) (mems : list MemoryEvent)
    (rels : list RelationshipSummary) (emotionalState characterName : string)
    (tokenBudget : Q) : option string :=
  let lines := contextLines mems rels emotionalState characterName in
  let result := join newline lines in
  let estimatedTokens := (lengthQ result / 4)%Q in
  if Qlt_bool tokenBudget estimatedTokens
  then match fuel with
       | O => None
       | S fuel' =>
           let availableForMemories := (tokenBudget - overheadTokens lines)%Q in
           let truncatedMemories := truncateMemories availableForMemories 0 mems in
           formatContextForInjection fuel' truncatedMemories rels emotionalState
             characterName (tokenBudget * 2)
       end
  else Some result.


(** * The rest of the pipeline *)

(** ** Memories given to the model as context (extraction module) *)

(** [a.sequence ?? a.created_at ?? 0]: an event has a [sequence] when
    the answer it was read from had one. *)
Definition sequenceKey (m : MemoryEvent) : Q :=
  match sequence m with
  | Some s => s
  | None => inject_Z (created_at m)
  end.

Definition keyed (mems : list MemoryEvent) : list (MemoryEvent * Q) :=
  map (fun m => (m, sequenceKey m)) mems.

(** [getRecentMemoriesForContext(count)]: a sorted copy, newest first;
    all of it for a negative count, nothing for 0. *)
Definition getRecentMemoriesForContext (count : Z) (data : OpenVaultData)
  : list MemoryEvent :=
  if count =? 0 then []
  else
    let sorted := map fst (sortScored (keyed (memories data))) in
    if count <? 0 then sorted else slice sorted 0 count.

(** [existingMemories.sort((a, b) => key(a) - key(b))] of
    [buildExtractionPrompt]: a stable sort, oldest first. *)
Fixpoint insertOldest (x : MemoryEvent * Q) (l : list (MemoryEvent * Q))
  : list (MemoryEvent * Q) :=
  match l with
  | [] => [x]
  | y :: l' => if Qlt_bool (snd y) (snd x) then y :: insertOldest x l'
               else x :: y :: l'
  end.

Definition sortOldestFirst (l : list (MemoryEvent * Q)) : list (MemoryEvent * Q) :=
  fold_right insertOldest [] l.

Definition natToString (n : nat) : string := NilZero.string_of_uint (Nat.to_uint n).

(** [`${i + 1}. [${m.event_type || 'event'}] ${m.summary}`] *)
Definition memorySummaryLine (i : nat) (m : MemoryEvent) : string :=
  natToString (i + 1) +:+ ". [" +:+ default "event" (truthyString (event_type m))
  +:+ "] " +:+ summaryText m.

(** The memories of the section "Previously Established Memories", in the
    order of their lines. *)
Definition promptMemories (existingMemories : list MemoryEvent) : list MemoryEvent :=
  map fst (sortOldestFirst (keyed existingMemories)).

Definition memorySummaries (existingMemories : list MemoryEvent) : string :=
  join newline (imap memorySummaryLine (promptMemories existingMemories)).

(** What [extractMemories] hands to the prompt:
    [getRecentMemoriesForContext(settings.memoryContextCount || 0)]. *)
Definition existingMemoriesFor (memoryContextCount : option Z) (data : OpenVaultData)
  : list MemoryEvent :=
  getRecentMemoriesForContext (orDefault memoryContextCount 0) data.

(** ** The delay between two batches of a backfill *)

(** [Math.ceil(60000 / (settings.backfillMaxRPM || 30))] *)
Definition delayMs (backfillMaxRPM : option Z) : Z :=
  let rpm := orDefault backfillMaxRPM 30 in
  - ((- 60000) / rpm).

(** The change handler of the input: [Math.max(1, Math.min(600,
    parseInt(value) || 30))]; [None] is NaN. *)
Definition readBackfillRPM (value : option Z) : Z :=
  Z.max 1 (Z.min 600 (orDefault value 30)).

(** ** Deleting a memory (index.js, [deleteMemory]) *)

(** [findIndex]; [None] is -1. *)
Fixpoint findIndex {A} (p : A -> bool) (l : list A) : option nat :=
  match l with
  | [] => None
  | x :: rest => if p x then Some O else option_map S (findIndex p rest)
  end.

(** [splice(idx, 1)] *)
Definition spliceOne {A} (idx : nat) (l : list A) : list A :=
  firstn idx l ++ skipn (S idx) l.

Definition setMemories (mems : list MemoryEvent) (data : OpenVaultData) : OpenVaultData :=
  {| memories := mems;
     character_states := character_states data;
     relationships := relationships data;
     last_processed_message_id := last_processed_message_id data;
     last_extraction_batch := last_extraction_batch data;
     extracted_batches := extracted_batches data |}.

(** [deleteMemory(id)]; [saveError] is the error of [saveChatConditional],
    if it fails. *)
Definition deleteMemory (saveError : option string) (eventId : string)
  : Eff OpenVaultData unit :=
  fun data =>
    match findIndex (fun m => String.eqb (id m) eventId) (memories data) with
    | None => (data, Returned tt)
    | Some idx =>
        (exec modify (setMemories (spliceOne idx (memories data))) then
         match saveError with
         | Some e => throw e
         | None => ret tt
         end) data
    end.

(** ** Escaping (index.js, [escapeHtml]) *)

(** [s.replace(/c/g, rep)] for one character [c]. *)
Fixpoint replaceChar (c : ascii) (rep : string) (s : string) : string :=
  match s with
  | EmptyString => EmptyString
  | String d s' =>
      if Ascii.eqb d c then rep +:+ replaceChar c rep s'
      else String d (replaceChar c rep s')
  end.

Definition doubleQuote : ascii := ascii_of_nat 34.

Definition escapeHtml (str : string) : string :=
  replaceChar "'" "&#039;"
    (replaceChar doubleQuote "&quot;"
       (replaceChar ">" "&gt;"
          (replaceChar "<" "&lt;"
             (replaceChar "&" "&amp;" str)))).

(** ** The memory browser (index.js, [renderMemoryBrowser]) *)

Definition MEMORIES_PER_PAGE : Z := 10.

(** The predicate of [memories.filter]; an empty filter value is falsy. *)
Definition browserFilter (typeFilter characterFilter : string) (m : MemoryEvent) : bool :=
  if negb (String.eqb typeFilter "") && negb (isType m typeFilter) then false
  else if negb (String.eqb characterFilter "")
          && negb (arrayIncludes (characters_involved m) characterFilter)
       then false
       else true.

(** [a.created_at || 0] *)
Definition createdKey (m : MemoryEvent) : Q := inject_Z (created_at m).

(** [filteredMemories.sort((a, b) => (b.created_at || 0) - (a.created_at || 0))] *)
Definition filteredMemories (typeFilter characterFilter : string)
    (data : OpenVaultData) : list MemoryEvent :=
  map fst (sortScored (map (fun m => (m, createdKey m))
                           (List.filter (browserFilter typeFilter characterFilter)
                                        (memories data)))).

(** [Math.ceil(n / MEMORIES_PER_PAGE) || 1] *)
Definition totalPages (n : nat) : Z :=
  let pages := - ((- Z.of_nat n) / MEMORIES_PER_PAGE) in
  if pages =? 0 then 1 else pages.

(** [memoryBrowserPage = Math.min(memoryBrowserPage, totalPages - 1)] *)
Definition clampPage (memoryBrowserPage : Z) (n : nat) : Z :=
  Z.min memoryBrowserPage (totalPages n - 1).

Definition pageOf {A} (l : list A) (page : Z) : list A :=
  slice l (page * MEMORIES_PER_PAGE) (page * MEMORIES_PER_PAGE + MEMORIES_PER_PAGE).

(** [pageMemories] for the page the browser is on. *)
Definition pageMemories (typeFilter characterFilter : string)
    (memoryBrowserPage : Z) (data : OpenVaultData) : list MemoryEvent :=
  let filtered := filteredMemories typeFilter characterFilter data in
  pageOf filtered (clampPage memoryBrowserPage (length filtered)).

(** ** The list of names of a chat (settings panel) *)

Fixpoint dropWhiteSpace (s : string) : string :=
  match s with
  | EmptyString => EmptyString
  | String c s' => if isWhiteSpace c then dropWhiteSpace s' else s
  end.

Fixpoint reverseOnto (s acc : string) : string :=
  match s with
  | EmptyString => acc
  | String c s' => reverseOnto s' (String c acc)
  end.

Definition reverseString (s : string) : string := reverseOnto s EmptyString.

(** [raw.trim()] *)
Definition trim (raw : string) : string :=
  reverseString (dropWhiteSpace (reverseString (dropWhiteSpace raw))).

(** [addNameFromInput]: the new list, or the old one when the input is
    blank. *)
Definition addName (raw : string) (nameList : list string) : list string :=
  let value := trim raw in
  if String.eqb value "" then nameList else nameList ++ [value].

(** The click on the delete button of entry [idx]; [None] is an index
    that is not a finite number. *)
Definition removeNameAt (idx : option Z) (nameList : list string) : list string :=
  match idx with
  | None => nameList
  | Some i =>
      if (i <? 0) || (Z.of_nat (length nameList) <=? i) then nameList
      else spliceOne (Z.to_nat i) nameList
  end.

(** ** Retrieval (index.js) *)

(** [getRelationshipContext]; [entries] is [Object.entries(relationships)],
    the stored relationships in the order their keys were inserted. *)
Definition involvesPov (povCharacter : string) (rel : Relationship) : bool :=
  String.eqb (character_a rel) povCharacter || String.eqb (character_b rel) povCharacter.

Definition involvesActive (povCharacter : string) (activeCharacters : list string)
    (rel : Relationship) : bool :=
  existsb (fun c => negb (String.eqb c povCharacter)
                    && (String.eqb (character_a rel) c || String.eqb (character_b rel) c))
          activeCharacters.

Definition summaryOf (povCharacter : string) (rel : Relationship) : RelationshipSummary :=
  {| rel_character := if String.eqb (character_a rel) povCharacter
                      then character_b rel else character_a rel;
     rel_trust := trust_level rel;
     rel_tension := tension_level rel;
     rel_type := Some (relationship_type rel) |}.

Fixpoint getRelationshipContext (entries : list (string * Relationship))
    (povCharacter : string) (activeCharacters : list string)
  : list RelationshipSummary :=
  match entries with
  | [] => []
  | (_, rel) :: rest =>
      if involvesPov povCharacter rel && involvesActive povCharacter activeCharacters rel
      then summaryOf povCharacter rel
           :: getRelationshipContext rest povCharacter activeCharacters
      else getRelationshipContext rest povCharacter activeCharacters
  end.

(** What [getContext()] gives about the chat. *)
Record Character : Type := mkCharacter {
  char_name : option string;
  avatar : string
}.

Record Group : Type := mkGroup {
  group_id : string;
  members : option (list string)
}.

Record ChatContext : Type := mkContext {
  name1 : option string;
  name2 : string;
  groupId : option string;
  groups : list Group;
  characters : list Character;
  chatMessages : list Message
}.

(** The body of the loop over [group.members]. *)
Definition addMember (ctx : ChatContext) (active : list string) (member : string)
  : list string :=
  match find (fun c => String.eqb (avatar c) member) (characters ctx) with
  | Some c =>
      match truthyString (char_name c) with
      | Some n => if arrayIncludes active n then active else active ++ [n]
      | None => active
      end
  | None => active
  end.

Definition getActiveCharacters (ctx : ChatContext) : list string :=
  let active := [name2 ctx] in
  let active := match truthyString (name1 ctx) with
                | Some n => active ++ [n]
                | None => active
                end in
  match truthyString (groupId ctx) with
  | Some g =>
      match find (fun grp => String.eqb (group_id grp) g) (groups ctx) with
      | Some grp => fold_left (addMember ctx) (default [] (members grp)) active
      | None => active
      end
  | None => active
  end.

Record RetrievalSettings : Type := mkRetrievalSettings {
  retrievalEnabled : bool;
  maxMemoriesPerRetrieval : Z;
  tokenBudget : Q
}.

(** [chat.filter(m => !m.is_system).slice(-5).map(m => m.mes).join('\n')] *)
Definition recentMessages (messages : list Message) : string :=
  join newline
    (map mes (sliceFrom (List.filter (fun m => negb (is_system m)) messages) (-5))).

(** [characterState?.current_emotion || 'neutral'], where
    [characterState] is [data.character_states[characterName]].  For an
    inherited name without a state that is the inherited object, which is
    no part of the store; [inheritedEmotion] is the [current_emotion] it
    has, if any (an emotional impact on that name writes it there). *)
Definition emotionalStateOf (inheritedEmotion : string -> option string)
    (data : OpenVaultData) (characterName : string) : string :=
  match character_states data !! characterName with
  | Some c => if String.eqb (current_emotion c) "" then "neutral" else current_emotion c
  | None =>
      if inheritedName characterName
      then default "neutral" (truthyString (inheritedEmotion characterName))
      else "neutral"
  end.

Record Retrieval : Type := mkRetrieval {
  retrieved : list MemoryEvent;
  contextText : string
}.

(** [retrieveAndInjectContext]; [None] is the [null] it returns.
    [stackDepth] is the depth of recursion the engine allows the
    formatter: beyond it the call throws a RangeError, which the [catch]
    turns into [null].  [entries] is [Object.entries] of the stored
    relationships. *)
Definition retrieveAndInjectContext (stackDepth : nat) (rs : RetrievalSettings)
    (ctx : ChatContext) (nowMs : Z) (entries : list (string * Relationship))
    (inheritedEmotion : string -> option string) (data : OpenVaultData)
  : option Retrieval :=
  if negb (retrievalEnabled rs) then None
  else match chatMessages ctx with
  | [] => None
  | _ =>
    match memories data with
    | [] => None
    | _ =>
      let characterName := name2 ctx in
      let activeCharacters := getActiveCharacters ctx in
      match memoriesToUse data characterName with
      | [] => None
      | toUse =>
        let relevantMemories :=
          selectRelevantMemories nowMs toUse (recentMessages (chatMessages ctx))
            activeCharacters (maxMemoriesPerRetrieval rs) in
        match relevantMemories with
        | [] => None
        | _ =>
          let relationshipContext :=
            getRelationshipContext entries characterName activeCharacters in
          match formatContextForInjection stackDepth relevantMemories
                  relationshipContext
                  (emotionalStateOf inheritedEmotion data characterName)
                  characterName (tokenBudget rs) with
          | Some formattedContext =>
              Some {| retrieved := relevantMemories;
                      contextText := formattedContext |}
          | None => None
          end
        end
      end
    end
  end.
(** * Vocabulary of the properties *)

Definition levelsInRange (r : Relationship) : Prop :=
  0 <= trust_level r <= 10 /\ 0 <= tension_level r <= 10.

Definition allInRange (rels : gmap string Relationship) : Prop :=
  map_Forall (fun _ r => levelsInRange r) rels.

(** Rounds of propagation, one call of [updateRelationshipsFromEvents]
    each, on the store the previous round left (also after a throw). *)
Definition propagateAll (rounds : list (Z * list MemoryEvent))
    (data : OpenVaultData) : OpenVaultData :=
  fold_left (fun d round =>
               fst (updateRelationshipsFromEvents (fst round) (snd round) d))
            rounds data.

(** A name the pattern of relation keys reads back as it is: not empty,
    and free of white space, of [-] and of [<]. *)
Definition plainChar (c : ascii) : bool :=
  negb (isWhiteSpace c) && negb (Ascii.eqb c "-") && negb (Ascii.eqb c "<").

Fixpoint allPlain (s : string) : bool :=
  match s with
  | EmptyString => true
  | String c s' => plainChar c && allPlain s'
  end.

Definition plainName (s : string) : bool :=
  negb (String.eqb s "") && allPlain s.

(** An event that carries one relationship impact and nothing else. *)
Definition impactEvent (eventId relationKey : string) (v : Value) : MemoryEvent :=
  {| id := eventId; event_type := Some "relationship_change";
     summary := Some "They talked."; characters_involved := [];
     witnesses := []; location := "unknown"; is_secret := false;
     emotional_impact := []; relationship_impact := [(relationKey, v)];
     message_ids := []; created_at := 0; sequence := None |}.

(** A reader of answers for the examples: the text "[]" is the empty
    array, every other text is not JSON. *)
Definition readEmptyArray (content : string) : option (list RawEvent) :=
  if String.eqb content "[]" then Some [] else None.

Definition plainMessage (text : string) : Message :=
  {| is_system := false; is_user := false; sender := Some "Alice"; mes := text |}.

Definition systemMessage (text : string) : Message :=
  {| is_system := true; is_user := false; sender := None; mes := text |}.

Definition defaultSettings : Settings :=
  {| enabled := true; extractionProfile := "main"; selectedProfile := "";
     messagesPerExtraction := Some 5 |}.

(** A cycle whose request is answered with [content]. *)
Definition answered (content : string) : CycleInput :=
  {| now := 1000; batchId := "batch_1000_abc";
     generateId := fun i => "1000-" +:+ String (ascii_of_nat (97 + i)) "";
     sendRequest := Returned content; saveError := None |}.

(** A cycle whose request fails. *)
Definition refused (message : string) : CycleInput :=
  {| now := 1000; batchId := "batch_1000_abc";
     generateId := fun i => "1000-" +:+ String (ascii_of_nat (97 + i)) "";
     sendRequest := Thrown message; saveError := None |}.

(** A cycle whose request is answered but whose final save fails. *)
Definition unsaved (content message : string) : CycleInput :=
  {| now := 1000; batchId := "batch_1000_abc";
     generateId := fun i => "1000-" +:+ String (ascii_of_nat (97 + i)) "";
     sendRequest := Returned content; saveError := Some message |}.

(** An answer with one event whose relationship impact is the number 5
    instead of a text. *)
Definition rawNumberImpact : RawEvent :=
  {| raw_id := None; raw_event_type := Some "relationship_change";
     raw_summary := Some "Alice confides in Bob.";
     raw_characters_involved := Some ["Alice"; "Bob"];
     raw_witnesses := None; raw_location := None; raw_is_secret := None;
     raw_emotional_impact := None;
     raw_relationship_impact := Some [("Alice->Bob", VNumber 5)];
     raw_sequence := None |}.

Definition readNumberImpact (content : string) : option (list RawEvent) :=
  Some [rawNumberImpact].

(** An answer with one plain event. *)
Definition rawPlainEvent : RawEvent :=
  {| raw_id := None; raw_event_type := Some "action";
     raw_summary := Some "Alice opens the door.";
     raw_characters_involved := Some ["Alice"];
     raw_witnesses := None; raw_location := None; raw_is_secret := None;
     raw_emotional_impact := None; raw_relationship_impact := None;
     raw_sequence := None |}.

Definition readPlainEvent (content : string) : option (list RawEvent) :=
  Some [rawPlainEvent].

(** A secret event Alice takes part in but neither sees nor knows. *)
Definition secretEvent : MemoryEvent :=
  {| id := "ev-secret"; event_type := Some "revelation";
     summary := Some "Bob hides the letter about Alice.";
     characters_involved := ["Alice"; "Bob"]; witnesses := ["Bob"];
     location := "study"; is_secret := true;
     emotional_impact := []; relationship_impact := [];
     message_ids := [0]; created_at := 0; sequence := None |}.

Definition secretStore : OpenVaultData :=
  {| memories := [secretEvent];
     character_states := ∅; relationships := ∅;
     last_processed_message_id := Some 0;
     last_extraction_batch := None; extracted_batches := Some [] |}.

(** A store that has the list of completed batches, empty. *)
Definition listedData : OpenVaultData :=
  {| memories := []; character_states := ∅; relationships := ∅;
     last_processed_message_id := Some (-1);
     last_extraction_batch := None; extracted_batches := Some [] |}.

(** Read off the log of a backfill run: the events of the batches whose
    extraction returned, the indices of those batches, and the indices
    of the batches the loop did not report as failed. *)
Definition countedBy (entry : BatchLog) : nat :=
  match batch_result entry with
  | Returned r => eventsCreatedOr0 r
  | Thrown _ => 0%nat
  end.

Definition countedEvents (log : list BatchLog) : nat :=
  list_sum (map countedBy log).

Definition extracted (entry : BatchLog) : bool :=
  match batch_result entry with
  | Returned _ => true
  | Thrown _ => false
  end.

Definition extractedBatches (log : list BatchLog) : list nat :=
  map batch_index (List.filter extracted log).

(** Whether the store has the list of completed batches. *)
Definition hasBatchList (data : OpenVaultData) : bool :=
  match extracted_batches data with
  | Some _ => true
  | None => false
  end.

(** The store a batch leaves to the next one: what its cycle left, with
    the index recorded when the cycle returned. *)
Definition storeAfterBatch (readEvents : string -> option (list RawEvent))
    (st : Settings) (chat : list Message) (inp : CycleInput)
    (batch : list Z) (i : nat) (data : OpenVaultData) : OpenVaultData :=
  let cycle := extractMemories readEvents st chat inp (Some batch) data in
  match snd cycle with
  | Returned _ => fst (markExtracted i (fst cycle))
  | Thrown _ => fst cycle
  end.

(** The log replays the cycles: each entry holds what [extractMemories]
    did with its batch on the store its predecessors left. *)
Fixpoint replayed (readEvents : string -> option (list RawEvent))
    (st : Settings) (chat : list Message) (inputs : nat -> CycleInput)
    (data : OpenVaultData) (log : list BatchLog) : Prop :=
  match log with
  | [] => True
  | entry :: rest =>
      batch_result entry
      = snd (extractMemories readEvents st chat (inputs (batch_index entry))
               (Some (batch_turns entry)) data)
      /\ replayed readEvents st chat inputs
           (storeAfterBatch readEvents st chat (inputs (batch_index entry))
              (batch_turns entry) (batch_index entry) data)
           rest
  end.

(** The store the replayed cycles leave. *)
Fixpoint storeAfterLog (readEvents : string -> option (list RawEvent))
    (st : Settings) (chat : list Message) (inputs : nat -> CycleInput)
    (data : OpenVaultData) (log : list BatchLog) : OpenVaultData :=
  match log with
  | [] => data
  | entry :: rest =>
      storeAfterLog readEvents st chat inputs
        (storeAfterBatch readEvents st chat (inputs (batch_index entry))
           (batch_turns entry) (batch_index entry) data)
        rest
  end.

(** An entry of the log says what the cycle of its batch did: the
    batch is the slice of its index, a cycle that threw is reported
    with its error, and a cycle that returned is reported as failed
    only when its index could not be recorded. *)
Definition faithful (st : Settings) (chat : list Message)
    (inputs : nat -> CycleInput) (turns : list Z) (listed : bool)
    (entry : BatchLog) : Prop :=
  batch_turns entry =
    batchOf (orDefault (messagesPerExtraction st) 5) turns (batch_index entry)
  /\ (forall e, batch_result entry = Thrown e -> batch_error entry = Some e)
  /\ (forall r, batch_result entry = Returned r ->
        if listed then batch_error entry = None
        else batch_error entry
             = Some "Cannot read properties of undefined (reading 'includes')")
  /\ (forall e, enabled st = true -> chat <> [] -> batch_turns entry <> [] ->
        callLLMForExtraction st (inputs (batch_index entry)) = Thrown e ->
        batch_result entry = Thrown e).

(** The terms of a relevance score. *)
Definition natQ (n : nat) : Q := inject_Z (Z.of_nat n).

Definition recencyTerm (nowMs : Z) (m : MemoryEvent) : Q :=
  Qmax 0 (10 - ageHours nowMs m).

(** Entries of the active-character list that are listed in [names]. *)
Definition activeIn (names activeCharacters : list string) : nat :=
  length (List.filter (arrayIncludes names) activeCharacters).

(** Words of the recent context, each as often as it stands there, that
    occur in the summary. *)
Definition wordHits (m : MemoryEvent) (words : list string) : nat :=
  length (List.filter (includes (summaryLower m)) words).

Definition typeBonus (m : MemoryEvent) : Q :=
  ((if isType m "revelation" then 3 else 0)
   + (if isType m "relationship_change" then 2 else 0))%Q.

(** The score as a sum of terms, every occurrence of a word counted. *)
Definition scoreTerms (nowMs : Z) (recentContext : string)
    (activeCharacters : list string) (m : MemoryEvent) : Q :=
  (recencyTerm nowMs m
   + 5 * natQ (activeIn (characters_involved m) activeCharacters)
   + 3 * natQ (activeIn (witnesses m) activeCharacters)
   + natQ (wordHits m (contextWords recentContext))
   + typeBonus m)%Q.

(** The score in the words of the specification: a word of the recent
    context counts once, however often it is repeated. *)
Definition specifiedScore (nowMs : Z) (recentContext : string)
    (activeCharacters : list string) (m : MemoryEvent) : Q :=
  (recencyTerm nowMs m
   + 5 * natQ (activeIn (characters_involved m) activeCharacters)
   + 3 * natQ (activeIn (witnesses m) activeCharacters)
   + natQ (wordHits m (nodup string_dec (contextWords recentContext)))
   + typeBonus m)%Q.

(** A memory made eleven hours before time 39600000. *)
Definition doorEvent : MemoryEvent :=
  {| id := "ev-door"; event_type := Some "action";
     summary := Some "Alice opens the hidden door.";
     characters_involved := ["Alice"]; witnesses := ["Alice"; "Bob"];
     location := "cellar"; is_secret := false;
     emotional_impact := []; relationship_impact := [];
     message_ids := [3]; created_at := 0; sequence := None |}.

(** The text the formatter builds before it looks at the budget. *)
Definition fullText (mems : list MemoryEvent) (rels : list RelationshipSummary)
    (emotionalState characterName : string) : string :=
  join newline (contextLines mems rels emotionalState characterName).

(** Length of the lines joined with a separator of length one, plus
    one. *)
Definition linesWeight (lines : list string) : nat :=
  list_sum (map (fun line => S (String.length line)) lines).

(** A bound on the depth of the recursion of the formatter. *)
Definition depthBound (mems : list MemoryEvent) (rels : list RelationshipSummary)
    (emotionalState characterName : string) (tokenBudget : Q) : nat :=
  (String.length (fullText mems rels emotionalState characterName)
   * Pos.to_nat (Qden tokenBudget))%nat.

(** Two to the power [k], as a fraction. *)
Definition pow2 (k : nat) : Q := inject_Z (2 ^ Z.of_nat k).

(** A store where Alice trusts Bob fully. *)
Definition trustingStore : OpenVaultData :=
  {| memories := []; character_states := ∅;
     relationships :=
       {[ "Alice<->Bob" :=
            {| character_a := "Alice"; character_b := "Bob";
               trust_level := 10; tension_level := 0;
               relationship_type := "friend"; history := [] |} ]};
     last_processed_message_id := Some 4;
     last_extraction_batch := None; extracted_batches := Some [] |}.

(** A chat of 23 turns. *)
Definition chat23 : list Message := replicate 23 (plainMessage "They talk.").

(** The model answers every batch but the second, whose request fails. *)
Definition secondFails (i : nat) : CycleInput :=
  if Nat.eqb i 1 then refused "timeout" else answered "[{}]".


(** [entries] is [Object.entries] of the stored relationships, for some
    order in which their keys were inserted. *)
Definition entriesOf (data : OpenVaultData)
    (entries : list (string * Relationship)) : Prop :=
  Permutation entries (map_to_list (relationships data)).

(** The lookup [chars[n]] finds an inherited property and no state. *)
Definition shadowed (chars : gmap string CharacterState) (n : string) : bool :=
  match chars !! n with
  | Some _ => false
  | None => inheritedName n
  end.



(** Every character state lists each known event once. *)
Definition distinctKnowledge (chars : gmap string CharacterState) : Prop :=
  map_Forall (fun _ c => NoDup (known_events c)) chars.

(** [rels'] has every record of [rels], with the same names and type and
    with a history that continues the old one. *)
Definition continues (rels rels' : gmap string Relationship) : Prop :=
  forall key r, rels !! key = Some r ->
    exists r', rels' !! key = Some r'
      /\ character_a r' = character_a r /\ character_b r' = character_b r
      /\ relationship_type r' = relationship_type r
      /\ exists added, history r' = history r ++ added.

Fixpoint allWhiteSpace (s : string) : bool :=
  match s with
  | EmptyString => true
  | String c s' => isWhiteSpace c && allWhiteSpace s'
  end.

Definition isText (v : Value) : bool :=
  match v with
  | VString _ => true
  | _ => false
  end.

(** [chars'] has every character of [chars], under the same name and with
    the same intensity. *)
Definition keepsCharacters (chars chars' : gmap string CharacterState) : Prop :=
  forall charName c, chars !! charName = Some c ->
    exists c', chars' !! charName = Some c'
      /\ name c' = name c /\ emotion_intensity c' = emotion_intensity c.

(** The character is a witness or the target of an emotional impact of
    one of the events. *)
Definition mentioned (charName : string) (events : list MemoryEvent) : Prop :=
  exists event, In event events
    /\ (In charName (witnesses event)
        \/ In charName (map fst (emotional_impact event))).

(** No relation key of the events has the arrow. *)
Definition noArrowKeys (events : list MemoryEvent) : Prop :=
  forall event entry, In event events -> In entry (relationship_impact event) ->
    includes (fst entry) "->" = false.

(** Every relationship impact of the events is a text. *)
Definition textImpacts (events : list MemoryEvent) : Prop :=
  forall event entry, In event events -> In entry (relationship_impact event) ->
    isText (snd entry) = true.

(** Turns in the order of their ids. *)
Definition byTurnId (a b : Turn) : Prop := turn_id a < turn_id b.

(** Insertion into a sorted list: [x] passes every [y] it goes after. *)
Fixpoint insertBy {A} (goesAfter : A -> A -> bool) (x : A) (l : list A) : list A :=
  match l with
  | [] => [x]
  | y :: l' => if goesAfter x y then y :: insertBy goesAfter x l' else x :: y :: l'
  end.

(** Orders of memories. *)
Definition newestFirst (a b : MemoryEvent) : Prop := created_at b <= created_at a.

(** Orders by the key [sequence ?? created_at]. *)
Definition laterFirst (a b : MemoryEvent) : Prop := (sequenceKey b <= sequenceKey a)%Q.
Definition earlierFirst (a b : MemoryEvent) : Prop := (sequenceKey a <= sequenceKey b)%Q.

(** The memories whose key [sequence ?? created_at] is [v]. *)
Definition sequenced (v : Q) (m : MemoryEvent) : bool := Qeq_bool (sequenceKey m) v.


(** Pairs of a memory and its key, and what sorting them says about the
    memories. *)
Definition paired (f : MemoryEvent -> Q) (l : list (MemoryEvent * Q)) : Prop :=
  forall e, In e l -> snd e = f (fst e).

(** How many elements [slice(0, limit)] keeps of a list of [n]. *)
Definition keptBy (limit : Z) (n : nat) : nat :=
  Z.to_nat (relIndex (Z.of_nat n) limit).

(** The estimated cost of a list of memories in the formatter. *)
Definition tokensOf (mems : list MemoryEvent) : Q :=
  fold_right (fun m total => (memoryTokens m + total)%Q) 0%Q mems.

(** The estimate the formatter makes of a text. *)
Definition estimatedTokens (text : string) : Q := (lengthQ text / 4)%Q.

(** The character occurs in the text. *)
Fixpoint occurs (c : ascii) (s : string) : bool :=
  match s with
  | EmptyString => false
  | String d s' => Ascii.eqb d c || occurs c s'
  end.

(** The characters [escapeHtml] replaces. *)
Definition special (c : ascii) : bool :=
  Ascii.eqb c "&" || Ascii.eqb c "<" || Ascii.eqb c ">"
  || Ascii.eqb c doubleQuote || Ascii.eqb c "'".

Fixpoint noSpecial (s : string) : bool :=
  match s with
  | EmptyString => true
  | String c s' => negb (special c) && noSpecial s'
  end.


(** Chats of two and of nine turns. *)
Definition chat2 : list Message :=
  [plainMessage "Alice opens the door."; plainMessage "Bob follows her."].

Definition chat9 : list Message := replicate 9 (plainMessage "They talk.").

(** A store with one memory, and a chat of Alice with the user Bob. *)
Definition doorStore : OpenVaultData :=
  {| memories := [doorEvent]; character_states := ∅; relationships := ∅;
     last_processed_message_id := Some 3;
     last_extraction_batch := None; extracted_batches := Some [] |}.

Definition aliceChat : ChatContext :=
  {| name1 := Some "Bob"; name2 := "Alice"; groupId := None; groups := [];
     characters := []; chatMessages := [plainMessage "Alice opens the door."] |}.

Definition retrievalDefaults : RetrievalSettings :=
  {| retrievalEnabled := true; maxMemoriesPerRetrieval := 10;
     tokenBudget := 1000%Q |}.

(** The one relationship of [trustingStore]. *)
Definition aliceTrustsBob : Relationship :=
  {| character_a := "Alice"; character_b := "Bob";
     trust_level := 10; tension_level := 0;
     relationship_type := "friend"; history := [] |}.

(** An event that a character named [constructor] has witnessed, after
    Alice and before Bob. *)
Definition oddWitnessEvent : MemoryEvent :=
  {| id := "ev-odd"; event_type := Some "action";
     summary := Some "They meet the constructor.";
     characters_involved := ["Alice"]; witnesses := ["Alice"; "constructor"; "Bob"];
     location := "yard"; is_secret := false;
     emotional_impact := [("constructor", "proud")]; relationship_impact := [];
     message_ids := [4]; created_at := 0; sequence := None |}.

(** Two memories made at the same time, the second with the earlier
    sequence number. *)
Definition sequencedStore : OpenVaultData :=
  {| memories :=
       [ {| id := "ev-a"; event_type := None; summary := Some "Second.";
            characters_involved := []; witnesses := []; location := "unknown";
            is_secret := false; emotional_impact := []; relationship_impact := [];
            message_ids := [0]; created_at := 7; sequence := Some 2%Q |};
         {| id := "ev-b"; event_type := None; summary := Some "First.";
            characters_involved := []; witnesses := []; location := "unknown";
            is_secret := false; emotional_impact := []; relationship_impact := [];
            message_ids := [0]; created_at := 7; sequence := Some 1%Q |} ];
     character_states := ∅; relationships := ∅;
     last_processed_message_id := Some 0;
     last_extraction_batch := None; extracted_batches := None |}.

(** A chat whose group id is the empty text. *)
Definition noGroupChat : ChatContext :=
  {| name1 := Some "Bob"; name2 := "Alice"; groupId := Some "";
     groups := [ {| group_id := ""; members := Some ["dana.png"] |} ];
     characters := [ {| char_name := Some "Dana"; avatar := "dana.png" |} ];
     chatMessages := [plainMessage "Alice opens the door."] |}.
Example matchRelationKey_spaced :
  matchRelationKey "Alice -> Bob" = Some ("Alice", "Bob").
Proof. reflexivity. Qed.

Example matchRelationKey_tight :
  matchRelationKey "Alice->Bob" = Some ("Alice", "Bob").
Proof. reflexivity. Qed.

Example matchRelationKey_no_arrow : matchRelationKey "Alice Bob" = None.
Proof. reflexivity. Qed.

Example matchRelationKey_two_arrows :
  matchRelationKey "A->B->C" = Some ("A", "B->C").
Proof. reflexivity. Qed.

Example splitWs_example :
  splitWs " the  quick fox " = [""; "the"; "quick"; "fox"; ""].
Proof. reflexivity. Qed.

(** * Properties *)

(** ** The state propagator keeps trust and tension within bounds *)


Lemma forEach_preserves {S A} (P : S -> Prop) (body : A -> Eff S unit) (l : list A) :
  (forall x s, P s -> P (fst (body x s))) ->
  forall s, P s -> P (fst (forEach l body s)).
Proof.
  intros Hbody. induction l as [|x l IH]; intros s Hs; simpl; [exact Hs|].
  unfold bind. specialize (Hbody x s Hs).
  destruct (body x s) as [s' [[]|e]]; simpl in *; auto.
Qed.

Lemma newRelationship_inRange a b : levelsInRange (newRelationship a b).
Proof. unfold levelsInRange; simpl; lia. Qed.

Lemma adjustTrust_inRange w r : levelsInRange r -> levelsInRange (adjustTrust w r).
Proof.
  unfold levelsInRange, adjustTrust. intros [Ht Hn].
  repeat (case_match; simpl); lia.
Qed.

Lemma adjustTension_inRange w r : levelsInRange r -> levelsInRange (adjustTension w r).
Proof.
  unfold levelsInRange, adjustTension. intros [Ht Hn].
  repeat (case_match; simpl); lia.
Qed.

Lemma pushHistory_inRange h r : levelsInRange r -> levelsInRange (pushHistory h r).
Proof. unfold levelsInRange; simpl; auto. Qed.

Lemma ensureRelationship_inRange key a b rels :
  allInRange rels -> allInRange (ensureRelationship key a b rels).
Proof.
  unfold ensureRelationship. intros H. destruct (rels !! key) eqn:E; [exact H|].
  apply map_Forall_insert_2; [apply newRelationship_inRange | exact H].
Qed.

Lemma alter_inRange (f : Relationship -> Relationship) key rels :
  (forall r, levelsInRange r -> levelsInRange (f r)) ->
  allInRange rels -> allInRange (alter f key rels).
Proof.
  intros Hf H k r. rewrite lookup_alter. case_decide as Hk.
  - subst k. destruct (rels !! key) as [r0|] eqn:E; simpl; [|discriminate].
    intros [= <-]. apply Hf. exact (H key r0 E).
  - apply H.
Qed.

Lemma applyImpact_inRange now eid entry rels :
  allInRange rels -> allInRange (fst (applyImpact now eid entry rels)).
Proof.
  intros H. destruct entry as [relationKey v]. unfold applyImpact.
  destruct (matchRelationKey relationKey) as [[charA charB]|]; [|exact H].
  unfold bind, modify, liftOutcome. simpl.
  pose proof (ensureRelationship_inRange (pairKey charA charB) charA charB rels H) as H1.
  destruct (valueToLowerCase v) as [w|e]; simpl; [|exact H1].
  apply alter_inRange; [apply pushHistory_inRange|].
  apply alter_inRange; [apply adjustTension_inRange|].
  apply alter_inRange; [apply adjustTrust_inRange|]. exact H1.
Qed.

Lemma updateRelationships_inRange now events rels :
  allInRange rels -> allInRange (fst (updateRelationships now events rels)).
Proof.
  unfold updateRelationships. apply forEach_preserves.
  intros event s Hs. apply forEach_preserves; [|exact Hs].
  intros entry s'. apply applyImpact_inRange.
Qed.

Lemma onRelationships_fst {A} (m : Eff (gmap string Relationship) A) data :
  relationships (fst (onRelationships m data)) = fst (m (relationships data)).
Proof. unfold onRelationships. destruct (m (relationships data)); reflexivity. Qed.


(** C4. Trust and tension of every relationship stay within [0,10] after
    any number of propagations of any events, whatever the impact texts
    (or values) are, provided they were within [0,10] before; records made
    on the way start at 5 and 0. *)
Theorem levels_stay_in_range (rounds : list (Z * list MemoryEvent)) (data : OpenVaultData) :
  allInRange (relationships data) ->
  allInRange (relationships (propagateAll rounds data)).
Proof.
  revert data. induction rounds as [|[now events] rounds IH]; intros data H; simpl.
  - exact H.
  - apply IH. unfold updateRelationshipsFromEvents.
    rewrite onRelationships_fst. simpl. apply updateRelationships_inRange, H.
Qed.

(** ** The relationship store is keyed by the direction of the impact key *)

Lemma append_cons c (s t : string) : String c s +:+ t = String c (s +:+ t).
Proof. reflexivity. Qed.

Lemma append_empty_l (t : string) : "" +:+ t = t.
Proof. reflexivity. Qed.

Lemma append_empty_r (s : string) : s +:+ "" = s.
Proof.
  induction s as [|c s IH]; [reflexivity|]. rewrite append_cons, IH. reflexivity.
Qed.

Lemma append_assoc (a b c : string) : (a +:+ b) +:+ c = a +:+ (b +:+ c).
Proof.
  induction a as [|x a IH]; [reflexivity|]. rewrite !append_cons, IH. reflexivity.
Qed.

Lemma whiteSpace_of_lineTerminator c :
  isWhiteSpace c = false -> isLineTerminator c = false.
Proof.
  unfold isWhiteSpace, isLineTerminator.
  destruct (code c =? 10)%N, (code c =? 13)%N; simpl;
    rewrite ?orb_true_r; simpl; congruence.
Qed.

Lemma plainChar_spec c :
  plainChar c = true ->
  isWhiteSpace c = false /\ Ascii.eqb c "-" = false /\ Ascii.eqb c "<" = false.
Proof.
  unfold plainChar. rewrite !andb_true_iff, !negb_true_iff. tauto.
Qed.

Lemma allPlain_noLineTerminator s : allPlain s = true -> noLineTerminator s = true.
Proof.
  induction s as [|c s IH]; simpl; [reflexivity|].
  rewrite andb_true_iff. intros [Hc Hs].
  apply plainChar_spec in Hc as (Hw & _ & _).
  rewrite (whiteSpace_of_lineTerminator c Hw). simpl. auto.
Qed.

Lemma matchTail_plain b : plainName b = true -> matchTail b = Some b.
Proof.
  unfold plainName. rewrite andb_true_iff. intros [Hne Hp].
  destruct b as [|c b]; [discriminate|]. simpl in Hp.
  apply andb_true_iff in Hp as [Hc Hp].
  pose proof (plainChar_spec c Hc) as (Hw & _ & _).
  simpl. rewrite Hw. unfold matchDotPlusEnd.
  change (noLineTerminator (String c b)) with
    (negb (isLineTerminator c) && noLineTerminator b).
  rewrite (whiteSpace_of_lineTerminator c Hw), (allPlain_noLineTerminator b Hp).
  reflexivity.
Qed.

Lemma matchLazy_plain a' : forall acc b,
  allPlain a' = true -> plainName b = true ->
  matchLazy acc (a' +:+ "->" +:+ b) = Some (acc +:+ a', b).
Proof.
  induction a' as [|c a' IH]; intros acc b Ha Hb.
  - rewrite append_empty_l, append_cons, append_cons, append_empty_l.
    cbn [matchLazy matchArrow matchArrowHere]. simpl.
    rewrite (matchTail_plain b Hb), append_empty_r. reflexivity.
  - simpl in Ha. apply andb_true_iff in Ha as [Hc Ha].
    pose proof (plainChar_spec c Hc) as (Hw & Hd & _).
    rewrite append_cons.
    cbn [matchLazy matchArrow]. rewrite Hw.
    assert (Hhere : matchArrowHere (String c (a' +:+ "->" +:+ b)) = None).
    { unfold matchArrowHere. destruct (a' +:+ "->" +:+ b); [reflexivity|].
      rewrite Hd. reflexivity. }
    rewrite Hhere, (whiteSpace_of_lineTerminator c Hw), (IH _ b Ha Hb).
    rewrite append_assoc. reflexivity.
Qed.

Lemma matchRelationKey_plain a b :
  plainName a = true -> plainName b = true ->
  matchRelationKey (a +:+ "->" +:+ b) = Some (a, b).
Proof.
  intros Ha Hb. unfold plainName in Ha. apply andb_true_iff in Ha as [Hne Ha].
  destruct a as [|c a]; [discriminate|]. simpl in Ha.
  apply andb_true_iff in Ha as [Hc Ha].
  pose proof (plainChar_spec c Hc) as (Hw & _ & _).
  rewrite append_cons. unfold matchRelationKey.
  rewrite (whiteSpace_of_lineTerminator c Hw), (matchLazy_plain a _ b Ha Hb).
  reflexivity.
Qed.

Lemma pairKey_inj a : forall b x y,
  allPlain a = true -> allPlain b = true ->
  a +:+ String "<" x = b +:+ String "<" y -> a = b.
Proof.
  induction a as [|c a IH]; intros [|d b] x y Ha Hb H;
    rewrite ?append_cons, ?append_empty_l in H; simpl in Ha, Hb.
  - reflexivity.
  - injection H as Hc _. subst d. apply andb_true_iff in Hb as [Hd _].
    apply plainChar_spec in Hd as (_ & _ & Hlt). discriminate.
  - injection H as Hc _. subst c. apply andb_true_iff in Ha as [Hc _].
    apply plainChar_spec in Hc as (_ & _ & Hlt). discriminate.
  - injection H as Hc Ht. subst d. f_equal.
    apply andb_true_iff in Ha as [_ Ha]. apply andb_true_iff in Hb as [_ Hb].
    exact (IH b x y Ha Hb Ht).
Qed.

Lemma pairKey_direction a b :
  plainName a = true -> plainName b = true -> a <> b -> pairKey a b <> pairKey b a.
Proof.
  unfold plainName, pairKey. rewrite !andb_true_iff.
  intros [_ Ha] [_ Hb] Hne H. apply Hne.
  exact (pairKey_inj a b _ _ Ha Hb H).
Qed.

(** What one impact with a text does to the store. *)
Lemma applyImpact_text now eid relationKey text charA charB rels :
  matchRelationKey relationKey = Some (charA, charB) ->
  applyImpact now eid (relationKey, VString text) rels =
  (alter (pushHistory {| event_id := eid; impact := text; timestamp := now |})
         (pairKey charA charB)
     (alter (adjustTension (toLowerCase text)) (pairKey charA charB)
        (alter (adjustTrust (toLowerCase text)) (pairKey charA charB)
           (ensureRelationship (pairKey charA charB) charA charB rels))),
   Returned tt).
Proof. intros H. unfold applyImpact. rewrite H. reflexivity. Qed.

Lemma adjustTrust_names w r :
  character_a (adjustTrust w r) = character_a r
  /\ character_b (adjustTrust w r) = character_b r
  /\ history (adjustTrust w r) = history r.
Proof. unfold adjustTrust. repeat case_match; auto. Qed.

Lemma adjustTension_names w r :
  character_a (adjustTension w r) = character_a r
  /\ character_b (adjustTension w r) = character_b r
  /\ history (adjustTension w r) = history r.
Proof. unfold adjustTension. repeat case_match; auto. Qed.

(** The record under the key of the impact: made when absent, its names
    kept, one entry added to its history. *)
Lemma applyImpact_text_at now eid relationKey text charA charB rels :
  matchRelationKey relationKey = Some (charA, charB) ->
  exists r,
    fst (applyImpact now eid (relationKey, VString text) rels)
      !! pairKey charA charB = Some r
    /\ let r0 := default (newRelationship charA charB) (rels !! pairKey charA charB) in
       character_a r = character_a r0 /\ character_b r = character_b r0
       /\ history r = history r0 ++ [{| event_id := eid; impact := text; timestamp := now |}].
Proof.
  intros H. rewrite (applyImpact_text _ _ _ _ _ _ _ H). simpl.
  set (key := pairKey charA charB).
  assert (He : ensureRelationship key charA charB rels !! key
               = Some (default (newRelationship charA charB) (rels !! key))).
  { unfold ensureRelationship. destruct (rels !! key) eqn:E; simpl.
    - exact E.
    - apply lookup_insert_eq. }
  rewrite !lookup_alter_eq, He. simpl. eexists; split; [reflexivity|].
  simpl.
  destruct (adjustTension_names (toLowerCase text)
              (adjustTrust (toLowerCase text)
                 (default (newRelationship charA charB) (rels !! key))))
    as (-> & -> & ->).
  destruct (adjustTrust_names (toLowerCase text)
              (default (newRelationship charA charB) (rels !! key)))
    as (-> & -> & ->).
  auto.
Qed.

(** Every other record is left alone, whatever the impact is. *)
Lemma applyImpact_elsewhere now eid relationKey v charA charB rels k :
  matchRelationKey relationKey = Some (charA, charB) ->
  k <> pairKey charA charB ->
  fst (applyImpact now eid (relationKey, v) rels) !! k = rels !! k.
Proof.
  intros H Hk. unfold applyImpact. rewrite H.
  unfold bind, modify, liftOutcome. simpl.
  assert (He : ensureRelationship (pairKey charA charB) charA charB rels !! k = rels !! k).
  { unfold ensureRelationship. destruct (rels !! pairKey charA charB); [reflexivity|].
    apply lookup_insert_ne. congruence. }
  destruct (valueToLowerCase v); simpl; [|exact He].
  rewrite !lookup_alter_ne by congruence. exact He.
Qed.

(** C7, as the code has it.  The store is keyed by the ordered pair: for
    two different plain names A and B with no record yet, the key "A->B"
    makes the record "A<->B" (A first), and a later key "B->A" makes a
    second record "B<->A" (B first); each record holds the history of its
    own direction only. *)
Theorem relationships_keyed_by_direction
    (a b : string) (now1 now2 : Z) (e1 e2 text1 text2 : string)
    (rels : gmap string Relationship) :
  plainName a = true -> plainName b = true -> a <> b ->
  rels !! pairKey a b = None -> rels !! pairKey b a = None ->
  let rels1 := fst (applyImpact now1 e1 (a +:+ "->" +:+ b, VString text1) rels) in
  let rels2 := fst (applyImpact now2 e2 (b +:+ "->" +:+ a, VString text2) rels1) in
  pairKey a b <> pairKey b a
  /\ (exists r, rels2 !! pairKey a b = Some r
        /\ character_a r = a /\ character_b r = b
        /\ history r = [{| event_id := e1; impact := text1; timestamp := now1 |}])
  /\ (exists r, rels2 !! pairKey b a = Some r
        /\ character_a r = b /\ character_b r = a
        /\ history r = [{| event_id := e2; impact := text2; timestamp := now2 |}]).
Proof.
  intros Ha Hb Hne Hab Hba rels1 rels2.
  pose proof (pairKey_direction a b Ha Hb Hne) as Hkeys.
  pose proof (matchRelationKey_plain a b Ha Hb) as Mab.
  pose proof (matchRelationKey_plain b a Hb Ha) as Mba.
  split; [exact Hkeys|]. split.
  - destruct (applyImpact_text_at now1 e1 _ text1 a b rels Mab) as (r & Hr & Hn).
    exists r. rewrite Hab in Hn. simpl in Hn. destruct Hn as (Hra & Hrb & Hh).
    split; [|auto].
    unfold rels2. rewrite (applyImpact_elsewhere _ _ _ _ b a rels1 _ Mba Hkeys).
    exact Hr.
  - destruct (applyImpact_text_at now2 e2 _ text2 b a rels1 Mba) as (r & Hr & Hn).
    exists r. split; [exact Hr|].
    assert (H1 : rels1 !! pairKey b a = None).
    { unfold rels1.
      rewrite (applyImpact_elsewhere _ _ _ _ a b rels _ Mab) by congruence.
      exact Hba. }
    rewrite H1 in Hn. simpl in Hn. tauto.
Qed.

(** ** One extraction cycle *)

Section Cycle.

Variable readEvents : string -> option (list RawEvent).

(** What the branch that stores the events leaves behind, whether it
    returns or throws. *)
Lemma storeEvents_run turns inp events data data' o :
  storeEvents turns inp events data = (data', o) ->
  memories data' = memories data ++ events
  /\ extracted_batches data' = extracted_batches data
  /\ (o = Returned tt ->
      last_processed_message_id data' =
        Some (Z.max (orDefault (last_processed_message_id data) (-1)) (maxId turns)))
  /\ (forall e, o = Thrown e -> saveError inp = None ->
      last_processed_message_id data' = last_processed_message_id data)
  /\ (forall e, o = Thrown e ->
      last_processed_message_id data' = last_processed_message_id data
      \/ (saveError inp = Some e
          /\ last_processed_message_id data' =
               Some (Z.max (orDefault (last_processed_message_id data) (-1))
                           (maxId turns)))).
Proof.
  unfold storeEvents, bind, modify, updateCharacterStatesFromEvents, onCharacters,
    updateRelationshipsFromEvents, onRelationships, saveOpenVaultData.
  simpl.
  destruct (updateCharacterStates (now inp) events (character_states data))
    as [chars [[]|e]]; simpl.
  2: { intros [= <- <-]; simpl; repeat split; auto; discriminate. }
  destruct (updateRelationships (now inp) events (relationships data))
    as [rels [[]|e]]; simpl.
  - destruct (saveError inp) as [e|]; unfold throw, ret;
      intros [= <- <-]; simpl; repeat split; auto; try discriminate.
    intros e' [= <-]. auto.
  - intros [= <- <-]; simpl; repeat split; auto; discriminate.
Qed.

(** The guards of [extractMemories] passed: the cycle is run. *)
Lemma extractMemories_cycle st chat inp ids data :
  enabled st = true -> chat <> [] -> selectTurns st chat data ids <> [] ->
  extractMemories readEvents st chat inp ids data =
  extractionCycle readEvents st inp (selectTurns st chat data ids) data.
Proof.
  intros He Hc Ht. unfold extractMemories. rewrite He. simpl.
  destruct chat; [congruence|].
  destruct (selectTurns st (m :: chat) data ids) eqn:E; [congruence|].
  unfold tryCatch, throw.
  destruct (extractionCycle readEvents st inp (t :: l) data) as [d [r|e]]; reflexivity.
Qed.

(** A cycle that returns a result or throws did pass the guards. *)
Lemma extractMemories_ran st chat inp ids data data' o :
  extractMemories readEvents st chat inp ids data = (data', o) ->
  o <> Returned None ->
  extractionCycle readEvents st inp (selectTurns st chat data ids) data = (data', o)
  /\ selectTurns st chat data ids <> [].
Proof.
  unfold extractMemories. destruct (enabled st); simpl.
  2: { intros [= <- <-]; congruence. }
  destruct chat; [intros [= <- <-]; congruence|].
  destruct (selectTurns st (m :: chat) data ids) eqn:E;
    [intros [= <- <-]; congruence|].
  unfold tryCatch, throw.
  destruct (extractionCycle readEvents st inp (t :: l) data) as [d [r|e]];
    intros [= <- <-] _; split; congruence.
Qed.

Lemma extractionCycle_thrown st inp turns data e :
  callLLMForExtraction st inp = Thrown e ->
  extractionCycle readEvents st inp turns data = (data, Thrown e).
Proof. intros H. unfold extractionCycle, bind, liftOutcome. rewrite H. reflexivity. Qed.

Lemma extractionCycle_answered st inp turns data content :
  callLLMForExtraction st inp = Returned content ->
  extractionCycle readEvents st inp turns data =
  let events := parseExtractionResult readEvents content turns inp in
  match events with
  | [] => (data, Returned (Some {| events_created := 0;
                                   messages_processed := length turns |}))
  | _ => match storeEvents turns inp events data with
         | (d, Returned _) =>
             (d, Returned (Some {| events_created := length events;
                                   messages_processed := length turns |}))
         | (d, Thrown e) => (d, Thrown e)
         end
  end.
Proof.
  intros H. unfold extractionCycle, bind, liftOutcome. rewrite H. simpl.
  destruct (parseExtractionResult readEvents content turns inp) eqn:E; [reflexivity|].
  destruct (storeEvents turns inp (m :: l) data) as [d [[]|e]]; reflexivity.
Qed.

Lemma extractionCycle_some st inp turns data d :
  extractionCycle readEvents st inp turns data = (d, Returned None) -> False.
Proof.
  destruct (callLLMForExtraction st inp) as [content|e] eqn:Ecall.
  - rewrite (extractionCycle_answered _ _ _ _ _ Ecall). simpl.
    destruct (parseExtractionResult readEvents content turns inp); [discriminate|].
    destruct (storeEvents turns inp (m :: l) data) as [d' [[]|e]]; discriminate.
  - rewrite (extractionCycle_thrown _ _ _ _ _ Ecall). discriminate.
Qed.

(** A cycle that returned: which call it made and what it did to the
    marker. *)
Lemma returned_cycle_marker
    (st : Settings) (chat : list Message) (inp : CycleInput)
    (ids : option (list Z)) (data data' : OpenVaultData) (r : ExtractionResult) :
  extractMemories readEvents st chat inp ids data = (data', Returned (Some r)) ->
  (exists content, callLLMForExtraction st inp = Returned content)
  /\ (events_created r = 0%nat -> data' = data)
  /\ (events_created r <> 0%nat ->
      last_processed_message_id data' =
        Some (Z.max (orDefault (last_processed_message_id data) (-1))
                    (maxId (selectTurns st chat data ids)))).
Proof.
  intros H. apply extractMemories_ran in H as [H _]; [|discriminate].
  destruct (callLLMForExtraction st inp) as [content|e] eqn:Ecall.
  2: { rewrite (extractionCycle_thrown _ _ _ _ _ Ecall) in H. discriminate. }
  split; [eauto|].
  rewrite (extractionCycle_answered _ _ _ _ _ Ecall) in H. simpl in H.
  destruct (parseExtractionResult readEvents content
              (selectTurns st chat data ids) inp) as [|ev evs] eqn:Eev.
  - injection H as <- <-. simpl. split; [reflexivity|congruence].
  - destruct (storeEvents (selectTurns st chat data ids) inp (ev :: evs) data)
      as [d [[]|e]] eqn:Est; [|discriminate].
    injection H as <- <-. simpl. split; [discriminate|]. intros _.
    apply storeEvents_run in Est as (_ & _ & Hm & _). auto.
Qed.

(** The cycle with no event, stated forwards. *)
Lemma no_event_no_change st chat inp ids data content :
  enabled st = true -> chat <> [] -> selectTurns st chat data ids <> [] ->
  callLLMForExtraction st inp = Returned content ->
  parseExtractionResult readEvents content (selectTurns st chat data ids) inp = [] ->
  extractMemories readEvents st chat inp ids data =
  (data, Returned (Some {| events_created := 0;
                           messages_processed :=
                             length (selectTurns st chat data ids) |})).
Proof.
  intros He Hc Ht Hcall Hev.
  rewrite (extractMemories_cycle _ _ _ _ _ He Hc Ht).
  rewrite (extractionCycle_answered _ _ _ _ _ Hcall). simpl. rewrite Hev. reflexivity.
Qed.

(** A cycle that threw: where the error came from and what it left. *)
Lemma thrown_cycle_state
    (st : Settings) (chat : list Message) (inp : CycleInput)
    (ids : option (list Z)) (data data' : OpenVaultData) (e : string) :
  extractMemories readEvents st chat inp ids data = (data', Thrown e) ->
  (callLLMForExtraction st inp = Thrown e /\ data' = data)
  \/ (exists content,
        callLLMForExtraction st inp = Returned content
        /\ let events := parseExtractionResult readEvents content
                           (selectTurns st chat data ids) inp in
           events <> []
           /\ memories data' = memories data ++ events
           /\ (saveError inp = None ->
               last_processed_message_id data' = last_processed_message_id data)).
Proof.
  intros H. apply extractMemories_ran in H as [H _]; [|discriminate].
  destruct (callLLMForExtraction st inp) as [content|e'] eqn:Ecall.
  - right. exists content. split; [reflexivity|].
    rewrite (extractionCycle_answered _ _ _ _ _ Ecall) in H. simpl in H. simpl.
    destruct (parseExtractionResult readEvents content
                (selectTurns st chat data ids) inp) as [|ev evs] eqn:Eev;
      [discriminate|].
    destruct (storeEvents (selectTurns st chat data ids) inp (ev :: evs) data)
      as [d [[]|e']] eqn:Est; [discriminate|].
    injection H as <- <-.
    apply storeEvents_run in Est as (Hm & _ & _ & Hk & _).
    split; [discriminate|]. split; [exact Hm|]. intros Hs. exact (Hk _ eq_refl Hs).
  - left. rewrite (extractionCycle_thrown _ _ _ _ _ Ecall) in H.
    injection H as <- <-. auto.
Qed.

(** The failed call, stated forwards. *)
Lemma failed_call_no_change st chat inp ids data e :
  enabled st = true -> chat <> [] -> selectTurns st chat data ids <> [] ->
  callLLMForExtraction st inp = Thrown e ->
  extractMemories readEvents st chat inp ids data = (data, Thrown e).
Proof.
  intros He Hc Ht Hcall.
  rewrite (extractMemories_cycle _ _ _ _ _ He Hc Ht).
  apply extractionCycle_thrown, Hcall.
Qed.

(** No cycle touches the list of completed batches. *)
Lemma extractMemories_batches st chat inp ids data data' o :
  extractMemories readEvents st chat inp ids data = (data', o) ->
  extracted_batches data' = extracted_batches data.
Proof.
  intros H. destruct o as [[r|]|e].
  - apply extractMemories_ran in H as [H _]; [|discriminate].
    destruct (callLLMForExtraction st inp) as [content|e'] eqn:Ecall.
    + rewrite (extractionCycle_answered _ _ _ _ _ Ecall) in H. simpl in H.
      destruct (parseExtractionResult readEvents content
                  (selectTurns st chat data ids) inp) as [|ev evs];
        [injection H as <- _; reflexivity|].
      destruct (storeEvents (selectTurns st chat data ids) inp (ev :: evs) data)
        as [d [[]|e']] eqn:Est; [|discriminate].
      injection H as <- _. apply storeEvents_run in Est. tauto.
    + rewrite (extractionCycle_thrown _ _ _ _ _ Ecall) in H. discriminate.
  - revert H. unfold extractMemories. destruct (enabled st); simpl;
      [|intros [= <-]; reflexivity].
    destruct chat; [intros [= <-]; reflexivity|].
    destruct (selectTurns st (m :: chat) data ids);
      [intros [= <-]; reflexivity|].
    unfold tryCatch, throw.
    destruct (extractionCycle readEvents st inp (t :: l) data)
      as [d [[r|]|e]] eqn:E; try discriminate.
    exfalso. exact (extractionCycle_some _ _ _ _ _ E).
  - apply extractMemories_ran in H as [H _]; [|discriminate].
    destruct (callLLMForExtraction st inp) as [content|e'] eqn:Ecall.
    + rewrite (extractionCycle_answered _ _ _ _ _ Ecall) in H. simpl in H.
      destruct (parseExtractionResult readEvents content
                  (selectTurns st chat data ids) inp) as [|ev evs];
        [discriminate|].
      destruct (storeEvents (selectTurns st chat data ids) inp (ev :: evs) data)
        as [d [[]|e']] eqn:Est; [discriminate|].
      injection H as <- _. apply storeEvents_run in Est. tauto.
    + rewrite (extractionCycle_thrown _ _ _ _ _ Ecall) in H.
      injection H as <- _. reflexivity.
Qed.

(** The early returns leave the store as it is. *)
Lemma extractMemories_none st chat inp ids data data' :
  extractMemories readEvents st chat inp ids data = (data', Returned None) ->
  data' = data.
Proof.
  unfold extractMemories. destruct (enabled st); simpl;
    [|intros [= <-]; reflexivity].
  destruct chat; [intros [= <-]; reflexivity|].
  destruct (selectTurns st (m :: chat) data ids);
    [intros [= <-]; reflexivity|].
  unfold tryCatch, throw.
  destruct (extractionCycle readEvents st inp (t :: l) data)
    as [d [[r|]|e]] eqn:E; try discriminate.
  exfalso. exact (extractionCycle_some _ _ _ _ _ E).
Qed.

(** A cycle after which the marker differs: it stored events, and it
    either returned or threw the error of the final save. *)
Lemma moved_marker st chat inp ids data data' o :
  extractMemories readEvents st chat inp ids data = (data', o) ->
  last_processed_message_id data' <> last_processed_message_id data ->
  exists content,
    callLLMForExtraction st inp = Returned content
    /\ let turns := selectTurns st chat data ids in
       let events := parseExtractionResult readEvents content turns inp in
       events <> []
       /\ memories data' = memories data ++ events
       /\ last_processed_message_id data' =
            Some (Z.max (orDefault (last_processed_message_id data) (-1))
                        (maxId turns))
       /\ (o = Returned (Some {| events_created := length events;
                                 messages_processed := length turns |})
           \/ exists e, o = Thrown e /\ saveError inp = Some e).
Proof.
  intros H Hmoved.
  assert (Ho : o <> Returned None).
  { intros ->. apply extractMemories_none in H. subst data'. congruence. }
  apply extractMemories_ran in H as [H _]; [|exact Ho].
  destruct (callLLMForExtraction st inp) as [content|e] eqn:Ecall.
  2: { rewrite (extractionCycle_thrown _ _ _ _ _ Ecall) in H.
       injection H as <- _. congruence. }
  exists content. split; [reflexivity|]. cbv zeta.
  rewrite (extractionCycle_answered _ _ _ _ _ Ecall) in H. simpl in H.
  destruct (parseExtractionResult readEvents content
              (selectTurns st chat data ids) inp) as [|ev evs] eqn:Eev.
  { injection H as <- _. congruence. }
  split; [discriminate|].
  destruct (storeEvents (selectTurns st chat data ids) inp (ev :: evs) data)
    as [d [[]|e]] eqn:Est; injection H as <- <-;
    apply storeEvents_run in Est as (Hm & _ & Hret & _ & Hthrown).
  - split; [exact Hm|]. split; [exact (Hret eq_refl)|]. left. reflexivity.
  - split; [exact Hm|]. destruct (Hthrown e eq_refl) as [Hsame|[Hsave Hcov]];
      [congruence|]. split; [exact Hcov|]. right. eauto.
Qed.

(** C2, as the code has it.  When the call succeeds and the parser
    yields no event, the cycle completes with [events_created = 0] and
    leaves the whole store, the last-processed marker included, as it
    was.  The marker changes only in a cycle whose call succeeded and
    whose answer held an event, after the events were appended: it then
    covers the turns of the cycle, and the cycle has either returned or
    thrown the error of the final save.  Every cycle that returns with
    events leaves the marker so, and a failed call leaves the store as it
    was. *)
Theorem marker_moves_only_with_events
    (st : Settings) (chat : list Message) (inp : CycleInput)
    (ids : option (list Z)) (data : OpenVaultData) :
  enabled st = true -> chat <> [] -> selectTurns st chat data ids <> [] ->
  let turns := selectTurns st chat data ids in
  let covering :=
    Some (Z.max (orDefault (last_processed_message_id data) (-1)) (maxId turns)) in
  (forall content,
     callLLMForExtraction st inp = Returned content ->
     parseExtractionResult readEvents content turns inp = [] ->
     extractMemories readEvents st chat inp ids data
     = (data, Returned (Some {| events_created := 0;
                                messages_processed := length turns |})))
  /\ (forall data' o,
        extractMemories readEvents st chat inp ids data = (data', o) ->
        last_processed_message_id data' <> last_processed_message_id data ->
        exists content,
          callLLMForExtraction st inp = Returned content
          /\ parseExtractionResult readEvents content turns inp <> []
          /\ memories data'
             = memories data ++ parseExtractionResult readEvents content turns inp
          /\ last_processed_message_id data' = covering
          /\ ((exists r, o = Returned (Some r) /\ events_created r <> 0%nat)
              \/ (exists e, o = Thrown e /\ saveError inp = Some e)))
  /\ (forall data' r,
        extractMemories readEvents st chat inp ids data = (data', Returned (Some r)) ->
        events_created r <> 0%nat ->
        last_processed_message_id data' = covering)
  /\ (forall e,
        callLLMForExtraction st inp = Thrown e ->
        extractMemories readEvents st chat inp ids data = (data, Thrown e)).
Proof.
  intros He Hc Ht turns covering. split_and!.
  - intros content Hcall Hev. exact (no_event_no_change _ _ _ _ _ _ He Hc Ht Hcall Hev).
  - intros data' o Hrun Hmoved.
    destruct (moved_marker _ _ _ _ _ _ _ Hrun Hmoved)
      as (content & Hcall & Hev & Hm & Hcov & Ho).
    exists content. split_and!; try assumption.
    destruct Ho as [->|Ho]; [left|right; exact Ho].
    eexists. split; [reflexivity|]. simpl.
    destruct (parseExtractionResult readEvents content
                (selectTurns st chat data ids) inp); [congruence|discriminate].
  - intros data' r Hrun Hr.
    destruct (returned_cycle_marker st chat inp ids data data' r Hrun) as (_ & _ & Hm).
    exact (Hm Hr).
  - intros e Hcall. exact (failed_call_no_change _ _ _ _ _ _ He Hc Ht Hcall).
Qed.

(** C3, as the code has it.  An error of the call to the model is
    thrown on to the caller and the store is untouched.  Every other
    error of the cycle is thrown on as well, but it comes after the
    events of the cycle were appended to the stored event list, and
    they stay there: nothing is rolled back.  In that case the
    last-processed marker is as before unless the error is that of the
    final save. *)
Theorem failed_cycle_state
    (st : Settings) (chat : list Message) (inp : CycleInput)
    (ids : option (list Z)) (data : OpenVaultData) :
  enabled st = true -> chat <> [] -> selectTurns st chat data ids <> [] ->
  (forall e, callLLMForExtraction st inp = Thrown e ->
             extractMemories readEvents st chat inp ids data = (data, Thrown e))
  /\ (forall data' e,
        extractMemories readEvents st chat inp ids data = (data', Thrown e) ->
        (callLLMForExtraction st inp = Thrown e /\ data' = data)
        \/ (exists content,
              callLLMForExtraction st inp = Returned content
              /\ let events := parseExtractionResult readEvents content
                                 (selectTurns st chat data ids) inp in
                 events <> []
                 /\ memories data' = memories data ++ events
                 /\ (saveError inp = None ->
                     last_processed_message_id data'
                     = last_processed_message_id data))).
Proof.
  intros He Hc Ht. split.
  - intros e Hcall. exact (failed_call_no_change _ _ _ _ _ _ He Hc Ht Hcall).
  - intros data' e Hrun. exact (thrown_cycle_state _ _ _ _ _ _ _ Hrun).
Qed.

End Cycle.

(** ** Which turns a cycle takes *)

Lemma slice_In {A} (l : list A) (a b : Z) (x : A) : In x (slice l a b) -> In x l.
Proof.
  unfold slice. intros H.
  set (k := Z.to_nat (relIndex (Z.of_nat (length l)) a)) in *.
  set (n := Z.to_nat (relIndex (Z.of_nat (length l)) b - relIndex (Z.of_nat (length l)) a)) in *.
  rewrite <- (firstn_skipn k l). apply in_or_app. right.
  rewrite <- (firstn_skipn n (skipn k l)). apply in_or_app. left. exact H.
Qed.

(** [slice(-n)] keeps at most [n] elements. *)
Lemma sliceFrom_last_length {A} (l : list A) (n : Z) :
  0 < n -> Z.of_nat (length (sliceFrom l (- n))) <= n.
Proof.
  intros Hn. unfold sliceFrom, slice, relIndex.
  destruct (- n <? 0) eqn:E1; [|apply Z.ltb_ge in E1; lia].
  destruct (Z.of_nat (length l) <? 0) eqn:E2; [apply Z.ltb_lt in E2; lia|].
  rewrite length_firstn, length_skipn. lia.
Qed.

(** With ids given, as in a backfill, the turns are these ids, each with
    the message the chat has there, system messages as well. *)
Lemma selectTurns_explicit st chat data ids :
  ids <> [] ->
  selectTurns st chat data (Some ids)
  = map (fun i => {| turn_id := i; turn_message := chatAt chat i |}) ids.
Proof. destruct ids; [congruence|reflexivity]. Qed.

(** Without ids, the turns are not system messages, their ids are above
    [last_processed_message_id || -1], they carry their message, and when
    the configured count is positive there are at most that many. *)
Lemma selectTurns_automatic st chat data t :
  In t (selectTurns st chat data None) ->
  turnIsSystem t = false
  /\ orDefault (last_processed_message_id data) (-1) < turn_id t
  /\ turn_message t = chatAt chat (turn_id t).
Proof.
  unfold selectTurns, sliceFrom. intros H. apply slice_In in H.
  apply filter_In in H as [Hin Hp]. apply andb_true_iff in Hp as [Hs Hm].
  apply negb_true_iff in Hs. apply Z.ltb_lt in Hm. split; [exact Hs|]. split; [exact Hm|].
  unfold indexed in Hin. apply list_elem_of_In, elem_of_lookup_imap in Hin
    as (i & m & -> & Hi). simpl. unfold chatAt.
  destruct (Z.of_nat i <? 0) eqn:E; [apply Z.ltb_lt in E; lia|].
  rewrite Nat2Z.id. symmetry. exact Hi.
Qed.

Lemma selectTurns_automatic_count st chat data n :
  messagesPerExtraction st = Some n -> 0 < n ->
  Z.of_nat (length (selectTurns st chat data None)) <= n.
Proof.
  intros Hn Hpos. unfold selectTurns. rewrite Hn.
  replace (orDefault (Some n) 5) with n by (destruct n; simpl; lia).
  apply sliceFrom_last_length, Hpos.
Qed.

(** C10, where the code parts from it.  A cycle over turn 0 alone that
    creates an event sets the marker to 0.  The next automatic selection
    reads the marker as [0 || -1], that is -1, and takes turn 0 again,
    although its id is not greater than the marker. *)
Theorem automatic_selection_retakes_turn_zero :
  let chat := [plainMessage "Alice opens the door."] in
  let run := extractMemories readPlainEvent defaultSettings chat (answered "[{}]")
               None emptyData in
  snd run = Returned (Some {| events_created := 1; messages_processed := 1 |})
  /\ last_processed_message_id (fst run) = Some 0
  /\ map turn_id
       (selectTurns defaultSettings (chat ++ [plainMessage "She steps in."])
                    (fst run) None)
     = [0; 1].
Proof. vm_compute. auto. Qed.

(** With ids given, a system message is part of the batch. *)
Example explicit_ids_take_system_messages :
  selectTurns defaultSettings [plainMessage "a"; systemMessage "hidden"; plainMessage "c"]
              emptyData (Some [0; 1; 2])
  = [ {| turn_id := 0; turn_message := Some (plainMessage "a") |};
      {| turn_id := 1; turn_message := Some (systemMessage "hidden") |};
      {| turn_id := 2; turn_message := Some (plainMessage "c") |} ].
Proof. reflexivity. Qed.

(** ** Point of view *)

Lemma existsb_eqb_In (x : string) (l : list string) :
  existsb (String.eqb x) l = true <-> In x l.
Proof.
  rewrite existsb_exists. split.
  - intros (y & Hy & He). apply String.eqb_eq in He. subst y. exact Hy.
  - intros H. exists x. split; [exact H|apply String.eqb_refl].
Qed.

(** For a secret event the filter looks at the witnesses and at the known
    events only. *)
Lemma povVisible_secret characterName known m :
  is_secret m = true ->
  povVisible characterName known m
  = someNamed (toLowerCase characterName) (witnesses m)
    || existsb (String.eqb (id m)) known.
Proof.
  intros Hs. unfold povVisible. rewrite Hs. simpl.
  destruct (someNamed (toLowerCase characterName) (witnesses m)); simpl; [reflexivity|].
  destruct (existsb (String.eqb (id m)) known); reflexivity.
Qed.

(** What the fallback does: with no memory left by the filter, every
    stored memory is used; otherwise the filtered ones are. *)
Lemma memoriesToUse_fallback data characterName :
  (accessibleMemories data characterName = [] ->
   memoriesToUse data characterName = memories data)
  /\ (accessibleMemories data characterName <> [] ->
      memoriesToUse data characterName = accessibleMemories data characterName).
Proof.
  unfold memoriesToUse.
  destruct (accessibleMemories data characterName) as [|a l] eqn:Ea; simpl.
  - split; [|congruence]. intros _. destruct (memories data) as [|m l] eqn:Em.
    + reflexivity.
    + reflexivity.
  - split; [discriminate|reflexivity].
Qed.

(** C1, as the code has it.  The filter lets a secret event through
    exactly when the character is among its witnesses (names compared in
    lower case) or its id is among the character's known events; being
    one of the characters involved does not count.  When the filter
    leaves a memory, the memories used for retrieval are the filtered
    ones; when it leaves none, every stored memory is used, secret ones
    included.  So a stored secret event is among the memories used
    exactly in the two cases of the filter or when the filter left no
    memory at all. *)
Theorem secret_event_visibility
    (data : OpenVaultData) (characterName : string) (m : MemoryEvent) :
  is_secret m = true ->
  (povVisible characterName (knownEventIds data characterName) m = true <->
   someNamed (toLowerCase characterName) (witnesses m) = true
   \/ In (id m) (knownEventIds data characterName))
  /\ (accessibleMemories data characterName = [] ->
      memoriesToUse data characterName = memories data)
  /\ (accessibleMemories data characterName <> [] ->
      memoriesToUse data characterName = accessibleMemories data characterName)
  /\ (In m (memories data) ->
      (In m (memoriesToUse data characterName) <->
       someNamed (toLowerCase characterName) (witnesses m) = true
       \/ In (id m) (knownEventIds data characterName)
       \/ accessibleMemories data characterName = [])).
Proof.
  intros Hs.
  assert (Hv : povVisible characterName (knownEventIds data characterName) m = true <->
               someNamed (toLowerCase characterName) (witnesses m) = true
               \/ In (id m) (knownEventIds data characterName)).
  { rewrite (povVisible_secret _ _ _ Hs), orb_true_iff, existsb_eqb_In. tauto. }
  destruct (memoriesToUse_fallback data characterName) as [Hall Hsome].
  split; [exact Hv|]. split; [exact Hall|]. split; [exact Hsome|].
  intros Hin.
  destruct (accessibleMemories data characterName) as [|a l] eqn:Ea.
  - rewrite (Hall eq_refl). split; [auto|]. intros _. exact Hin.
  - rewrite (Hsome ltac:(discriminate)), <- Ea. unfold accessibleMemories.
    rewrite filter_In, Hv. split.
    + intros [_ [H|H]]; auto.
    + intros [H|[H|H]]; [auto|auto|].
      change (accessibleMemories data characterName = []) in H. congruence.
Qed.

(** ** The backfill scheduler *)

Lemma slice_length {A} (l : list A) (a b : Z) :
  0 <= a -> a <= b -> b <= Z.of_nat (length l) ->
  length (slice l a b) = Z.to_nat (b - a).
Proof.
  intros Ha Hab Hb. unfold slice, relIndex.
  destruct (a <? 0) eqn:Ea; [apply Z.ltb_lt in Ea; lia|].
  destruct (b <? 0) eqn:Eb; [apply Z.ltb_lt in Eb; lia|].
  rewrite length_firstn, length_skipn. lia.
Qed.

Section Backfill.

Variable readEvents : string -> option (list RawEvent).

(** One batch.  The step never throws.  It logs what the cycle did,
    counts the events of a cycle that returned, and records the index
    of such a cycle when the store has the list for it; when it has
    not, the cycle that returned is reported as failed. *)
Lemma backfillStep_run st chat inp batch i run :
  exists run' entry,
    backfillStep readEvents st chat inp batch i run = (run', Returned tt)
    /\ batchLog run' = batchLog run ++ [entry]
    /\ batch_index entry = i /\ batch_turns entry = batch
    /\ batch_result entry
       = snd (extractMemories readEvents st chat inp (Some batch) (store run))
    /\ store run' = storeAfterBatch readEvents st chat inp batch i (store run)
    /\ totalEvents run' = (totalEvents run + countedBy entry)%nat
    /\ (forall e, batch_result entry = Thrown e -> batch_error entry = Some e)
    /\ (forall r, batch_result entry = Returned r ->
          if hasBatchList (store run) then batch_error entry = None
          else batch_error entry
               = Some "Cannot read properties of undefined (reading 'includes')")
    /\ (extracted_batches (store run) = None ->
        extracted_batches (store run') = None)
    /\ (forall done, extracted_batches (store run) = Some done ->
          exists done', extracted_batches (store run') = Some done'
            /\ forall j, In j done' <->
                          In j done \/ (j = i /\ extracted entry = true)).
Proof.
  unfold backfillStep, backfillAttempt, tryCatch, bind, onStore, modify, ret,
    storeAfterBatch, markExtracted, logBatch, addEvents, countedBy, extracted,
    hasBatchList.
  destruct (extractMemories readEvents st chat inp (Some batch) (store run))
    as [d [r|e]] eqn:E; pose proof (extractMemories_batches _ _ _ _ _ _ _ _ E) as Hb;
    simpl.
  - destruct (extracted_batches (store run)) as [done|] eqn:Ed;
      destruct (extracted_batches d) as [done1|] eqn:Ed1; try discriminate;
      [injection Hb as ->|]; simpl.
    + eexists _, {| batch_index := i; batch_turns := batch;
                    batch_result := Returned r; batch_error := None |}.
      split; [reflexivity|]. simpl.
      split_and!; intros; try reflexivity; try discriminate.
      simplify_eq. eexists. split; [reflexivity|]. intros j.
      destruct (existsb (Nat.eqb i) done0) eqn:Ex.
      * apply existsb_exists in Ex as (x & Hx & Hxi). apply Nat.eqb_eq in Hxi.
        subst x. split; [auto|]. intros [H|[-> _]]; auto.
      * rewrite in_app_iff. simpl. split.
        -- intros [H|[H|[]]]; auto.
        -- intros [H|[-> _]]; auto.
    + eexists _, {| batch_index := i; batch_turns := batch;
                    batch_result := Returned r;
                    batch_error :=
                      Some "Cannot read properties of undefined (reading 'includes')" |}.
      split; [reflexivity|]. simpl.
      split_and!; intros; try reflexivity; try discriminate. exact Ed1.
  - eexists _, {| batch_index := i; batch_turns := batch;
                  batch_result := Thrown e; batch_error := Some e |}.
    split; [reflexivity|]. simpl.
    split_and!; intros; try reflexivity; try discriminate; try lia.
    + simplify_eq. reflexivity.
    + rewrite Hb. assumption.
    + rewrite Hb. eexists. split; [eassumption|].
      intros j. split; [auto|]. intros [?|[_ ?]]; [auto|discriminate].
Qed.

Lemma extractedBatches_cons entry log j :
  In j (extractedBatches (entry :: log)) <->
  (j = batch_index entry /\ extracted entry = true)
  \/ In j (extractedBatches log).
Proof.
  unfold extractedBatches. simpl.
  destruct (extracted entry); simpl.
  - split; [intros [<-|H]; auto|intros [[-> _]|H]; auto].
  - split; [auto|]. intros [[_ H]|H]; [discriminate|auto].
Qed.

Lemma selectTurns_explicit_nonempty st chat data batch :
  batch <> [] -> selectTurns st chat data (Some batch) <> [].
Proof. destruct batch; [congruence|]. simpl. discriminate. Qed.

(** The loop never throws; it runs every index from [i] on, once each,
    adds up the events of the cycles that returned, and records their
    indices and no other when the store has the list for them. *)
Lemma backfillLoop_run st chat inputs turns todo :
  forall i run,
  exists run' new,
    backfillLoop readEvents st chat inputs turns todo i run = (run', Returned tt)
    /\ batchLog run' = batchLog run ++ new
    /\ map batch_index new = seq i todo
    /\ totalEvents run' = (totalEvents run + countedEvents new)%nat
    /\ replayed readEvents st chat inputs (store run) new
    /\ store run' = storeAfterLog readEvents st chat inputs (store run) new
    /\ Forall (faithful st chat inputs turns (hasBatchList (store run))) new
    /\ (extracted_batches (store run) = None ->
        extracted_batches (store run') = None)
    /\ (forall done, extracted_batches (store run) = Some done ->
          exists done', extracted_batches (store run') = Some done'
            /\ forall j, In j done' <-> In j done \/ In j (extractedBatches new)).
Proof.
  induction todo as [|todo IH]; intros i run.
  - exists run, []. rewrite app_nil_r. split; [reflexivity|]. split; [reflexivity|].
    split; [reflexivity|]. unfold countedEvents. simpl. split; [lia|].
    split; [exact I|]. split; [reflexivity|].
    split; [constructor|]. split; [auto|].
    intros done Hd. exists done. split; [exact Hd|]. intros j. simpl. tauto.
  - cbn [backfillLoop]. unfold bind.
    set (batch := batchOf (orDefault (messagesPerExtraction st) 5) turns i).
    destruct (backfillStep_run st chat (inputs i) batch i run)
      as (run1 & entry & -> & Hlog & Hi & Hb & Hres & Hstore & Htot & Hthrown & Hret
          & Hnone & Hsome).
    destruct (IH (S i) run1)
      as (run' & new & -> & Hlog' & Hidx & Htot' & Hreplay & Hstore' & Hfaith
          & Hnone' & Hsome').
    assert (Hlisted : hasBatchList (store run1) = hasBatchList (store run)).
    { unfold hasBatchList.
      destruct (extracted_batches (store run)) as [done|] eqn:Ed.
      - destruct (Hsome done eq_refl) as (done' & -> & _). reflexivity.
      - rewrite (Hnone eq_refl). reflexivity. }
    exists run', (entry :: new).
    split; [reflexivity|]. split_and!.
    + rewrite Hlog', Hlog, <- app_assoc. reflexivity.
    + simpl. rewrite Hi, Hidx. reflexivity.
    + rewrite Htot', Htot. unfold countedEvents. simpl. lia.
    + simpl. rewrite Hi, Hb. split; [exact Hres|]. rewrite <- Hstore. exact Hreplay.
    + simpl. rewrite Hi, Hb, <- Hstore. exact Hstore'.
    + constructor; [|rewrite <- Hlisted; exact Hfaith].
      split; [rewrite Hb, Hi; reflexivity|]. split; [exact Hthrown|].
      split; [exact Hret|].
      intros e He Hc Hne Hcall. rewrite Hres. rewrite Hi in Hcall. rewrite Hb in Hne.
      rewrite (failed_call_no_change readEvents st chat (inputs i) (Some batch)
                 (store run) e He Hc (selectTurns_explicit_nonempty _ _ _ _ Hne) Hcall).
      reflexivity.
    + intros Hn. apply Hnone', Hnone, Hn.
    + intros done Hd. destruct (Hsome done Hd) as (done1 & Hd1 & Hj1).
      destruct (Hsome' done1 Hd1) as (done' & Hd' & Hj').
      exists done'. split; [exact Hd'|]. intros j.
      rewrite Hj', Hj1, extractedBatches_cons, Hi. tauto.
Qed.

(** A backfill that has turns to process: the loop and the final
    save. *)
Lemma extractAllMessages_run st chat inputs finalSaveError data :
  chat <> [] -> backfillTurns st chat data <> [] ->
  exists run,
    backfillLoop readEvents st chat inputs (backfillTurns st chat data)
      (Z.to_nat (completeBatches st chat data)) 0
      {| store := data; totalEvents := 0; batchLog := [] |}
    = (run, Returned tt)
    /\ extractAllMessages readEvents st chat inputs finalSaveError data
       = (run, match finalSaveError with
               | Some e => Thrown e
               | None =>
                   Returned (Some {| eventsReported := totalEvents run;
                                     messagesCount :=
                                       length (backfillTurns st chat data) |})
               end).
Proof.
  intros Hchat Hturns. unfold extractAllMessages.
  destruct chat as [|m chat']; [congruence|]. set (chat := m :: chat') in *.
  destruct (backfillTurns st chat data) as [|t turns'] eqn:Et; [congruence|].
  rewrite <- Et. unfold bind.
  destruct (backfillLoop_run st chat inputs (backfillTurns st chat data)
              (Z.to_nat (completeBatches st chat data)) 0%nat
              {| store := data; totalEvents := 0; batchLog := [] |})
    as (run & new & Hrun & _).
  exists run. split; [exact Hrun|]. rewrite Hrun.
  unfold saveChatConditional. destruct finalSaveError; reflexivity.
Qed.

(** The turns of a backfill run are exactly its complete batches. *)
Lemma backfillTurns_length st chat data :
  let messageCount := orDefault (messagesPerExtraction st) 5 in
  0 < messageCount ->
  Z.of_nat (length (backfillTurns st chat data))
  = completeBatches st chat data * messageCount.
Proof.
  intros messageCount Hpos. unfold backfillTurns, completeBatches.
  fold messageCount.
  set (len := Z.of_nat (length (eligible st chat data))).
  pose proof (Z.div_mod len messageCount ltac:(lia)) as Hdm.
  pose proof (Z.mod_pos_bound len messageCount Hpos) as Hm.
  assert (Hlen : 0 <= len) by (unfold len; lia).
  assert (Hq : 0 <= len / messageCount) by (apply Z.div_pos; lia).
  destruct (0 <? len - len / messageCount * messageCount) eqn:E.
  - rewrite slice_length; fold len; nia.
  - apply Z.ltb_ge in E. fold len. nia.
Qed.

(** Every batch of a backfill run is complete. *)
Lemma backfill_batch_complete st chat data i :
  (i < Z.to_nat (completeBatches st chat data))%nat ->
  let messageCount := orDefault (messagesPerExtraction st) 5 in
  0 < messageCount
  /\ length (batchOf messageCount (backfillTurns st chat data) i)
     = Z.to_nat messageCount.
Proof.
  intros Hi messageCount.
  assert (Hpos : 0 < messageCount).
  { unfold completeBatches in Hi. fold messageCount in Hi.
    set (len := Z.of_nat (length (eligible st chat data))) in *.
    assert (Hlen : 0 <= len) by (unfold len; lia).
    assert (Hk : 1 <= len / messageCount) by lia.
    destruct (Z.lt_trichotomy messageCount 0) as [Hn|[Hz|Hp]]; [| |exact Hp].
    - pose proof (Z.div_mod len messageCount ltac:(lia)) as Hdm.
      pose proof (Z.mod_neg_bound len messageCount Hn) as Hm. nia.
    - rewrite Hz, Z.div_0_r in Hk. lia. }
  split; [exact Hpos|].
  pose proof (backfillTurns_length st chat data Hpos) as Hlen.
  fold messageCount in Hlen.
  unfold batchOf. rewrite slice_length; [lia|nia|lia|nia].
Qed.


(** X20.  A backfill run never aborts in its loop: whatever the cycles
    do, every batch index from 0 to k-1 is run once, in order, on the
    slice of its index and on the store its predecessors left; the log
    holds what each cycle returned or threw.  The counter of events is
    the sum of what the cycles that returned have reported, so a cycle
    that threw adds nothing, and a cycle whose call to the model throws
    is logged with that error.  When the store has the list of completed batches, it
    gains exactly the indices of the cycles that returned, and those
    cycles are not reported as failed; when it has no such list, it
    still has none afterwards and every cycle that returned is reported
    as failed.  The run ends with the final toast unless the final save
    fails, whose error it throws. *)
Theorem backfill_runs_every_batch
    (st : Settings) (chat : list Message) (inputs : nat -> CycleInput)
    (finalSaveError : option string) (data : OpenVaultData) :
  chat <> [] -> backfillTurns st chat data <> [] ->
  let result := extractAllMessages readEvents st chat inputs finalSaveError data in
  let run := fst result in
  map batch_index (batchLog run) = seq 0 (Z.to_nat (completeBatches st chat data))
  /\ replayed readEvents st chat inputs data (batchLog run)
  /\ store run = storeAfterLog readEvents st chat inputs data (batchLog run)
  /\ Forall (faithful st chat inputs (backfillTurns st chat data) (hasBatchList data))
            (batchLog run)
  /\ totalEvents run = countedEvents (batchLog run)
  /\ (forall done, extracted_batches data = Some done ->
        exists done', extracted_batches (store run) = Some done'
          /\ forall j, In j done' <->
                        In j done \/ In j (extractedBatches (batchLog run)))
  /\ (extracted_batches data = None -> extracted_batches (store run) = None)
  /\ snd result
     = match finalSaveError with
       | Some e => Thrown e
       | None => Returned (Some {| eventsReported := totalEvents run;
                                   messagesCount :=
                                     length (backfillTurns st chat data) |})
       end.
Proof.
  intros Hchat Hturns result run. unfold run, result.
  destruct (extractAllMessages_run st chat inputs finalSaveError data Hchat Hturns)
    as (run' & Hloop & ->). simpl.
  destruct (backfillLoop_run st chat inputs (backfillTurns st chat data)
              (Z.to_nat (completeBatches st chat data)) 0%nat
              {| store := data; totalEvents := 0; batchLog := [] |})
    as (run'' & new & Hrun & Hlog & Hidx & Htot & Hreplay & Hstore & Hfaith
        & Hnone & Hsome).
  rewrite Hloop in Hrun. injection Hrun as <-. simpl in *. subst new.
  split_and!; auto.
Qed.

End Backfill.

Lemma imap_indices {A} (l : list A) : forall k,
  imap (fun idx _ => Z.of_nat (k + idx)) l = map Z.of_nat (seq k (length l)).
Proof.
  induction l as [|x l IH]; intros k; [reflexivity|].
  rewrite imap_cons. simpl. rewrite Nat.add_0_r. f_equal.
  rewrite <- IH. apply imap_ext. intros i y _. simpl. f_equal. lia.
Qed.




(** ** The relevance score *)

Lemma natQ_succ n : (natQ (S n) == natQ n + 1)%Q.
Proof.
  unfold natQ. rewrite Nat2Z.inj_succ, <- Z.add_1_r, inject_Z_plus. reflexivity.
Qed.

(** A loop that adds [c] for every element that passes a test. *)
Lemma fold_add_if {A} (p : A -> bool) (c : Q) (l : list A) : forall s : Q,
  (fold_left (fun s x => if p x then s + c else s) l s
   == s + c * natQ (length (List.filter p l)))%Q.
Proof.
  induction l as [|x l IH]; intros s; simpl.
  - unfold natQ. simpl. ring.
  - rewrite IH. destruct (p x); simpl; [rewrite natQ_succ|]; ring.
Qed.

(** The loop over the active characters, with its two tests. *)
Lemma fold_add_two {A} (p q : A -> bool) (c d : Q) (l : list A) : forall s : Q,
  (fold_left (fun s x => let s := if p x then s + c else s in
                         if q x then s + d else s) l s
   == s + c * natQ (length (List.filter p l))
        + d * natQ (length (List.filter q l)))%Q.
Proof.
  induction l as [|x l IH]; intros s; simpl.
  - unfold natQ. simpl. ring.
  - rewrite IH. destruct (p x), (q x); simpl; rewrite ?natQ_succ; ring.
Qed.

(** C8, as the code has it.  The score is the sum of the recency term
    max(0, 10 - ageHours), 5 for each active character among the
    characters involved, 3 for each active character among the witnesses,
    1 for each word of the recent context longer than 3 that occurs in
    the summary, a repeated word counted every time, and 3 for a
    revelation or 2 for a relationship change. *)
Theorem score_is_sum_of_terms
    (nowMs : Z) (recentContext : string) (activeCharacters : list string)
    (m : MemoryEvent) :
  (scoreMemory nowMs recentContext activeCharacters m
   == scoreTerms nowMs recentContext activeCharacters m)%Q.
Proof.
  unfold scoreMemory, scoreTerms, typeBonus, wordHits, activeIn, recencyTerm.
  set (words := contextWords recentContext).
  set (s1 := fold_left _ activeCharacters _).
  set (s2 := fold_left _ words s1).
  assert (H2 : (s2 == s1 + 1 * natQ (length (List.filter (includes (summaryLower m)) words)))%Q)
    by apply fold_add_if.
  assert (H1 : (s1 == (0 + Qmax 0 (10 - ageHours nowMs m))
                      + 5 * natQ (length (List.filter (arrayIncludes (characters_involved m))
                                                      activeCharacters))
                      + 3 * natQ (length (List.filter (arrayIncludes (witnesses m))
                                                      activeCharacters)))%Q)
    by apply fold_add_two.
  destruct (isType m "revelation"), (isType m "relationship_change");
    rewrite H2, H1; ring.
Qed.

(** Against the wording of C8: with the recent context "hidden hidden"
    the word is counted twice, so the score is 2 where counting distinct
    words gives 1. *)
Lemma repeated_word_counts_twice :
  (scoreMemory 39600000 "hidden hidden" [] doorEvent == 2)%Q
  /\ (specifiedScore 39600000 "hidden hidden" [] doorEvent == 1)%Q
  /\ ~ (scoreMemory 39600000 "hidden hidden" [] doorEvent
        == specifiedScore 39600000 "hidden hidden" [] doorEvent)%Q.
Proof. vm_compute. repeat split; discriminate. Qed.

(** ** The context formatter terminates *)

Lemma length_append (a b : string) :
  String.length (a +:+ b) = (String.length a + String.length b)%nat.
Proof.
  induction a as [|c a IH]; [reflexivity|]. rewrite append_cons. simpl. lia.
Qed.

Lemma join_weight (lines : list string) :
  lines <> [] ->
  S (String.length (join newline lines)) = linesWeight lines.
Proof.
  unfold linesWeight. induction lines as [|x [|y rest] IH]; intros Hne.
  - congruence.
  - simpl. lia.
  - change (join newline (x :: y :: rest))
      with (x +:+ newline +:+ join newline (y :: rest)).
    rewrite !length_append.
    change (list_sum (map (fun line => S (String.length line)) (x :: y :: rest)))
      with (S (String.length x)
            + list_sum (map (fun line => S (String.length line)) (y :: rest)))%nat.
    rewrite <- IH by discriminate. simpl. lia.
Qed.

Lemma linesWeight_app (a b : list string) :
  linesWeight (a ++ b) = (linesWeight a + linesWeight b)%nat.
Proof. unfold linesWeight. rewrite map_app, list_sum_app. reflexivity. Qed.

(** The memories kept are the first ones of the list. *)
Lemma truncateMemories_prefix available : forall mems current,
  exists rest, mems = truncateMemories available current mems ++ rest.
Proof.
  induction mems as [|m mems IH]; intros current; simpl.
  - exists []. reflexivity.
  - destruct (Qle_bool (current + memoryTokens m) available).
    + destruct (IH (current + memoryTokens m)%Q) as [rest Hrest].
      exists rest. simpl. f_equal. exact Hrest.
    + exists (m :: mems). reflexivity.
Qed.

(** Fewer memories make a shorter text. *)
Lemma fullText_prefix kept rest rels emotionalState characterName :
  (String.length (fullText kept rels emotionalState characterName)
   <= String.length (fullText (kept ++ rest) rels emotionalState characterName))%nat.
Proof.
  assert (Hne : forall mems,
             contextLines mems rels emotionalState characterName <> []).
  { intros mems. unfold contextLines. discriminate. }
  pose proof (join_weight _ (Hne kept)) as H1.
  pose proof (join_weight _ (Hne (kept ++ rest))) as H2.
  unfold fullText. revert H1 H2. unfold contextLines.
  rewrite !linesWeight_app.
  assert (Hm : (linesWeight (match kept with
                             | [] => []
                             | _ => ["Relevant memories:"] ++ map memoryLine kept
                             end)
                <= linesWeight (match kept ++ rest with
                                | [] => []
                                | _ => ["Relevant memories:"]
                                       ++ map memoryLine (kept ++ rest)
                                end))%nat).
  { destruct kept as [|m kept]; [apply Nat.le_0_l|].
    change ((m :: kept) ++ rest) with (m :: (kept ++ rest)). cbv iota beta.
    rewrite !linesWeight_app. apply Nat.add_le_mono_l.
    unfold linesWeight. simpl. rewrite !map_app, list_sum_app. lia. }
  lia.
Qed.

Lemma truncated_text_shorter available mems rels emotionalState characterName :
  (String.length (fullText (truncateMemories available 0 mems) rels
                           emotionalState characterName)
   <= String.length (fullText mems rels emotionalState characterName))%nat.
Proof.
  destruct (truncateMemories_prefix available mems 0%Q) as [rest Hrest].
  rewrite Hrest at 2. apply fullText_prefix.
Qed.

Lemma Qlt_bool_true (a b : Q) : Qlt_bool a b = true <-> (a < b)%Q.
Proof.
  unfold Qlt_bool. rewrite negb_true_iff. split.
  - intros H. apply Qnot_le_lt. intros Hle. apply Qle_bool_iff in Hle. congruence.
  - intros H. destruct (Qle_bool b a) eqn:E; [|reflexivity].
    apply Qle_bool_iff in E. exfalso. exact (Qlt_not_le _ _ H E).
Qed.

Lemma pow2_succ k : (pow2 (S k) == 2 * pow2 k)%Q.
Proof.
  unfold pow2. rewrite Nat2Z.inj_succ, Z.pow_succ_r by lia.
  rewrite inject_Z_mult. reflexivity.
Qed.

Lemma lengthQ_le (a b : string) :
  (String.length a <= String.length b)%nat -> (lengthQ a / 4 <= lengthQ b / 4)%Q.
Proof.
  intros H. unfold lengthQ, Qdiv. apply Qmult_le_compat_r; [|discriminate].
  rewrite <- Zle_Qle. lia.
Qed.

(** One call of the formatter. *)
Lemma formatContextForInjection_step fuel mems rels emotionalState characterName tokenBudget :
  formatContextForInjection fuel mems rels emotionalState characterName tokenBudget
  = if Qlt_bool tokenBudget
         (lengthQ (fullText mems rels emotionalState characterName) / 4)%Q
    then match fuel with
         | O => None
         | S fuel' =>
             formatContextForInjection fuel'
               (truncateMemories
                  (tokenBudget
                   - overheadTokens (contextLines mems rels emotionalState characterName))%Q
                  0 mems)
               rels emotionalState characterName (tokenBudget * 2)
         end
    else Some (fullText mems rels emotionalState characterName).
Proof. destruct fuel; reflexivity. Qed.

(** Once the budget, doubled [k] times, covers the estimate of the full
    text, [k] nested calls are enough. *)
Lemma format_within k rels emotionalState characterName : forall mems tokenBudget,
  (lengthQ (fullText mems rels emotionalState characterName) / 4
   <= tokenBudget * pow2 k)%Q ->
  exists text, forall fuel, (k <= fuel)%nat ->
    formatContextForInjection fuel mems rels emotionalState characterName tokenBudget
    = Some text.
Proof.
  induction k as [|k IH]; intros mems tokenBudget Hfit.
  - exists (fullText mems rels emotionalState characterName). intros fuel _.
    rewrite formatContextForInjection_step.
    destruct (Qlt_bool tokenBudget _) eqn:E; [|reflexivity].
    apply Qlt_bool_true in E. exfalso.
    assert (H1 : (tokenBudget * pow2 0 == tokenBudget)%Q) by (change (pow2 0) with 1%Q; ring).
    rewrite H1 in Hfit. exact (Qlt_not_le _ _ E Hfit).
  - destruct (Qlt_bool tokenBudget
                (lengthQ (fullText mems rels emotionalState characterName) / 4)%Q) eqn:E.
    + set (kept := truncateMemories
                     (tokenBudget
                      - overheadTokens (contextLines mems rels emotionalState characterName))%Q
                     0 mems).
      destruct (IH kept (tokenBudget * 2)%Q) as [text Htext].
      { eapply Qle_trans; [apply lengthQ_le, truncated_text_shorter|].
        eapply Qle_trans; [exact Hfit|]. rewrite pow2_succ.
        apply Qle_lteq. right. ring. }
      exists text. intros fuel Hfuel. destruct fuel as [|fuel]; [lia|].
      rewrite formatContextForInjection_step, E. apply Htext. lia.
    + exists (fullText mems rels emotionalState characterName). intros fuel _.
      rewrite formatContextForInjection_step, E. reflexivity.
Qed.

(** A positive budget, doubled often enough, covers any text. *)
Lemma budget_reaches (text : string) (tokenBudget : Q) :
  (0 < tokenBudget)%Q ->
  (lengthQ text / 4
   <= tokenBudget * pow2 (String.length text * Pos.to_nat (Qden tokenBudget)))%Q.
Proof.
  destruct tokenBudget as [p q]. unfold Qlt. simpl. intros Hp.
  unfold Qle, lengthQ, pow2, Qdiv, Qmult, Qinv. simpl.
  rewrite Nat2Z.inj_mul, positive_nat_Z.
  set (L := Z.of_nat (String.length text)).
  assert (HL : 0 <= L) by (unfold L; lia).
  pose proof (Z.pow_gt_lin_r 2 (L * Z.pos q) ltac:(lia) ltac:(lia)) as Hpow.
  rewrite Pos.mul_1_r.
  nia.
Qed.

(** C9. For every list of memories, every relationship and emotion
    summary and every positive token budget, the formatter returns a
    text, and the depth of its recursion is at most the length of the
    full text times the denominator of the budget (the length of the
    full text, for a whole budget). *)
Theorem formatter_terminates
    (mems : list MemoryEvent) (rels : list RelationshipSummary)
    (emotionalState characterName : string) (tokenBudget : Q) :
  (0 < tokenBudget)%Q ->
  exists text, forall fuel,
    (depthBound mems rels emotionalState characterName tokenBudget <= fuel)%nat ->
    formatContextForInjection fuel mems rels emotionalState characterName tokenBudget
    = Some text.
Proof.
  intros Hpos. apply format_within. apply budget_reaches, Hpos.
Qed.

(** The text is never empty: it has a header and a footer. *)
Lemma fullText_not_empty mems rels emotionalState characterName :
  (0 < String.length (fullText mems rels emotionalState characterName))%nat.
Proof.
  assert (Hne : contextLines mems rels emotionalState characterName <> [])
    by (unfold contextLines; discriminate).
  pose proof (join_weight _ Hne) as H. unfold fullText.
  revert H. unfold contextLines. rewrite linesWeight_app.
  unfold linesWeight at 1. simpl. lia.
Qed.

(** The budget has to be positive: with a budget of 0 the formatter calls
    itself for ever, whatever it is given. *)
Lemma zero_budget_never_returns fuel : forall mems rels emotionalState characterName,
  formatContextForInjection fuel mems rels emotionalState characterName 0 = None.
Proof.
  induction fuel as [|fuel IH]; intros mems rels emotionalState characterName;
    rewrite formatContextForInjection_step;
    assert (E : Qlt_bool 0 (lengthQ (fullText mems rels emotionalState characterName) / 4)
                = true).
  1, 3: apply Qlt_bool_true; unfold lengthQ, Qdiv, Qlt; simpl;
        pose proof (fullText_not_empty mems rels emotionalState characterName); lia.
  - rewrite E. reflexivity.
  - rewrite E. change (0 * 2)%Q with 0%Q. apply IH.
Qed.

(** * The properties at concrete inputs *)

(** Against the wording of C1: Alice is no witness of the secret event and
    does not know it, the filter leaves her nothing, and so the event is
    among the memories used for her. *)
Lemma fallback_shows_unwitnessed_secret :
  is_secret secretEvent = true
  /\ someNamed (toLowerCase "Alice") (witnesses secretEvent) = false
  /\ ~ In (id secretEvent) (knownEventIds secretStore "Alice")
  /\ accessibleMemories secretStore "Alice" = []
  /\ In secretEvent (memoriesToUse secretStore "Alice").
Proof.
  split; [reflexivity|]. split; [reflexivity|]. split; [intros []|].
  split; [reflexivity|]. left. reflexivity.
Qed.

Lemma secret_event_visibility_witness :
  is_secret secretEvent = true
  /\ (accessibleMemories secretStore "Alice" = [] ->
      memoriesToUse secretStore "Alice" = memories secretStore)
  /\ (In secretEvent (memoriesToUse secretStore "bob") <->
      someNamed (toLowerCase "bob") (witnesses secretEvent) = true
      \/ In (id secretEvent) (knownEventIds secretStore "bob")
      \/ accessibleMemories secretStore "bob" = []).
Proof.
  split; [reflexivity|]. split.
  - apply (secret_event_visibility secretStore "Alice" secretEvent). reflexivity.
  - apply (secret_event_visibility secretStore "bob" secretEvent); [reflexivity|].
    left. reflexivity.
Defined.

(** Against the wording of C2: the model answers with the empty array,
    the cycle over turn 0 returns with no event, and the marker is still
    -1. *)
Lemma empty_answer_leaves_marker :
  let chat := [plainMessage "Alice opens the door."] in
  let run := extractMemories readEmptyArray defaultSettings chat (answered "[]")
               None emptyData in
  map turn_id (selectTurns defaultSettings chat emptyData None) = [0]
  /\ snd run = Returned (Some {| events_created := 0; messages_processed := 1 |})
  /\ last_processed_message_id (fst run) = Some (-1)
  /\ last_processed_message_id (fst run) <> Some 0.
Proof. vm_compute. repeat split; discriminate. Qed.

Lemma marker_moves_only_with_events_witness :
  let chat := [plainMessage "Alice opens the door."] in
  enabled defaultSettings = true
  /\ callLLMForExtraction defaultSettings (answered "[]") = Returned "[]"
  /\ extractMemories readEmptyArray defaultSettings chat (answered "[]") None emptyData
     = (emptyData, Returned (Some {| events_created := 0; messages_processed := 1 |})).
Proof.
  intros chat. split; [reflexivity|]. split; [reflexivity|].
  destruct (marker_moves_only_with_events readEmptyArray defaultSettings chat
              (answered "[]") None emptyData eq_refl ltac:(discriminate)
              ltac:(discriminate)) as [Hnone _].
  apply (Hnone "[]"); reflexivity.
Defined.

(** The marker moves in a cycle that throws, too: here the final save
    fails after the marker was set. *)
Example marker_moved_by_failed_save :
  let run := extractMemories readPlainEvent defaultSettings
               [plainMessage "Alice opens the door."]
               (unsaved "[{}]" "Failed to save chat") None emptyData in
  snd run = Thrown "Failed to save chat"
  /\ last_processed_message_id emptyData = Some (-1)
  /\ last_processed_message_id (fst run) = Some 0.
Proof. vm_compute. auto. Qed.

(** Against the wording of C3.  The model answers with an event whose
    relationship impact is a number: the cycle throws, and the event, the
    character states of its witnesses and a new relationship are in the
    store all the same.  The model answers well and the final save fails:
    the cycle throws, and the event is in the store and the marker has
    moved. *)
Lemma later_error_keeps_events :
  let chat := [plainMessage "Alice confides in Bob."] in
  let run := extractMemories readNumberImpact defaultSettings chat (answered "[{}]")
               None emptyData in
  let run' := extractMemories readPlainEvent defaultSettings chat
                (unsaved "[{}]" "Failed to save chat") None emptyData in
  (snd run = Thrown "impact.toLowerCase is not a function"
   /\ map id (memories (fst run)) = ["1000-a"]
   /\ memories (fst run) <> memories emptyData
   /\ size (character_states (fst run)) = 2%nat
   /\ size (relationships (fst run)) = 1%nat
   /\ last_processed_message_id (fst run) = Some (-1))
  /\ (snd run' = Thrown "Failed to save chat"
      /\ map id (memories (fst run')) = ["1000-a"]
      /\ memories (fst run') <> memories emptyData
      /\ last_processed_message_id (fst run') = Some 0).
Proof. vm_compute. repeat split; discriminate. Qed.

Lemma failed_cycle_state_witness :
  let chat := [plainMessage "Alice opens the door."] in
  enabled defaultSettings = true
  /\ callLLMForExtraction defaultSettings (refused "timeout") = Thrown "timeout"
  /\ extractMemories readEmptyArray defaultSettings chat (refused "timeout") None emptyData
     = (emptyData, Thrown "timeout").
Proof.
  intros chat. split; [reflexivity|]. split; [reflexivity|].
  apply (failed_cycle_state readEmptyArray defaultSettings chat
           (refused "timeout") None emptyData);
    [reflexivity|discriminate|discriminate|reflexivity].
Defined.

Lemma levels_stay_in_range_witness :
  allInRange (relationships trustingStore)
  /\ allInRange
       (relationships
          (propagateAll
             [(5, [impactEvent "e1" "Alice -> Bob" (VString "Trust increased a lot")]);
              (6, [impactEvent "e2" "Bob->Alice" (VString "tension decreased")])]
             trustingStore)).
Proof.
  assert (H : allInRange (relationships trustingStore)).
  { apply map_Forall_singleton. unfold levelsInRange. simpl. lia. }
  split; [exact H|]. apply levels_stay_in_range. exact H.
Defined.

(** Trust at 10 stays at 10, and the tension of a new record stays at 0. *)
Example levels_clamped :
  let data := propagateAll
                [(5, [impactEvent "e1" "Alice -> Bob" (VString "Trust increased a lot")]);
                 (6, [impactEvent "e2" "Bob->Alice" (VString "tension decreased")])]
                trustingStore in
  trust_level <$> relationships data !! "Alice<->Bob" = Some 10
  /\ tension_level <$> relationships data !! "Bob<->Alice" = Some 0.
Proof. vm_compute. auto. Qed.



(** On a store that has the list, the second of three batches fails: the
    first and the third are run and recorded, and the total counts their
    two events only. *)
Example second_batch_fails :
  let result := extractAllMessages readPlainEvent defaultSettings chat23 secondFails
                  None listedData in
  let run := fst result in
  map batch_error (batchLog run) = [None; Some "timeout"; None]
  /\ map countedBy (batchLog run) = [1; 0; 1]%nat
  /\ extracted_batches (store run) = Some [0; 2]%nat
  /\ length (memories (store run)) = 2%nat
  /\ snd result = Returned (Some {| eventsReported := 2; messagesCount := 15 |}).
Proof. vm_compute. repeat split. Qed.

(** When the final save fails, the run throws after its loop: the
    batches were run and recorded, and nothing is reported. *)
Example final_save_fails :
  let result := extractAllMessages readPlainEvent defaultSettings chat23 secondFails
                  (Some "Failed to save chat") listedData in
  snd result = Thrown "Failed to save chat"
  /\ extracted_batches (store (fst result)) = Some [0; 2]%nat
  /\ totalEvents (fst result) = 2%nat.
Proof. vm_compute. repeat split. Qed.

(** Against the wording of C7: the key "B->A" after the key "A->B" makes
    a second record; the first is not touched by it. *)
Lemma reversed_key_makes_second_record :
  let data := fst (updateRelationshipsFromEvents 7
                     [impactEvent "e1" "A->B" (VString "trust increased");
                      impactEvent "e2" "B->A" (VString "trust decreased")]
                     emptyData) in
  size (relationships data) = 2%nat
  /\ size (relationships data) <> 1%nat
  /\ (trust_level <$> relationships data !! "A<->B") = Some 6
  /\ (character_a <$> relationships data !! "B<->A") = Some "B"
  /\ (trust_level <$> relationships data !! "B<->A") = Some 4.
Proof. vm_compute. repeat split; discriminate. Qed.

Lemma relationships_keyed_by_direction_witness :
  let rels1 := fst (applyImpact 1 "e1" ("Alice" +:+ "->" +:+ "Bob",
                                        VString "trust increased") ∅) in
  let rels2 := fst (applyImpact 2 "e2" ("Bob" +:+ "->" +:+ "Alice",
                                        VString "tension increased") rels1) in
  plainName "Alice" = true /\ plainName "Bob" = true /\ "Alice" <> "Bob"
  /\ pairKey "Alice" "Bob" <> pairKey "Bob" "Alice"
  /\ (exists r, rels2 !! pairKey "Alice" "Bob" = Some r
        /\ character_a r = "Alice" /\ character_b r = "Bob"
        /\ history r = [{| event_id := "e1"; impact := "trust increased";
                           timestamp := 1 |}])
  /\ (exists r, rels2 !! pairKey "Bob" "Alice" = Some r
        /\ character_a r = "Bob" /\ character_b r = "Alice"
        /\ history r = [{| event_id := "e2"; impact := "tension increased";
                           timestamp := 2 |}]).
Proof.
  intros rels1 rels2.
  split; [reflexivity|]. split; [reflexivity|]. split; [discriminate|].
  apply (relationships_keyed_by_direction "Alice" "Bob" 1 2 "e1" "e2"
           "trust increased" "tension increased" ∅);
    [reflexivity|reflexivity|discriminate|reflexivity|reflexivity].
Defined.

Lemma formatter_terminates_witness :
  (0 < 1)%Q
  /\ exists text, forall fuel,
       (depthBound [doorEvent] [] "neutral" "Alice" 1 <= fuel)%nat ->
       formatContextForInjection fuel [doorEvent] [] "neutral" "Alice" 1 = Some text.
Proof.
  split; [reflexivity|].
  apply (formatter_terminates [doorEvent] [] "neutral" "Alice" 1). reflexivity.
Defined.

(** With a budget of 8 tokens the text with one memory does not fit: the
    formatter drops the memory and calls itself once, with a budget of
    16. *)
Example formatter_shrinks :
  formatContextForInjection 1 [doorEvent] [] "neutral" "Alice" 8
  = Some (join newline ["[Alice's Memory & State]"; ""; "[End Alice's Memory]"])
  /\ formatContextForInjection 0 [doorEvent] [] "neutral" "Alice" 8 = None.
Proof. vm_compute. auto. Qed.

(** * Further properties *)

(** ** The state propagator: what the characters know *)

Lemma forEach_related {S A} (R : S -> S -> Prop) (body : A -> Eff S unit) (l : list A) :
  (forall s, R s s) -> (forall a b c, R a b -> R b c -> R a c) ->
  (forall x s, R s (fst (body x s))) ->
  forall s, R s (fst (forEach l body s)).
Proof.
  intros Hrefl Htrans Hbody. induction l as [|x l IH]; intros s; simpl; [apply Hrefl|].
  unfold bind. pose proof (Hbody x s) as Hx.
  destruct (body x s) as [s' [[]|e]]; simpl in *; [|exact Hx].
  eapply Htrans; [exact Hx|apply IH].
Qed.

Lemma forEach_preserves_in {S A} (P : S -> Prop) (body : A -> Eff S unit) (l : list A) :
  (forall x s, In x l -> P s -> P (fst (body x s))) ->
  forall s, P s -> P (fst (forEach l body s)).
Proof.
  induction l as [|x l IH]; intros Hbody s Hs; simpl; [exact Hs|].
  unfold bind. pose proof (Hbody x s (or_introl eq_refl) Hs) as Hx.
  destruct (body x s) as [s' [[]|e]]; simpl in *; [|exact Hx].
  apply IH; [|exact Hx]. intros y s0 Hy. apply Hbody. right. exact Hy.
Qed.

Lemma onCharacters_fst {A} (m : Eff (gmap string CharacterState) A) data :
  character_states (fst (onCharacters m data)) = fst (m (character_states data)).
Proof. unfold onCharacters. destruct (m (character_states data)); reflexivity. Qed.



(** After [if (!chars[n]) chars[n] = {...}] the store has a state for
    [n], unless the lookup found an inherited property. *)
Lemma ensureCharacter_lookup charName chars :
  ensureCharacter charName chars !! charName = None <-> shadowed chars charName = true.
Proof.
  unfold ensureCharacter, shadowed. destruct (chars !! charName) eqn:E.
  - rewrite E. split; discriminate.
  - destruct (inheritedName charName).
    + rewrite E. tauto.
    + rewrite lookup_insert_eq. split; discriminate.
Qed.

Lemma ensureCharacter_shadowed charName chars :
  shadowed chars charName = true -> ensureCharacter charName chars = chars.
Proof.
  unfold ensureCharacter, shadowed. destruct (chars !! charName); [discriminate|].
  intros ->. reflexivity.
Qed.





(** One witness: the lookup that finds an inherited property makes the
    code throw; otherwise the witness learns the event. *)
Lemma applyWitness_run eventId w chars :
  applyWitness eventId w chars
  = if shadowed chars w
    then (chars, Thrown "Cannot read properties of undefined (reading 'includes')")
    else (alter (learnEvent eventId) w (ensureCharacter w chars), Returned tt).
Proof.
  unfold applyWitness, bind, modify. simpl.
  destruct (ensureCharacter w chars !! w) eqn:E.
  - destruct (shadowed chars w) eqn:Es; [|reflexivity].
    apply ensureCharacter_lookup in Es. congruence.
  - apply ensureCharacter_lookup in E. rewrite E.
    rewrite (ensureCharacter_shadowed _ _ E). reflexivity.
Qed.











Lemma alter_distinct (f : CharacterState -> CharacterState) key chars :
  (forall c, NoDup (known_events c) -> NoDup (known_events (f c))) ->
  distinctKnowledge chars -> distinctKnowledge (alter f key chars).
Proof.
  intros Hf H k c. rewrite lookup_alter. case_decide as Hk.
  - subst k. destruct (chars !! key) as [c0|] eqn:E; simpl; [|discriminate].
    intros [= <-]. apply Hf. exact (H key c0 E).
  - apply H.
Qed.

Lemma ensureCharacter_distinct charName chars :
  distinctKnowledge chars -> distinctKnowledge (ensureCharacter charName chars).
Proof.
  unfold ensureCharacter. intros H. destruct (chars !! charName); [exact H|].
  destruct (inheritedName charName); [exact H|].
  apply map_Forall_insert_2; [apply NoDup_nil_2|exact H].
Qed.

Lemma learnEvent_distinct eventId c :
  NoDup (known_events c) -> NoDup (known_events (learnEvent eventId c)).
Proof.
  intros H. unfold learnEvent.
  destruct (existsb (String.eqb eventId) (known_events c)) eqn:E; [exact H|].
  simpl. apply NoDup_app. split; [exact H|]. split; [|apply NoDup_singleton].
  intros x Hx Hs. apply list_elem_of_singleton in Hs. subst x.
  apply list_elem_of_In, existsb_eqb_In in Hx. congruence.
Qed.

Lemma emotions_distinct now impacts : forall chars,
  distinctKnowledge chars ->
  distinctKnowledge (fold_left (applyEmotion now) impacts chars).
Proof.
  induction impacts as [|[n e] l IH]; intros chars H; simpl; [exact H|].
  apply IH. unfold applyEmotion.
  apply alter_distinct; [intros c Hc; exact Hc|].
  apply ensureCharacter_distinct, H.
Qed.

(** X2.  [known_events] behaves as a set: when no character state lists
    an event twice, none does after a propagation, whatever the events
    and however often a witness or an event is repeated. *)
Theorem known_events_stay_distinct
    (now : Z) (events : list MemoryEvent) (data : OpenVaultData) :
  distinctKnowledge (character_states data) ->
  distinctKnowledge
    (character_states (fst (updateCharacterStatesFromEvents now events data))).
Proof.
  unfold updateCharacterStatesFromEvents. rewrite onCharacters_fst.
  unfold updateCharacterStates. apply forEach_preserves.
  intros event chars H. unfold bind, modify.
  apply forEach_preserves; [|apply emotions_distinct, H].
  intros w chars' H'. rewrite applyWitness_run.
  destruct (shadowed chars' w); [exact H'|]. simpl.
  apply alter_distinct; [apply learnEvent_distinct|].
  apply ensureCharacter_distinct, H'.
Qed.

Lemma keepsCharacters_refl chars : keepsCharacters chars chars.
Proof. intros c st H. eauto. Qed.

Lemma keepsCharacters_trans a b c :
  keepsCharacters a b -> keepsCharacters b c -> keepsCharacters a c.
Proof.
  intros Hab Hbc k st H. destruct (Hab k st H) as (st1 & H1 & Hn1 & Hi1).
  destruct (Hbc k st1 H1) as (st2 & H2 & Hn2 & Hi2).
  exists st2. split; [exact H2|]. split; congruence.
Qed.

Lemma keepsCharacters_ensure_alter (f : CharacterState -> CharacterState) key chars :
  (forall c, name (f c) = name c /\ emotion_intensity (f c) = emotion_intensity c) ->
  keepsCharacters chars (alter f key (ensureCharacter key chars)).
Proof.
  intros Hf k st H.
  assert (He : ensureCharacter key chars !! k = Some st).
  { unfold ensureCharacter. destruct (chars !! key) eqn:E; [exact H|].
    destruct (inheritedName key); [exact H|].
    rewrite lookup_insert_ne; [exact H|]. intros ->. congruence. }
  rewrite lookup_alter. case_decide as Hk.
  - subst k. rewrite He. simpl. eexists. split; [reflexivity|]. apply Hf.
  - eauto.
Qed.

Lemma frame_ensure_alter (f : CharacterState -> CharacterState) key chars k :
  k <> key -> alter f key (ensureCharacter key chars) !! k = chars !! k.
Proof.
  intros Hk. rewrite lookup_alter_ne by congruence.
  unfold ensureCharacter. destruct (chars !! key); [reflexivity|].
  destruct (inheritedName key); [reflexivity|].
  apply lookup_insert_ne. congruence.
Qed.

Lemma learnEvent_same eventId c :
  name (learnEvent eventId c) = name c
  /\ emotion_intensity (learnEvent eventId c) = emotion_intensity c.
Proof. unfold learnEvent. case_match; auto. Qed.

Lemma fold_keeps {A} (step : gmap string CharacterState -> A -> gmap string CharacterState)
    (l : list A) :
  (forall chars x, keepsCharacters chars (step chars x)) ->
  forall chars, keepsCharacters chars (fold_left step l chars).
Proof.
  intros Hstep. induction l as [|x l IH]; intros chars; simpl.
  - apply keepsCharacters_refl.
  - eapply keepsCharacters_trans; [apply Hstep|apply IH].
Qed.

Lemma updateCharacterStates_keeps now events chars :
  keepsCharacters chars (fst (updateCharacterStates now events chars)).
Proof.
  unfold updateCharacterStates.
  apply forEach_related; [apply keepsCharacters_refl|apply keepsCharacters_trans|].
  clear chars. intros event chars. unfold bind, modify.
  eapply keepsCharacters_trans.
  - apply (fold_keeps (applyEmotion now)). intros c [n e]. unfold applyEmotion.
    apply keepsCharacters_ensure_alter. intros st. simpl. auto.
  - apply forEach_related; [apply keepsCharacters_refl|apply keepsCharacters_trans|].
    intros w c. rewrite applyWitness_run.
    destruct (shadowed c w); [apply keepsCharacters_refl|]. simpl.
    apply keepsCharacters_ensure_alter. apply learnEvent_same.
Qed.

Lemma emotions_frame now impacts charName : forall chars,
  ~ In charName (map fst impacts) ->
  fold_left (applyEmotion now) impacts chars !! charName = chars !! charName.
Proof.
  induction impacts as [|[n e] l IH]; intros chars Hi; simpl; [reflexivity|].
  rewrite IH by (intros H; apply Hi; right; exact H).
  unfold applyEmotion. apply frame_ensure_alter. intros ->. apply Hi. left. reflexivity.
Qed.

Lemma updateCharacterStates_frame now events chars charName :
  ~ mentioned charName events ->
  fst (updateCharacterStates now events chars) !! charName = chars !! charName.
Proof.
  intros Hn. unfold updateCharacterStates.
  apply (forEach_preserves_in (fun s => s !! charName = chars !! charName));
    [|reflexivity].
  intros event s He Hs. unfold bind, modify.
  assert (Hw : ~ In charName (witnesses event)).
  { intros H. apply Hn. exists event. split; [exact He|left; exact H]. }
  assert (Hi : ~ In charName (map fst (emotional_impact event))).
  { intros H. apply Hn. exists event. split; [exact He|right; exact H]. }
  apply (forEach_preserves_in (fun s => s !! charName = chars !! charName)).
  - intros w s' Hin Hs'. rewrite applyWitness_run.
    destruct (shadowed s' w); [exact Hs'|]. simpl.
    rewrite frame_ensure_alter; [exact Hs'|]. intros ->. contradiction.
  - rewrite emotions_frame by exact Hi. exact Hs.
Qed.

(** X3.  A propagation never removes a character state and never changes
    the name or the emotion intensity in it; the state of a character
    that is neither a witness nor the target of an emotional impact of
    the events is left exactly as it was (also when there was none). *)
Theorem characters_kept_and_framed
    (now : Z) (events : list MemoryEvent) (data : OpenVaultData) :
  let data' := fst (updateCharacterStatesFromEvents now events data) in
  keepsCharacters (character_states data) (character_states data')
  /\ forall charName,
       ~ mentioned charName events ->
       character_states data' !! charName = character_states data !! charName.
Proof.
  cbv zeta. unfold updateCharacterStatesFromEvents. rewrite onCharacters_fst. split.
  - apply updateCharacterStates_keeps.
  - intros charName. apply updateCharacterStates_frame.
Qed.

(** ** The state propagator: relationships *)

Lemma continues_refl rels : continues rels rels.
Proof.
  intros k r H. exists r. split; [exact H|]. repeat split.
  exists []. rewrite app_nil_r. reflexivity.
Qed.

Lemma continues_trans a b c : continues a b -> continues b c -> continues a c.
Proof.
  intros Hab Hbc k r H.
  destruct (Hab k r H) as (r1 & H1 & Ha1 & Hb1 & Ht1 & added1 & Hh1).
  destruct (Hbc k r1 H1) as (r2 & H2 & Ha2 & Hb2 & Ht2 & added2 & Hh2).
  exists r2. split; [exact H2|]. repeat split; try congruence.
  exists (added1 ++ added2). rewrite Hh2, Hh1, <- app_assoc. reflexivity.
Qed.

Lemma continues_alter (f : Relationship -> Relationship) key rels :
  (forall r, character_a (f r) = character_a r /\ character_b (f r) = character_b r
             /\ relationship_type (f r) = relationship_type r
             /\ exists added, history (f r) = history r ++ added) ->
  continues rels (alter f key rels).
Proof.
  intros Hf k r H. rewrite lookup_alter. case_decide as Hk.
  - subst k. rewrite H. simpl. eexists. split; [reflexivity|]. apply Hf.
  - apply (continues_refl rels k r H).
Qed.

Lemma continues_ensure key a b rels :
  continues rels (ensureRelationship key a b rels).
Proof.
  unfold ensureRelationship. destruct (rels !! key) eqn:E; [apply continues_refl|].
  intros k r H. rewrite lookup_insert_ne by congruence.
  apply (continues_refl rels k r H).
Qed.

Lemma adjustTrust_type w r :
  relationship_type (adjustTrust w r) = relationship_type r.
Proof. unfold adjustTrust. repeat case_match; reflexivity. Qed.

Lemma adjustTension_type w r :
  relationship_type (adjustTension w r) = relationship_type r.
Proof. unfold adjustTension. repeat case_match; reflexivity. Qed.

Lemma applyImpact_continues now eid entry rels :
  continues rels (fst (applyImpact now eid entry rels)).
Proof.
  destruct entry as [relationKey v]. unfold applyImpact.
  destruct (matchRelationKey relationKey) as [[charA charB]|]; [|apply continues_refl].
  unfold bind, modify, liftOutcome. simpl.
  pose proof (continues_ensure (pairKey charA charB) charA charB rels) as H1.
  destruct (valueToLowerCase v) as [w|e]; simpl; [|exact H1].
  eapply continues_trans; [exact H1|].
  eapply continues_trans; [|eapply continues_trans].
  - apply (continues_alter (adjustTrust w)). intros r.
    destruct (adjustTrust_names w r) as (-> & -> & ->). rewrite adjustTrust_type.
    repeat split. exists []. rewrite app_nil_r. reflexivity.
  - apply (continues_alter (adjustTension w)). intros r.
    destruct (adjustTension_names w r) as (-> & -> & ->). rewrite adjustTension_type.
    repeat split. exists []. rewrite app_nil_r. reflexivity.
  - apply continues_alter. intros r. simpl. repeat split. eauto.
Qed.

(** X4.  Relationships are never removed and their history is
    append-only: after [updateRelationshipsFromEvents], also when it
    throws on the way, every record that was there is still there under
    its key, with the same two names and the same type, and its old
    history is the beginning of its new one. *)
Theorem relationship_history_append_only
    (now : Z) (events : list MemoryEvent) (data : OpenVaultData) :
  continues (relationships data)
            (relationships (fst (updateRelationshipsFromEvents now events data))).
Proof.
  unfold updateRelationshipsFromEvents. rewrite onRelationships_fst.
  unfold updateRelationships.
  apply forEach_related; [apply continues_refl|apply continues_trans|].
  intros event s.
  apply forEach_related; [apply continues_refl|apply continues_trans|].
  intros entry s'. apply applyImpact_continues.
Qed.

Lemma includes_tail c s w : includes (String c s) w = false -> includes s w = false.
Proof.
  intros H. change (includes (String c s) w)
    with (startsWith w (String c s) || includes s w) in H.
  apply orb_false_iff in H. tauto.
Qed.

Lemma includes_head s w : includes s w = false -> startsWith w s = false.
Proof.
  intros H. destruct s; simpl in H; apply orb_false_iff in H; tauto.
Qed.

Lemma matchArrowHere_includes s :
  includes s "->" = false -> matchArrowHere s = None.
Proof.
  intros H. apply includes_head in H. unfold matchArrowHere.
  destruct s as [|c [|d t]]; try reflexivity.
  change (startsWith "->" (String c (String d t)))
    with (Ascii.eqb "-" c && (Ascii.eqb ">" d && true)) in H.
  rewrite andb_true_r in H. rewrite (Ascii.eqb_sym c), (Ascii.eqb_sym d), H.
  reflexivity.
Qed.

Lemma matchArrow_includes s : includes s "->" = false -> matchArrow s = None.
Proof.
  induction s as [|c s IH]; intros H; [reflexivity|].
  cbn [matchArrow]. rewrite (IH (includes_tail _ _ _ H)), (matchArrowHere_includes _ H).
  destruct (isWhiteSpace c); reflexivity.
Qed.

Lemma matchLazy_includes rest : forall acc,
  includes rest "->" = false -> matchLazy acc rest = None.
Proof.
  induction rest as [|c rest IH]; intros acc H.
  - reflexivity.
  - cbn [matchLazy]. rewrite (matchArrow_includes _ H).
    rewrite (IH _ (includes_tail _ _ _ H)). destruct (isLineTerminator c); reflexivity.
Qed.

(** A key in which the arrow does not occur is no relation key. *)
Lemma matchRelationKey_without_arrow relationKey :
  includes relationKey "->" = false -> matchRelationKey relationKey = None.
Proof.
  intros H. destruct relationKey as [|c rest]; [reflexivity|].
  unfold matchRelationKey. rewrite (matchLazy_includes _ _ (includes_tail _ _ _ H)).
  destruct (isLineTerminator c); reflexivity.
Qed.

Lemma forEach_skips {S A} (body : A -> Eff S unit) (l : list A) s :
  (forall x, In x l -> body x s = (s, Returned tt)) ->
  forEach l body s = (s, Returned tt).
Proof.
  induction l as [|x l IH]; intros H; simpl; [reflexivity|].
  unfold bind. rewrite (H x (or_introl eq_refl)). apply IH.
  intros y Hy. apply H. right. exact Hy.
Qed.

(** X5.  Relation keys without the arrow are skipped without a trace:
    when no key of the events contains "->", the call returns and the
    store is exactly as before, whatever the impact values are. *)
Theorem keys_without_arrow_are_skipped
    (now : Z) (events : list MemoryEvent) (data : OpenVaultData) :
  noArrowKeys events ->
  updateRelationshipsFromEvents now events data = (data, Returned tt).
Proof.
  intros Hkeys. unfold updateRelationshipsFromEvents, onRelationships, updateRelationships.
  rewrite forEach_skips.
  - destruct data; reflexivity.
  - intros event He. apply forEach_skips. intros [key v] Hentry.
    unfold applyImpact. rewrite matchRelationKey_without_arrow; [reflexivity|].
    exact (Hkeys event (key, v) He Hentry).
Qed.

Lemma matchTail_spaced ws b :
  allWhiteSpace ws = true -> plainName b = true -> matchTail (ws +:+ b) = Some b.
Proof.
  intros Hws Hb. induction ws as [|c ws IH].
  - rewrite append_empty_l. apply matchTail_plain, Hb.
  - simpl in Hws. apply andb_true_iff in Hws as [Hc Hws].
    rewrite append_cons. cbn [matchTail]. rewrite Hc, (IH Hws). reflexivity.
Qed.

Lemma matchArrow_spaced ws t b :
  allWhiteSpace ws = true -> matchTail t = Some b ->
  matchArrow (ws +:+ "->" +:+ t) = Some b.
Proof.
  intros Hws Ht. induction ws as [|c ws IH].
  - rewrite append_empty_l, !append_cons, append_empty_l.
    cbn [matchArrow matchArrowHere]. simpl. exact Ht.
  - simpl in Hws. apply andb_true_iff in Hws as [Hc Hws].
    rewrite append_cons. cbn [matchArrow]. rewrite Hc, (IH Hws). reflexivity.
Qed.

Lemma matchLazy_then a' : forall acc rest b,
  allPlain a' = true -> matchArrow rest = Some b ->
  matchLazy acc (a' +:+ rest) = Some (acc +:+ a', b).
Proof.
  induction a' as [|c a' IH]; intros acc rest b Ha Hrest.
  - rewrite append_empty_l, append_empty_r.
    destruct rest; cbn [matchLazy]; rewrite Hrest; reflexivity.
  - simpl in Ha. apply andb_true_iff in Ha as [Hc Ha].
    pose proof (plainChar_spec c Hc) as (Hw & Hd & _).
    rewrite append_cons. cbn [matchLazy matchArrow]. rewrite Hw.
    assert (Hhere : matchArrowHere (String c (a' +:+ rest)) = None).
    { unfold matchArrowHere. destruct (a' +:+ rest); [reflexivity|].
      rewrite Hd. reflexivity. }
    rewrite Hhere, (whiteSpace_of_lineTerminator c Hw), (IH _ rest b Ha Hrest).
    rewrite append_assoc. reflexivity.
Qed.

(** X6.  The pattern of relation keys tolerates white space around the
    arrow: for plain names, a key written with any white space before and
    after "->" is read as the same pair, and so falls on the same record,
    as the key written without. *)
Theorem relation_key_tolerates_white_space (a b ws1 ws2 : string) :
  plainName a = true -> plainName b = true ->
  allWhiteSpace ws1 = true -> allWhiteSpace ws2 = true ->
  matchRelationKey (a +:+ ws1 +:+ "->" +:+ ws2 +:+ b) = Some (a, b)
  /\ matchRelationKey (a +:+ ws1 +:+ "->" +:+ ws2 +:+ b)
     = matchRelationKey (a +:+ "->" +:+ b).
Proof.
  intros Ha Hb H1 H2.
  assert (H : matchRelationKey (a +:+ ws1 +:+ "->" +:+ ws2 +:+ b) = Some (a, b)).
  { pose proof Ha as Ha'. unfold plainName in Ha'.
    apply andb_true_iff in Ha' as [Hne Hp].
    destruct a as [|c a]; [discriminate|]. simpl in Hp.
    apply andb_true_iff in Hp as [Hc Hp].
    pose proof (plainChar_spec c Hc) as (Hw & _ & _).
    rewrite append_cons. unfold matchRelationKey.
    rewrite (whiteSpace_of_lineTerminator c Hw).
    rewrite (matchLazy_then a _ (ws1 +:+ "->" +:+ ws2 +:+ b) b Hp).
    - reflexivity.
    - apply matchArrow_spaced; [exact H1|]. apply matchTail_spaced; assumption. }
  split; [exact H|]. rewrite H. symmetry. apply matchRelationKey_plain; assumption.
Qed.

Lemma forEach_returns {S A} (body : A -> Eff S unit) (l : list A) :
  (forall x s, In x l -> snd (body x s) = Returned tt) ->
  forall s, snd (forEach l body s) = Returned tt.
Proof.
  induction l as [|x l IH]; intros H s; simpl; [reflexivity|].
  unfold bind. pose proof (H x s (or_introl eq_refl)) as Hx.
  destruct (body x s) as [s' [[]|e]]; simpl in Hx; [|discriminate].
  apply IH. intros y s0 Hy. apply H. right. exact Hy.
Qed.

(** X7.  [updateRelationshipsFromEvents] throws only on an impact that is
    not a text: when every relationship impact of the events is a string,
    it returns, whatever the keys and the texts are. *)
Theorem text_impacts_never_throw
    (now : Z) (events : list MemoryEvent) (data : OpenVaultData) :
  textImpacts events ->
  snd (updateRelationshipsFromEvents now events data) = Returned tt.
Proof.
  intros Htext. unfold updateRelationshipsFromEvents, onRelationships.
  pose proof (forEach_returns
                (fun event => forEach (relationship_impact event)
                                      (applyImpact now (id event))) events) as H.
  unfold updateRelationships.
  destruct (forEach events _ (relationships data)) as [rels o] eqn:E.
  simpl. specialize (H ltac:(
    intros event s He; apply forEach_returns; intros [key v] s' Hentry;
    pose proof (Htext event (key, v) He Hentry) as Hv; simpl in Hv;
    destruct v; try discriminate; unfold applyImpact;
    destruct (matchRelationKey key) as [[charA charB]|]; reflexivity)
    (relationships data)).
  rewrite E in H. exact H.
Qed.

(** ** One extraction cycle: what it leaves in the store *)

Lemma maxId_bound turns t : In t turns -> turn_id t <= maxId turns.
Proof.
  unfold maxId. intros H. apply (in_map turn_id) in H.
  destruct (map turn_id turns) as [|i ids]; [destruct H|].
  assert (Hfold : forall l a, a <= fold_left Z.max l a
                              /\ forall x, In x l -> x <= fold_left Z.max l a).
  { induction l as [|y l IH]; intros a; simpl; [split; [lia|tauto]|].
    destruct (IH (Z.max a y)) as [H1 H2]. split; [lia|].
    intros x [->|Hx]; [lia|auto]. }
  destruct (Hfold ids i) as [H1 H2]. destruct H as [<-|H]; auto.
Qed.

Lemma orDefault_nonzero x : orDefault x (-1) <> 0.
Proof. destruct x as [[| |]|]; simpl; lia. Qed.

Section CycleEffect.

Variable readEvents : string -> option (list RawEvent).



Lemma storeEvents_marker turns inp events data data' o :
  storeEvents turns inp events data = (data', o) ->
  last_processed_message_id data' = last_processed_message_id data
  \/ last_processed_message_id data'
     = Some (Z.max (orDefault (last_processed_message_id data) (-1)) (maxId turns)).
Proof.
  intros H. destruct o as [[]|e].
  - right. apply storeEvents_run in H as (_ & _ & Hm & _). auto.
  - apply storeEvents_run in H as (_ & _ & _ & _ & Hm).
    destruct (Hm e eq_refl) as [Hs|[_ Hs]]; auto.
Qed.






Lemma extractMemories_idle
    (st : Settings) (chat : list Message) (inp : CycleInput)
    (ids : option (list Z)) (data : OpenVaultData) :
  enabled st = false \/ chat = [] \/ selectTurns st chat data ids = [] ->
  extractMemories readEvents st chat inp ids data = (data, Returned None).
Proof.
  unfold extractMemories. intros [He|[Hc|Ht]].
  - rewrite He. reflexivity.
  - subst chat. destruct (negb (enabled st)); reflexivity.
  - destruct (negb (enabled st)); [reflexivity|].
    destruct chat; [reflexivity|]. rewrite Ht. reflexivity.
Qed.

Lemma extractMemories_undefined
    (st : Settings) (chat : list Message) (inp : CycleInput)
    (ids : option (list Z)) (data : OpenVaultData) :
  snd (extractMemories readEvents st chat inp ids data) = Returned None ->
  enabled st = false \/ chat = [] \/ selectTurns st chat data ids = [].
Proof.
  intros H. destruct (enabled st) eqn:He; [|auto].
  destruct chat as [|m chat']; [auto|].
  destruct (selectTurns st (m :: chat') data ids) as [|t l] eqn:Et; [auto|].
  exfalso.
  rewrite (extractMemories_cycle readEvents st (m :: chat') inp ids data He)
    in H; [|discriminate|congruence].
  destruct (extractionCycle readEvents st inp (selectTurns st (m :: chat') data ids) data)
    as [d [[r|]|e]] eqn:E; try discriminate.
  exact (extractionCycle_some _ _ _ _ _ _ E).
Qed.

(** X10.  [extractMemories] returns [undefined] exactly when it has
    nothing to do: the extension is disabled, the chat is empty or no
    turn is selected.  Then the store is untouched; in every other case it
    returns a result object or throws. *)
Theorem nothing_to_do
    (st : Settings) (chat : list Message) (inp : CycleInput)
    (ids : option (list Z)) (data : OpenVaultData) :
  (snd (extractMemories readEvents st chat inp ids data) = Returned None
   <-> enabled st = false \/ chat = [] \/ selectTurns st chat data ids = [])
  /\ (snd (extractMemories readEvents st chat inp ids data) = Returned None ->
      fst (extractMemories readEvents st chat inp ids data) = data).
Proof.
  split; [split; [apply extractMemories_undefined|]|].
  - intros H. rewrite (extractMemories_idle _ _ _ _ _ H). reflexivity.
  - intros H.
    rewrite (extractMemories_idle _ _ _ _ _ (extractMemories_undefined _ _ _ _ _ H)).
    reflexivity.
Qed.

(** X11.  The marker never moves back.  The value automatic selection
    reads from it, [last_processed_message_id || -1], is after any cycle
    at least what it was before; and after a cycle that returned with
    events the marker is a number that no turn of the cycle exceeds. *)
Theorem marker_never_moves_back
    (st : Settings) (chat : list Message) (inp : CycleInput)
    (ids : option (list Z)) (data data' : OpenVaultData)
    (o : Outcome (option ExtractionResult)) :
  extractMemories readEvents st chat inp ids data = (data', o) ->
  orDefault (last_processed_message_id data) (-1)
    <= orDefault (last_processed_message_id data') (-1)
  /\ (forall r, o = Returned (Some r) -> events_created r <> 0%nat ->
      exists marker, last_processed_message_id data' = Some marker
        /\ forall t, In t (selectTurns st chat data ids) -> turn_id t <= marker).
Proof.
  intros H.
  assert (Hadv : forall m,
            last_processed_message_id data'
            = Some (Z.max (orDefault (last_processed_message_id data) (-1)) m) ->
            orDefault (last_processed_message_id data) (-1)
            <= orDefault (last_processed_message_id data') (-1)).
  { intros m ->. pose proof (orDefault_nonzero (last_processed_message_id data)).
    set (a := orDefault (last_processed_message_id data) (-1)) in *.
    destruct (Z.max a m) eqn:E; simpl; lia. }
  split.
  - assert (Hcase : o = Returned None \/ o <> Returned None)
    by (destruct o as [[r|]|e]; [right|left|right]; congruence).
  destruct Hcase as [->|Ho].
    { pose proof (extractMemories_undefined st chat inp ids data) as Hidle.
      rewrite H in Hidle. specialize (Hidle eq_refl).
      rewrite (extractMemories_idle _ _ inp _ _ Hidle) in H. injection H as <-. lia. }
    apply extractMemories_ran in H as [H _]; [|exact Ho].
    destruct (callLLMForExtraction st inp) as [content|e] eqn:Ecall.
    2: { rewrite (extractionCycle_thrown _ _ _ _ _ _ Ecall) in H.
         injection H as <- _. lia. }
    rewrite (extractionCycle_answered _ _ _ _ _ _ Ecall) in H. simpl in H.
    destruct (parseExtractionResult readEvents content
                (selectTurns st chat data ids) inp) as [|ev evs].
    { injection H as <- _. lia. }
    assert (Hst : exists o', storeEvents (selectTurns st chat data ids) inp
                               (ev :: evs) data = (data', o')).
    { destruct (storeEvents (selectTurns st chat data ids) inp (ev :: evs) data)
        as [d [[]|e]]; injection H as <- _; eauto. }
    destruct Hst as [o' Hst].
    destruct (storeEvents_marker _ _ _ _ _ _ Hst) as [Hm|Hm].
    + rewrite Hm. lia.
    + exact (Hadv _ Hm).
  - intros r -> Hr.
    destruct (returned_cycle_marker readEvents st chat inp ids data data' r H)
      as (_ & _ & Hm).
    eexists. split; [exact (Hm Hr)|]. intros t Ht.
    pose proof (maxId_bound _ _ Ht). lia.
Qed.

End CycleEffect.

(** ** Automatic selection takes a turn once *)

Lemma sliceFrom_skipn {A} (l : list A) (k : Z) :
  exists j, sliceFrom l k = skipn j l.
Proof.
  unfold sliceFrom, slice.
  set (len := Z.of_nat (length l)).
  exists (Z.to_nat (relIndex len k)).
  apply firstn_all2. rewrite length_skipn.
  assert (Hlen : 0 <= len) by (unfold len; lia).
  unfold relIndex. destruct (len <? 0) eqn:E; [apply Z.ltb_lt in E; lia|].
  destruct (k <? 0); unfold len in *; lia.
Qed.

Lemma sorted_app_lt {A} (R : A -> A -> Prop) (l1 l2 : list A) :
  StronglySorted R (l1 ++ l2) -> forall x y, In x l1 -> In y l2 -> R x y.
Proof.
  induction l1 as [|a l1 IH]; intros Hs x y Hx Hy; [destruct Hx|].
  simpl in Hs. apply StronglySorted_inv in Hs as [Hs Hall].
  destruct Hx as [<-|Hx].
  - rewrite List.Forall_forall in Hall. apply Hall. apply in_or_app. right. exact Hy.
  - exact (IH Hs x y Hx Hy).
Qed.

Lemma sorted_filter {A} (R : A -> A -> Prop) (p : A -> bool) (l : list A) :
  StronglySorted R l -> StronglySorted R (List.filter p l).
Proof.
  induction 1 as [|a l Hs IH Hall]; simpl; [constructor|].
  destruct (p a); [|exact IH]. constructor; [exact IH|].
  rewrite List.Forall_forall in *. intros x Hx. apply filter_In in Hx as [Hx _]. auto.
Qed.

Lemma indexed_from_sorted (chat : list Message) : forall k,
  let turns := imap (fun idx m => {| turn_id := Z.of_nat (k + idx);
                                     turn_message := Some m |}) chat in
  StronglySorted byTurnId turns
  /\ forall t, In t turns -> Z.of_nat k <= turn_id t.
Proof.
  induction chat as [|m chat IH]; intros k; simpl.
  - split; [constructor|intros t []].
  - destruct (IH (S k)) as [Hs Hlow].
    assert (Hext : imap ((fun idx m0 => {| turn_id := Z.of_nat (k + idx);
                                          turn_message := Some m0 |}) ∘ S) chat
                   = imap (fun idx m0 => {| turn_id := Z.of_nat (S k + idx);
                                            turn_message := Some m0 |}) chat).
    { apply imap_ext. intros i x _. simpl. do 2 f_equal. lia. }
    rewrite Hext. split.
    + constructor; [exact Hs|]. rewrite List.Forall_forall. intros t Ht.
      unfold byTurnId. simpl. specialize (Hlow t Ht). lia.
    + intros t [<-|Ht]; simpl; [lia|]. specialize (Hlow t Ht). lia.
Qed.

Lemma indexed_sorted chat : StronglySorted byTurnId (indexed chat).
Proof. exact (proj1 (indexed_from_sorted chat 0)). Qed.

(** Of a list in the order of the ids, the turns kept by [slice(-n)], if
    any, reach the highest id. *)
Lemma sliceFrom_reaches_top (l : list Turn) (k : Z) (t : Turn) :
  StronglySorted byTurnId l -> sliceFrom l k <> [] -> In t l ->
  turn_id t <= maxId (sliceFrom l k).
Proof.
  intros Hs Hne Ht. destruct (sliceFrom_skipn l k) as [j Hj]. rewrite Hj in *.
  rewrite <- (firstn_skipn j l) in Ht, Hs. apply in_app_or in Ht as [Ht|Ht].
  - destruct (skipn j l) as [|y rest] eqn:E; [congruence|].
    pose proof (sorted_app_lt _ _ _ Hs t y Ht (or_introl eq_refl)) as Hlt.
    pose proof (maxId_bound (y :: rest) y (or_introl eq_refl)).
    unfold byTurnId in Hlt. lia.
  - apply maxId_bound, Ht.
Qed.

Section Once.

Variable readEvents : string -> option (list RawEvent).

(** X12.  Automatic selection takes a turn once: after a cycle without
    ids that returned with events, the next automatic selection over the
    same chat is empty, older unprocessed turns that did not fit in the
    cycle included, and the next cycle does nothing; provided the marker
    the cycle left is not 0. *)
Theorem automatic_cycle_leaves_nothing
    (st : Settings) (chat : list Message) (inp inp' : CycleInput)
    (data data' : OpenVaultData) (r : ExtractionResult) :
  extractMemories readEvents st chat inp None data = (data', Returned (Some r)) ->
  events_created r <> 0%nat ->
  last_processed_message_id data' <> Some 0 ->
  selectTurns st chat data' None = []
  /\ extractMemories readEvents st chat inp' None data' = (data', Returned None).
Proof.
  intros H Hr Hz.
  assert (Hsel : selectTurns st chat data' None = []).
  { pose proof (extractMemories_ran readEvents _ _ _ _ _ _ _ H ltac:(discriminate))
      as [_ Hne].
    destruct (returned_cycle_marker readEvents st chat inp None data data' r H)
      as (_ & _ & Hm). specialize (Hm Hr).
    destruct (selectTurns st chat data' None) as [|t' rest] eqn:E; [reflexivity|].
    exfalso.
    pose proof (selectTurns_automatic st chat data' t') as Ht'.
    rewrite E in Ht'. specialize (Ht' (or_introl eq_refl)) as (Hsys & Hgt & _).
    assert (Hin : In t' (indexed chat)).
    { assert (Hi : In t' (selectTurns st chat data' None))
        by (rewrite E; left; reflexivity).
      unfold selectTurns, sliceFrom in Hi. apply slice_In in Hi.
      apply filter_In in Hi. tauto. }
    set (a := orDefault (last_processed_message_id data) (-1)) in *.
    set (top := maxId (selectTurns st chat data None)) in *.
    assert (Ha' : orDefault (last_processed_message_id data') (-1) = Z.max a top).
    { rewrite Hm. rewrite Hm in Hz. destruct (Z.max a top); [congruence| |]; reflexivity. }
    rewrite Ha' in Hgt.
    assert (Hcand : In t' (List.filter
                             (fun t => negb (turnIsSystem t) && (a <? turn_id t))
                             (indexed chat))).
    { apply filter_In. split; [exact Hin|]. rewrite Hsys. simpl.
      apply Z.ltb_lt. lia. }
    pose proof (sliceFrom_reaches_top _ (- orDefault (messagesPerExtraction st) 5) t'
                  (sorted_filter _ _ _ (indexed_sorted chat)) Hne Hcand) as Htop.
    change (maxId _) with top in Htop. lia. }
  split; [exact Hsel|].
  unfold extractMemories. destruct (negb (enabled st)); [reflexivity|].
  destruct chat; [reflexivity|]. rewrite Hsel. reflexivity.
Qed.

End Once.

(** ** The backfill: which turns, in which batches *)

Lemma firstn_plus {A} (a b : nat) : forall l : list A,
  firstn (a + b) l = firstn a l ++ firstn b (skipn a l).
Proof.
  induction a as [|a IH]; intros l; [reflexivity|].
  destruct l as [|x l]; simpl.
  - rewrite firstn_nil. reflexivity.
  - rewrite IH. reflexivity.
Qed.

(** A slice between two indices that are not negative. *)
Lemma slice_firstn_skipn {A} (l : list A) (a b : Z) :
  0 <= a -> a <= b ->
  slice l a b = firstn (Z.to_nat (b - a)) (skipn (Z.to_nat a) l).
Proof.
  intros Ha Hab. unfold slice, relIndex.
  destruct (a <? 0) eqn:Ea; [apply Z.ltb_lt in Ea; lia|].
  destruct (b <? 0) eqn:Eb; [apply Z.ltb_lt in Eb; lia|].
  set (len := Z.of_nat (length l)).
  destruct (Z.le_gt_cases len a) as [Hout|Hin].
  - rewrite (skipn_all2 (n := Z.to_nat (Z.min a len))) by (unfold len in *; lia).
    rewrite (skipn_all2 (n := Z.to_nat a)) by (unfold len in *; lia).
    rewrite !firstn_nil. reflexivity.
  - rewrite (Z.min_l a len) by lia.
    destruct (Z.le_gt_cases b len) as [Hb|Hb].
    + rewrite (Z.min_l b len) by lia. reflexivity.
    + rewrite (Z.min_r b len) by lia.
      rewrite !firstn_all2; [reflexivity| |]; rewrite length_skipn; unfold len in *; lia.
Qed.

(** A slice from 0 is a beginning of the list. *)
Lemma slice_zero {A} (l : list A) (b : Z) :
  slice l 0 b = firstn (Z.to_nat (relIndex (Z.of_nat (length l)) b)) l.
Proof.
  unfold slice. change (relIndex (Z.of_nat (length l)) 0) with (Z.min 0 (Z.of_nat (length l))).
  rewrite Z.min_l by lia. rewrite Z.sub_0_r. reflexivity.
Qed.

(** Consecutive slices of [n] elements put together give the list back,
    when they reach its end. *)
Lemma chunks_concat {A} (n : Z) (l : list A) (k : nat) :
  0 < n -> Z.of_nat (length l) <= Z.of_nat k * n ->
  concat (map (fun i => slice l (Z.of_nat i * n) (Z.of_nat i * n + n)) (seq 0 k)) = l.
Proof.
  intros Hn Hlen.
  assert (H : forall k, concat (map (fun i => slice l (Z.of_nat i * n) (Z.of_nat i * n + n))
                                   (seq 0 k))
                        = firstn (k * Z.to_nat n) l).
  { clear k Hlen. induction k as [|k IH]; [reflexivity|].
    rewrite seq_S, map_app, concat_app, IH. simpl. rewrite app_nil_r.
    rewrite slice_firstn_skipn by nia.
    replace (Z.to_nat (Z.of_nat k * n + n - Z.of_nat k * n)) with (Z.to_nat n) by lia.
    replace (Z.to_nat (Z.of_nat k * n)) with (k * Z.to_nat n)%nat by nia.
    rewrite (Nat.add_comm (Z.to_nat n)). symmetry. apply firstn_plus. }
  rewrite H. apply firstn_all2. nia.
Qed.

(** X13.  The batches of a backfill run, taken in order, are exactly the
    turns of the run: no turn is handed to two cycles and none is left
    out. *)
Theorem batches_partition_backfill_turns
    (st : Settings) (chat : list Message) (data : OpenVaultData) :
  0 < orDefault (messagesPerExtraction st) 5 ->
  concat (map (batchOf (orDefault (messagesPerExtraction st) 5)
                       (backfillTurns st chat data))
              (seq 0 (Z.to_nat (completeBatches st chat data))))
  = backfillTurns st chat data.
Proof.
  intros Hpos. unfold batchOf. apply chunks_concat; [exact Hpos|].
  pose proof (backfillTurns_length st chat data Hpos) as Hlen. simpl in Hlen.
  rewrite Hlen.
  assert (0 <= completeBatches st chat data).
  { unfold completeBatches. apply Z.div_pos; lia. }
  rewrite Z2Nat.id by lia. lia.
Qed.

Lemma allMessageIds_spec chat data t :
  In t (allMessageIds chat data) <->
  0 <= t < Z.of_nat (length chat) /\ t ∉ alreadyExtracted data.
Proof.
  unfold allMessageIds. rewrite filter_In.
  rewrite (imap_ext _ (fun idx _ => Z.of_nat (0 + idx))) by reflexivity.
  rewrite imap_indices, in_map_iff, bool_decide_eq_true. split.
  - intros [(n & <- & Hn) Hx]. apply in_seq in Hn. split; [lia|exact Hx].
  - intros [Hr Hx]. split; [|exact Hx]. exists (Z.to_nat t). split; [lia|].
    apply in_seq. lia.
Qed.

(** X14.  A backfill takes a beginning of the turns that have no memory
    yet and keeps off the rest: what is left over has at least
    [messagesPerExtraction] turns (all of them, when there are fewer), and
    every turn taken is an index of the chat from which no stored memory
    was extracted. *)
Theorem backfill_keeps_off_recent_turns
    (st : Settings) (chat : list Message) (data : OpenVaultData) :
  let messageCount := orDefault (messagesPerExtraction st) 5 in
  0 < messageCount ->
  (exists rest,
      allMessageIds chat data = backfillTurns st chat data ++ rest
      /\ Z.min messageCount (Z.of_nat (length (allMessageIds chat data)))
         <= Z.of_nat (length rest))
  /\ forall t, In t (backfillTurns st chat data) ->
       0 <= t < Z.of_nat (length chat) /\ t ∉ alreadyExtracted data.
Proof.
  intros messageCount Hpos.
  assert (Hpre : exists rest,
             allMessageIds chat data = backfillTurns st chat data ++ rest
             /\ Z.min messageCount (Z.of_nat (length (allMessageIds chat data)))
                <= Z.of_nat (length rest)).
  { set (all := allMessageIds chat data).
    assert (He : eligible st chat data
                 = firstn (Z.to_nat (Z.max (Z.of_nat (length all) - messageCount) 0)) all).
    { unfold eligible. fold all. fold messageCount. rewrite slice_zero.
      unfold relIndex. destruct (- messageCount <? 0) eqn:E;
        [|apply Z.ltb_ge in E; lia].
      reflexivity. }
    assert (Hb : exists m, backfillTurns st chat data = firstn m all
                           /\ (m <= Z.to_nat (Z.max (Z.of_nat (length all) - messageCount) 0))%nat).
    { unfold backfillTurns. fold messageCount.
      destruct (0 <? _) eqn:E.
      - rewrite slice_zero, He, firstn_firstn. eexists. split; [reflexivity|]. lia.
      - rewrite He. eexists. split; [reflexivity|]. lia. }
    destruct Hb as (m & -> & Hm). exists (skipn m all).
    split; [symmetry; apply firstn_skipn|]. rewrite length_skipn. lia. }
  split; [exact Hpre|]. intros t Ht. destruct Hpre as (rest & Hall & _).
  apply allMessageIds_spec. rewrite Hall. apply in_or_app. left. exact Ht.
Qed.

Section BackfillMore.

Variable readEvents : string -> option (list RawEvent).

(** X15.  A backfill needs two full batches of turns without memories:
    one to keep off and one to process.  With a positive batch size it
    has turns to process exactly when there are at least
    [2 * messagesPerExtraction] such turns; with fewer it runs no cycle
    and leaves the store as it is; the final save is not reached. *)
Theorem backfill_needs_two_batches
    (st : Settings) (chat : list Message) (inputs : nat -> CycleInput)
    (data : OpenVaultData) :
  let messageCount := orDefault (messagesPerExtraction st) 5 in
  0 < messageCount ->
  (backfillTurns st chat data = []
   <-> Z.of_nat (length (allMessageIds chat data)) < 2 * messageCount)
  /\ (Z.of_nat (length (allMessageIds chat data)) < 2 * messageCount ->
      forall finalSaveError,
        extractAllMessages readEvents st chat inputs finalSaveError data
        = ({| store := data; totalEvents := 0; batchLog := [] |}, Returned None)).
Proof.
  intros messageCount Hpos.
  pose proof (backfillTurns_length st chat data Hpos) as Hlen.
  fold messageCount in Hlen.
  assert (He : Z.of_nat (length (eligible st chat data))
               = Z.max (Z.of_nat (length (allMessageIds chat data)) - messageCount) 0).
  { unfold eligible. fold messageCount. rewrite slice_zero, length_firstn.
    unfold relIndex. destruct (- messageCount <? 0) eqn:E;
      [|apply Z.ltb_ge in E; lia]. lia. }
  assert (Hiff : backfillTurns st chat data = []
                 <-> Z.of_nat (length (allMessageIds chat data)) < 2 * messageCount).
  { unfold completeBatches in Hlen. fold messageCount in Hlen. rewrite He in Hlen.
    set (len := Z.of_nat (length (allMessageIds chat data))) in *.
    assert (0 <= len) by (unfold len; lia).
    split.
    - intros Hnil. rewrite Hnil in Hlen. simpl in Hlen.
      destruct (Z.lt_ge_cases len (2 * messageCount)) as [Hlt|Hge]; [exact Hlt|].
      exfalso.
      assert (1 <= Z.max (len - messageCount) 0 / messageCount)
        by (apply Z.div_le_lower_bound; lia).
      nia.
    - intros Hlt.
      assert (Z.max (len - messageCount) 0 / messageCount = 0)
        by (apply Z.div_small; lia).
      destruct (backfillTurns st chat data); [reflexivity|]. simpl in Hlen. lia. }
  split; [exact Hiff|]. intros Hlt finalSaveError. apply Hiff in Hlt.
  unfold extractAllMessages. destruct chat; [reflexivity|]. rewrite Hlt. reflexivity.
Qed.

End BackfillMore.

(** X16.  The delay between two batches respects the configured rate:
    for the rate the settings panel stores (between 1 and 600 requests
    per minute, 30 when the input is no number or 0), the delay is the
    least number of milliseconds such that [rate] delays fill a minute,
    and it lies between 100 ms and one minute. *)
Theorem backfill_delay_respects_rate (value : option Z) :
  let rpm := readBackfillRPM value in
  let delay := delayMs (Some rpm) in
  1 <= rpm <= 600
  /\ 60000 <= delay * rpm
  /\ (delay - 1) * rpm < 60000
  /\ 100 <= delay <= 60000.
Proof.
  intros rpm delay.
  assert (Hr : 1 <= rpm <= 600) by (unfold rpm, readBackfillRPM; lia).
  assert (Hd : delay = - ((- 60000) / rpm)).
  { unfold delay, delayMs. destruct rpm eqn:E; try lia. reflexivity. }
  pose proof (Z.div_mod (- 60000) rpm ltac:(lia)) as Hdm.
  pose proof (Z.mod_pos_bound (- 60000) rpm ltac:(lia)) as Hm.
  split; [exact Hr|]. rewrite Hd. split; [nia|]. split; nia.
Qed.

(** ** Sorting *)

Lemma insertBy_perm {A} (g : A -> A -> bool) (x : A) (l : list A) :
  Permutation (insertBy g x l) (x :: l).
Proof.
  induction l as [|y l IH]; simpl; [reflexivity|].
  destruct (g x y); [|reflexivity].
  rewrite IH. apply perm_swap.
Qed.

Lemma sortBy_perm {A} (g : A -> A -> bool) (l : list A) :
  Permutation (fold_right (insertBy g) [] l) l.
Proof.
  induction l as [|x l IH]; simpl; [reflexivity|].
  rewrite insertBy_perm, IH. reflexivity.
Qed.

Lemma insertBy_sorted {A} (R : A -> A -> Prop) (g : A -> A -> bool) (x : A) (l : list A) :
  (forall a b c, R a b -> R b c -> R a c) ->
  (forall a b, g a b = true -> R b a) ->
  (forall a b, g a b = false -> R a b) ->
  StronglySorted R l -> StronglySorted R (insertBy g x l).
Proof.
  intros Htrans Hafter Hbefore. induction 1 as [|y l Hs IH Hall]; simpl.
  - constructor; constructor.
  - destruct (g x y) eqn:E.
    + constructor; [exact IH|]. rewrite List.Forall_forall in *. intros z Hz.
      apply (Permutation_in _ (insertBy_perm g x l)) in Hz. destruct Hz as [<-|Hz]; auto.
    + constructor; [constructor; assumption|].
      constructor; [auto|]. rewrite List.Forall_forall in *. intros z Hz.
      apply (Htrans _ y); auto.
Qed.

Lemma sortBy_sorted {A} (R : A -> A -> Prop) (g : A -> A -> bool) (l : list A) :
  (forall a b c, R a b -> R b c -> R a c) ->
  (forall a b, g a b = true -> R b a) ->
  (forall a b, g a b = false -> R a b) ->
  StronglySorted R (fold_right (insertBy g) [] l).
Proof.
  intros Htrans Hafter Hbefore. induction l as [|x l IH]; simpl; [constructor|].
  apply insertBy_sorted; assumption.
Qed.

(** An insertion sort is stable: elements that do not pass one another
    keep their order. *)
Lemma insertBy_filter {A} (p : A -> bool) (g : A -> A -> bool) (x : A) (l : list A) :
  (forall a b, p a = true -> p b = true -> g a b = false) ->
  List.filter p (insertBy g x l) = List.filter p (x :: l).
Proof.
  intros Hp. induction l as [|y l IH]; [reflexivity|].
  cbn [insertBy]. destruct (g x y) eqn:E; [|reflexivity].
  cbn [List.filter] in *. rewrite IH.
  destruct (p x) eqn:Ex, (p y) eqn:Ey; try reflexivity.
  rewrite (Hp x y Ex Ey) in E. discriminate.
Qed.

Lemma sortBy_filter {A} (p : A -> bool) (g : A -> A -> bool) (l : list A) :
  (forall a b, p a = true -> p b = true -> g a b = false) ->
  List.filter p (fold_right (insertBy g) [] l) = List.filter p l.
Proof.
  intros Hp. induction l as [|x l IH]; [reflexivity|].
  cbn [fold_right]. rewrite (insertBy_filter p g _ _ Hp).
  cbn [List.filter]. rewrite IH. reflexivity.
Qed.

Lemma insertScored_insertBy x l :
  insertScored x l = insertBy (fun x y => Qlt_bool (snd x) (snd y)) x l.
Proof. induction l as [|y l IH]; simpl; [reflexivity|]. rewrite IH. reflexivity. Qed.

Lemma sortScored_sortBy l :
  sortScored l = fold_right (insertBy (fun x y => Qlt_bool (snd x) (snd y))) [] l.
Proof.
  unfold sortScored. induction l as [|x l IH]; simpl; [reflexivity|].
  rewrite IH. apply insertScored_insertBy.
Qed.

Lemma insertOldest_insertBy x l :
  insertOldest x l = insertBy (fun x y => Qlt_bool (snd y) (snd x)) x l.
Proof. induction l as [|y l IH]; simpl; [reflexivity|]. rewrite IH. reflexivity. Qed.

Lemma sortOldestFirst_sortBy l :
  sortOldestFirst l = fold_right (insertBy (fun x y => Qlt_bool (snd y) (snd x))) [] l.
Proof.
  unfold sortOldestFirst. induction l as [|x l IH]; simpl; [reflexivity|].
  rewrite IH. apply insertOldest_insertBy.
Qed.

Lemma Qlt_bool_false (a b : Q) : Qlt_bool a b = false <-> (b <= a)%Q.
Proof.
  unfold Qlt_bool. rewrite negb_false_iff. apply Qle_bool_iff.
Qed.

Lemma paired_map f mems : paired f (map (fun m => (m, f m)) mems).
Proof. intros e He. apply in_map_iff in He as (m & <- & _). reflexivity. Qed.

Lemma paired_perm f l l' : Permutation l l' -> paired f l' -> paired f l.
Proof. intros Hp H e He. apply H. exact (Permutation_in _ Hp He). Qed.

Lemma sorted_map_fst (f : MemoryEvent -> Q) (R : Q -> Q -> Prop) l :
  paired f l ->
  StronglySorted (fun a b => R (snd a) (snd b)) l ->
  StronglySorted (fun a b => R (f a) (f b)) (map fst l).
Proof.
  intros Hp Hs. induction Hs as [|e l Hs IH Hall]; simpl; [constructor|].
  constructor.
  - apply IH. intros x Hx. apply Hp. right. exact Hx.
  - rewrite List.Forall_forall in *. intros m Hm.
    apply in_map_iff in Hm as (e' & <- & He').
    rewrite <- (Hp e (or_introl eq_refl)), <- (Hp e' (or_intror He')). auto.
Qed.

Lemma filter_map_fst (f : MemoryEvent -> Q) (p : Q -> bool) l :
  paired f l ->
  List.filter (fun m => p (f m)) (map fst l)
  = map fst (List.filter (fun e => p (snd e)) l).
Proof.
  intros Hp. induction l as [|e l IH]; [reflexivity|]. simpl.
  rewrite (Hp e (or_introl eq_refl)), IH by (intros x Hx; apply Hp; right; exact Hx).
  destruct (p (f (fst e))); reflexivity.
Qed.

(** The memories sorted by a key, highest first. *)
Lemma sorted_highest_first (f : MemoryEvent -> Q) (mems : list MemoryEvent) :
  let sorted := map fst (sortScored (map (fun m => (m, f m)) mems)) in
  Permutation sorted mems
  /\ StronglySorted (fun a b => (f b <= f a)%Q) sorted
  /\ forall v, List.filter (fun m => Qeq_bool (f m) v) sorted
               = List.filter (fun m => Qeq_bool (f m) v) mems.
Proof.
  intros sorted. unfold sorted. rewrite sortScored_sortBy.
  set (g := fun x y : MemoryEvent * Q => Qlt_bool (snd x) (snd y)).
  set (pairs := map (fun m => (m, f m)) mems).
  assert (Hperm : Permutation (fold_right (insertBy g) [] pairs) pairs)
    by apply sortBy_perm.
  assert (Hpaired : paired f (fold_right (insertBy g) [] pairs))
    by (eapply paired_perm; [exact Hperm|apply paired_map]).
  split; [|split].
  - rewrite Hperm. unfold pairs. rewrite map_map. simpl. rewrite map_id. reflexivity.
  - apply (sorted_map_fst f (fun a b => (b <= a)%Q)); [exact Hpaired|].
    apply sortBy_sorted.
    + intros a b c Hab Hbc. exact (Qle_trans _ _ _ Hbc Hab).
    + intros a b H. apply Qlt_bool_true in H. apply Qlt_le_weak, H.
    + intros a b H. apply Qlt_bool_false in H. exact H.
  - intros v. rewrite (filter_map_fst f (fun q => Qeq_bool q v)) by exact Hpaired.
    rewrite sortBy_filter.
    + rewrite <- (filter_map_fst f (fun q => Qeq_bool q v)) by apply paired_map.
      unfold pairs. rewrite map_map. simpl. rewrite map_id. reflexivity.
    + intros a b Ha Hb. apply Qeq_bool_iff in Ha, Hb. unfold g.
      apply Qlt_bool_false. rewrite Ha, Hb. apply Qle_refl.
Qed.

(** The memories sorted by a key, lowest first. *)
Lemma sorted_lowest_first (f : MemoryEvent -> Q) (mems : list MemoryEvent) :
  let sorted := map fst (sortOldestFirst (map (fun m => (m, f m)) mems)) in
  Permutation sorted mems
  /\ StronglySorted (fun a b => (f a <= f b)%Q) sorted
  /\ forall v, List.filter (fun m => Qeq_bool (f m) v) sorted
               = List.filter (fun m => Qeq_bool (f m) v) mems.
Proof.
  intros sorted. unfold sorted. rewrite sortOldestFirst_sortBy.
  set (g := fun x y : MemoryEvent * Q => Qlt_bool (snd y) (snd x)).
  set (pairs := map (fun m => (m, f m)) mems).
  assert (Hperm : Permutation (fold_right (insertBy g) [] pairs) pairs)
    by apply sortBy_perm.
  assert (Hpaired : paired f (fold_right (insertBy g) [] pairs))
    by (eapply paired_perm; [exact Hperm|apply paired_map]).
  split; [|split].
  - rewrite Hperm. unfold pairs. rewrite map_map. simpl. rewrite map_id. reflexivity.
  - apply (sorted_map_fst f (fun a b => (a <= b)%Q)); [exact Hpaired|].
    apply sortBy_sorted.
    + intros a b c Hab Hbc. exact (Qle_trans _ _ _ Hab Hbc).
    + intros a b H. apply Qlt_bool_true in H. apply Qlt_le_weak, H.
    + intros a b H. apply Qlt_bool_false in H. exact H.
  - intros v. rewrite (filter_map_fst f (fun q => Qeq_bool q v)) by exact Hpaired.
    rewrite sortBy_filter.
    + rewrite <- (filter_map_fst f (fun q => Qeq_bool q v)) by apply paired_map.
      unfold pairs. rewrite map_map. simpl. rewrite map_id. reflexivity.
    + intros a b Ha Hb. apply Qeq_bool_iff in Ha, Hb. unfold g.
      apply Qlt_bool_false. rewrite Ha, Hb. apply Qle_refl.
Qed.

Lemma sorted_app_l {A} (R : A -> A -> Prop) (l1 l2 : list A) :
  StronglySorted R (l1 ++ l2) -> StronglySorted R l1.
Proof.
  induction l1 as [|a l1 IH]; intros Hs; [constructor|].
  simpl in Hs. apply StronglySorted_inv in Hs as [Hs Hall]. constructor; [auto|].
  rewrite List.Forall_forall in *. intros x Hx. apply Hall, in_or_app. left. exact Hx.
Qed.

(** The first [n] of a sorted list: they are sorted, and come before all
    the others. *)
Lemma sorted_firstn {A} (R : A -> A -> Prop) (n : nat) (sorted mems : list A) :
  Permutation sorted mems -> StronglySorted R sorted ->
  Permutation mems (firstn n sorted ++ skipn n sorted)
  /\ StronglySorted R (firstn n sorted)
  /\ forall x y, In x (firstn n sorted) -> In y (skipn n sorted) -> R x y.
Proof.
  intros Hp Hs. rewrite firstn_skipn. split; [symmetry; exact Hp|].
  rewrite <- (firstn_skipn n sorted) in Hs. split.
  - exact (sorted_app_l _ _ _ Hs).
  - exact (sorted_app_lt _ _ _ Hs).
Qed.

(** ** Memories for the prompt of an extraction *)

Lemma sorted_weaken {A} (R R' : A -> A -> Prop) (l : list A) :
  (forall a b, R a b -> R' a b) -> StronglySorted R l -> StronglySorted R' l.
Proof.
  intros H. induction 1 as [|a l Hs IH Hall]; constructor; [exact IH|].
  rewrite List.Forall_forall in *. auto.
Qed.

Lemma createdKey_le a b :
  (createdKey b <= createdKey a)%Q <-> created_at b <= created_at a.
Proof. unfold createdKey. rewrite <- Zle_Qle. reflexivity. Qed.

Lemma getRecent_firstn count data :
  getRecentMemoriesForContext count data
  = firstn (if count <? 0 then length (memories data)
            else keptBy count (length (memories data)))
           (map fst (sortScored (keyed (memories data)))).
Proof.
  unfold getRecentMemoriesForContext, keptBy.
  pose proof (sorted_highest_first sequenceKey (memories data)) as (Hperm & _).
  fold (keyed (memories data)) in Hperm.
  set (sorted := map fst (sortScored (keyed (memories data)))) in *.
  assert (Hlen : length sorted = length (memories data))
    by (apply Permutation_length, Hperm).
  destruct (count =? 0) eqn:E0.
  - apply Z.eqb_eq in E0. subst count. unfold relIndex.
    change (0 <? 0) with false. cbv iota. rewrite Z.min_l by lia. reflexivity.
  - destruct (count <? 0) eqn:E1.
    + rewrite <- Hlen. symmetry. apply firstn_all.
    + rewrite slice_zero, Hlen. reflexivity.
Qed.

(** X17.  [getRecentMemoriesForContext(count)] gives the most recent
    memories, latest first by the key [sequence ?? created_at]: all of
    them for a negative count, none for 0, else [count] of them or all
    when there are fewer.  The store keeps its own order; what is given
    and what is left out make up the stored memories, and nothing left
    out has a later key than anything given. *)
Theorem recent_memories_newest_first (count : Z) (data : OpenVaultData) :
  let recent := getRecentMemoriesForContext count data in
  length recent
  = (if count <? 0 then length (memories data)
     else Z.to_nat (Z.min count (Z.of_nat (length (memories data)))))
  /\ StronglySorted laterFirst recent
  /\ exists rest,
       Permutation (memories data) (recent ++ rest)
       /\ forall x y, In x recent -> In y rest -> laterFirst x y.
Proof.
  intros recent. unfold recent. rewrite getRecent_firstn.
  pose proof (sorted_highest_first sequenceKey (memories data)) as (Hperm & Hs & _).
  fold (keyed (memories data)) in Hperm, Hs.
  set (sorted := map fst (sortScored (keyed (memories data)))) in *.
  set (n := if count <? 0 then length (memories data)
            else keptBy count (length (memories data))).
  destruct (sorted_firstn laterFirst n sorted (memories data) Hperm Hs)
    as (Hp & Hsn & Hcross).
  split; [|split; [exact Hsn|exists (skipn n sorted); split; assumption]].
  rewrite length_firstn, (Permutation_length Hperm). unfold n, keptBy, relIndex.
  destruct (count <? 0) eqn:E; [apply Z.ltb_lt in E|]; lia.
Qed.

(** X18.  The prompt lists the memories it is given in the order of
    their key [sequence ?? created_at], whatever order they come in: the
    section "Previously Established Memories" holds the memories that
    [getRecentMemoriesForContext] chose, each once, earliest first, and
    memories of the same key in the order they were given. *)
Theorem prompt_lists_memories_oldest_first
    (memoryContextCount : option Z) (data : OpenVaultData) :
  let given := existingMemoriesFor memoryContextCount data in
  let shown := promptMemories given in
  Permutation shown given
  /\ StronglySorted earlierFirst shown
  /\ forall v, List.filter (sequenced v) shown = List.filter (sequenced v) given.
Proof.
  intros given shown. unfold shown, promptMemories, keyed.
  exact (sorted_lowest_first sequenceKey given).
Qed.

(** ** The relevance selector *)

Lemma selectRelevant_firstn nowMs mems recentContext active limit :
  selectRelevantMemories nowMs mems recentContext active limit
  = firstn (keptBy limit (length mems))
      (map fst (sortScored
                  (map (fun m => (m, scoreMemory nowMs recentContext active m)) mems))).
Proof.
  unfold selectRelevantMemories, keptBy.
  pose proof (sorted_highest_first (scoreMemory nowMs recentContext active) mems)
    as (Hperm & _).
  rewrite slice_zero, firstn_map. f_equal. f_equal. f_equal. f_equal.
  rewrite <- (Permutation_length Hperm), length_map. reflexivity.
Qed.


(** ** The relationships shown to a character *)

Lemma getRelationshipContext_In entries pov active s :
  In s (getRelationshipContext entries pov active) <->
  exists key rel, In (key, rel) entries
    /\ involvesPov pov rel = true /\ involvesActive pov active rel = true
    /\ s = summaryOf pov rel.
Proof.
  induction entries as [|[key rel] entries IH]; simpl.
  - split; [intros []|intros (k & r & [] & _)].
  - destruct (involvesPov pov rel && involvesActive pov active rel) eqn:E.
    + apply andb_true_iff in E as [E1 E2]. simpl. rewrite IH. split.
      * intros [<-|(k & r & Hin & H)]; [exists key, rel; auto|].
        exists k, r. tauto.
      * intros (k & r & [[= -> ->]|Hin] & H1 & H2 & ->); [left; reflexivity|].
        right. exists k, r. auto.
    + rewrite IH. split.
      * intros (k & r & Hin & H). exists k, r. tauto.
      * intros (k & r & [[= -> ->]|Hin] & H1 & H2 & ->).
        -- rewrite H1, H2 in E. discriminate.
        -- exists k, r. auto.
Qed.

Lemma entriesOf_In data entries key rel :
  entriesOf data entries ->
  In (key, rel) entries <-> relationships data !! key = Some rel.
Proof.
  intros Hp. unfold entriesOf in Hp.
  rewrite <- elem_of_map_to_list, <- list_elem_of_In, Hp. reflexivity.
Qed.

(** X21.  The relationship context of a character holds a summary for
    each stored relationship between that character and an active
    character other than itself, in either direction, and nothing else,
    in whatever order the relationships were stored: every summary names
    an active character that is not the viewing character and carries
    the trust, tension and type of a stored record that joins the two. *)
Theorem relationship_context_is_about_others
    (data : OpenVaultData) (entries : list (string * Relationship))
    (povCharacter : string) (active : list string) (s : RelationshipSummary) :
  entriesOf data entries ->
  In s (getRelationshipContext entries povCharacter active) <->
  exists key rel,
    relationships data !! key = Some rel
    /\ In (rel_character s) active /\ rel_character s <> povCharacter
    /\ ((character_a rel = povCharacter /\ character_b rel = rel_character s)
        \/ (character_b rel = povCharacter /\ character_a rel = rel_character s))
    /\ s = summaryOf povCharacter rel.
Proof.
  intros Hentries. rewrite getRelationshipContext_In. split.
  - intros (key & rel & Hin & Hpov & Hact & ->).
    exists key, rel. apply (entriesOf_In data entries key rel Hentries) in Hin.
    split; [exact Hin|].
    unfold involvesActive in Hact. apply existsb_exists in Hact as (c & Hc & Hcond).
    apply andb_true_iff in Hcond as [Hne Hside]. apply negb_true_iff in Hne.
    apply String.eqb_neq in Hne. apply orb_true_iff in Hside.
    unfold involvesPov in Hpov. apply orb_true_iff in Hpov.
    rewrite !String.eqb_eq in Hside, Hpov. unfold summaryOf. simpl.
    destruct (String.eqb (character_a rel) povCharacter) eqn:Ea.
    + apply String.eqb_eq in Ea.
      assert (character_b rel = c) by (destruct Hside; congruence).
      subst c. repeat split; auto.
    + apply String.eqb_neq in Ea.
      assert (character_b rel = povCharacter) by (destruct Hpov; congruence).
      assert (character_a rel = c) by (destruct Hside; congruence).
      subst c. repeat split; auto.
  - intros (key & rel & Hin & Hact & Hne & Hside & ->).
    exists key, rel. split; [apply (entriesOf_In data entries key rel Hentries), Hin|].
    split; [|split; [|reflexivity]].
    + unfold involvesPov. apply orb_true_iff. rewrite !String.eqb_eq. tauto.
    + unfold involvesActive. apply existsb_exists.
      exists (rel_character (summaryOf povCharacter rel)). split; [exact Hact|].
      apply andb_true_iff. split.
      * apply negb_true_iff, String.eqb_neq, Hne.
      * apply orb_true_iff. rewrite !String.eqb_eq. destruct Hside as [[_ H]|[_ H]]; auto.
Qed.

(** ** What the formatter returns *)

(** X22.  The formatter fills the space for memories greedily: the
    memories it keeps are a beginning of the list whose estimated cost,
    [length/4 + 5] each, fits in what is available, and when a memory is
    left out the first one left out would not have fitted. *)
Theorem truncation_is_greedy
    (available : Q) (mems : list MemoryEvent) :
  let kept := truncateMemories available 0 mems in
  exists rest,
    mems = kept ++ rest
    /\ (kept <> [] -> (tokensOf kept <= available)%Q)
    /\ match rest with
       | [] => True
       | m :: _ => (available < tokensOf kept + memoryTokens m)%Q
       end.
Proof.
  intros kept. unfold kept.
  assert (H : forall mems current,
             exists rest,
               mems = truncateMemories available current mems ++ rest
               /\ (truncateMemories available current mems <> [] ->
                   (current + tokensOf (truncateMemories available current mems)
                    <= available)%Q)
               /\ match rest with
                  | [] => True
                  | m :: _ =>
                      (available
                       < current + tokensOf (truncateMemories available current mems)
                         + memoryTokens m)%Q
                  end).
  { clear mems kept. induction mems as [|m mems IH]; intros current; simpl.
    - exists []. split; [reflexivity|]. split; [congruence|exact I].
    - destruct (Qle_bool (current + memoryTokens m) available) eqn:E.
      + destruct (IH (current + memoryTokens m)%Q) as (rest & Hsplit & Hfit & Hnext).
        exists rest. split; [simpl; f_equal; exact Hsplit|]. split.
        * intros _. simpl.
          destruct (truncateMemories available (current + memoryTokens m) mems) eqn:Et.
          -- simpl. apply Qle_bool_iff in E. rewrite Qplus_0_r. exact E.
          -- rewrite Qplus_assoc. apply Hfit. discriminate.
        * destruct rest as [|m' rest']; [exact I|]. simpl.
          rewrite Qplus_assoc. exact Hnext.
      + exists (m :: mems). split; [reflexivity|]. split; [congruence|]. simpl.
        rewrite Qplus_0_r. apply Qlt_bool_true. unfold Qlt_bool. rewrite E. reflexivity. }
  destruct (H mems 0%Q) as (rest & Hsplit & Hfit & Hnext).
  exists rest. split; [exact Hsplit|]. split.
  - intros Hne. rewrite <- (Qplus_0_l (tokensOf _)). apply Hfit, Hne.
  - destruct rest; [exact I|]. rewrite <- (Qplus_0_l (tokensOf _)). exact Hnext.
Qed.

(** X23.  What the formatter returns is the full text for a beginning of
    the memory list: memories are dropped from the end only, never
    reordered or cut, and the header, the emotional state, the
    relationships and the footer are always there.  Its estimate fits the
    budget doubled once for each nested call, so it can exceed the budget
    that was asked for. *)
Theorem formatter_returns_text_of_a_prefix
    (fuel : nat) (rels : list RelationshipSummary)
    (emotionalState characterName : string) :
  forall (mems : list MemoryEvent) (tokenBudget : Q) (text : string),
  formatContextForInjection fuel mems rels emotionalState characterName tokenBudget
  = Some text ->
  exists kept rest depth,
    mems = kept ++ rest
    /\ text = fullText kept rels emotionalState characterName
    /\ (depth <= fuel)%nat
    /\ (estimatedTokens text <= tokenBudget * pow2 depth)%Q
    /\ (depth = 0%nat -> kept = mems).
Proof.
  induction fuel as [|fuel IH]; intros mems tokenBudget text H;
    rewrite formatContextForInjection_step in H;
    destruct (Qlt_bool tokenBudget
                (lengthQ (fullText mems rels emotionalState characterName) / 4)) eqn:E;
    try discriminate.
  - injection H as <-. exists mems, [], 0%nat. rewrite app_nil_r.
    apply Qlt_bool_false in E. change (pow2 0) with 1%Q. rewrite Qmult_1_r.
    repeat split; auto.
  - destruct (IH _ _ _ H) as (kept & rest & depth & Hsplit & Htext & Hd & Hest & _).
    destruct (truncateMemories_prefix
                (tokenBudget
                 - overheadTokens (contextLines mems rels emotionalState characterName))
                mems 0%Q) as [rest' Hrest'].
    exists kept, (rest ++ rest'), (S depth). split.
    { rewrite Hrest' at 1. rewrite Hsplit at 1. rewrite <- app_assoc. reflexivity. }
    split; [exact Htext|]. split; [lia|]. split; [|discriminate].
    eapply Qle_trans; [exact Hest|]. rewrite pow2_succ.
    apply Qle_lteq. right. ring.
  - injection H as <-. exists mems, [], 0%nat. rewrite app_nil_r.
    apply Qlt_bool_false in E. change (pow2 0) with 1%Q. rewrite Qmult_1_r.
    repeat split; auto; lia.
Qed.

(** The two facts above, in the form the retrieval needs. *)
Lemma formatter_terminates_steps mems rels emotionalState characterName tokenBudget :
  (0 < tokenBudget)%Q ->
  exists text, forall fuel,
    (depthBound mems rels emotionalState characterName tokenBudget <= fuel)%nat ->
    formatContextForInjection fuel mems rels emotionalState characterName tokenBudget
    = Some text.
Proof. intros Hpos. apply format_within. apply budget_reaches, Hpos. Qed.

Lemma formatter_prefix fuel : forall mems rels emotionalState characterName tokenBudget text,
  formatContextForInjection fuel mems rels emotionalState characterName tokenBudget
  = Some text ->
  exists kept rest,
    mems = kept ++ rest /\ text = fullText kept rels emotionalState characterName.
Proof.
  induction fuel as [|fuel IH]; intros mems rels emotionalState characterName
    tokenBudget text H;
    rewrite formatContextForInjection_step in H;
    destruct (Qlt_bool tokenBudget
                (lengthQ (fullText mems rels emotionalState characterName) / 4));
    try discriminate.
  - injection H as <-. exists mems, []. rewrite app_nil_r. auto.
  - destruct (IH _ _ _ _ _ _ H) as (kept & rest & Hsplit & Htext).
    destruct (truncateMemories_prefix
                (tokenBudget
                 - overheadTokens (contextLines mems rels emotionalState characterName))
                mems 0%Q) as [rest' Hrest'].
    exists kept, (rest ++ rest'). split; [|exact Htext].
    rewrite Hrest' at 1. rewrite Hsplit at 1. rewrite <- app_assoc. reflexivity.
  - injection H as <-. exists mems, []. rewrite app_nil_r. auto.
Qed.

(** ** Retrieval, end to end *)

Lemma memoriesToUse_nonempty data characterName :
  memories data <> [] -> memoriesToUse data characterName <> [].
Proof.
  intros H. unfold memoriesToUse.
  destruct (accessibleMemories data characterName) as [|a l]; [|discriminate].
  destruct (memories data); [congruence|]. simpl. discriminate.
Qed.

Lemma memoriesToUse_In data characterName m :
  In m (memoriesToUse data characterName) -> In m (memories data).
Proof.
  unfold memoriesToUse.
  destruct ((length (accessibleMemories data characterName) =? 0)%nat
            && (0 <? length (memories data))%nat); [auto|].
  unfold accessibleMemories. intros H. apply filter_In in H. tauto.
Qed.

Lemma selectRelevant_In nowMs mems recentContext active limit m :
  In m (selectRelevantMemories nowMs mems recentContext active limit) -> In m mems.
Proof.
  rewrite selectRelevant_firstn. intros H.
  pose proof (sorted_highest_first (scoreMemory nowMs recentContext active) mems)
    as (Hperm & _).
  apply (Permutation_in _ Hperm).
  rewrite <- (firstn_skipn (keptBy limit (length mems))). apply in_or_app. left. exact H.
Qed.

Lemma selectRelevant_length nowMs mems recentContext active limit :
  length (selectRelevantMemories nowMs mems recentContext active limit)
  = keptBy limit (length mems).
Proof.
  rewrite selectRelevant_firstn.
  pose proof (sorted_highest_first (scoreMemory nowMs recentContext active) mems)
    as (Hperm & _).
  rewrite length_firstn, (Permutation_length Hperm). unfold keptBy, relIndex.
  destruct (limit <? 0) eqn:E; [apply Z.ltb_lt in E|]; lia.
Qed.

(** With a budget that is not positive the formatter calls itself for
    ever, whatever it is given: it uses up every stack. *)
Lemma nonpositive_budget_never_returns fuel :
  forall mems rels emotionalState characterName tokenBudget,
  (tokenBudget <= 0)%Q ->
  formatContextForInjection fuel mems rels emotionalState characterName tokenBudget
  = None.
Proof.
  induction fuel as [|fuel IH];
    intros mems rels emotionalState characterName tokenBudget Hb;
    rewrite formatContextForInjection_step;
    assert (E : Qlt_bool tokenBudget
                  (lengthQ (fullText mems rels emotionalState characterName) / 4)
                = true).
  1, 3: apply Qlt_bool_true; apply (Qle_lt_trans _ 0); [exact Hb|];
        unfold lengthQ, Qdiv, Qlt; simpl;
        pose proof (fullText_not_empty mems rels emotionalState characterName); lia.
  - rewrite E. reflexivity.
  - rewrite E. apply IH.
    destruct tokenBudget as [n d]. unfold Qle in *. simpl in *. lia.
Qed.

(** A deeper stack does not change what the formatter returns. *)
Lemma formatter_monotone fuel :
  forall mems rels emotionalState characterName tokenBudget text fuel',
  formatContextForInjection fuel mems rels emotionalState characterName tokenBudget
  = Some text ->
  (fuel <= fuel')%nat ->
  formatContextForInjection fuel' mems rels emotionalState characterName tokenBudget
  = Some text.
Proof.
  induction fuel as [|fuel IH];
    intros mems rels emotionalState characterName tokenBudget text fuel' H Hle;
    rewrite formatContextForInjection_step in H;
    rewrite formatContextForInjection_step;
    destruct (Qlt_bool tokenBudget
                (lengthQ (fullText mems rels emotionalState characterName) / 4));
    try discriminate; try exact H.
  destruct fuel' as [|fuel']; [lia|]. apply (IH _ _ _ _ _ _ _ H). lia.
Qed.

(** X24.  Retrieval end to end.  With the extension disabled, an empty
    chat, an empty store or a token budget that is not positive,
    [retrieveAndInjectContext] returns [null] (with such a budget the
    formatter recurses until the stack is used up, and the error is
    caught).  Otherwise, for a positive limit and a positive token
    budget, it returns at least one and at most
    [maxMemoriesPerRetrieval] memories, each of them a stored memory
    that the point-of-view step let through for the main character,
    together with a text that renders a beginning of these memories with
    the relationships in the order the store has them; this for every
    stack that is deep enough, and on a shallower stack the same or
    [null]. *)
Theorem retrieval_end_to_end
    (rs : RetrievalSettings) (ctx : ChatContext) (nowMs : Z)
    (entries : list (string * Relationship))
    (inheritedEmotion : string -> option string) (data : OpenVaultData) :
  (retrievalEnabled rs = false \/ chatMessages ctx = [] \/ memories data = []
   \/ (tokenBudget rs <= 0)%Q ->
   forall stackDepth,
     retrieveAndInjectContext stackDepth rs ctx nowMs entries inheritedEmotion data
     = None)
  /\ (retrievalEnabled rs = true -> chatMessages ctx <> [] -> memories data <> [] ->
      0 < maxMemoriesPerRetrieval rs -> (0 < tokenBudget rs)%Q ->
      exists r bound,
        (forall stackDepth, (bound <= stackDepth)%nat ->
           retrieveAndInjectContext stackDepth rs ctx nowMs entries inheritedEmotion
             data
           = Some r)
        /\ (forall stackDepth,
              retrieveAndInjectContext stackDepth rs ctx nowMs entries
                inheritedEmotion data = None
              \/ retrieveAndInjectContext stackDepth rs ctx nowMs entries
                   inheritedEmotion data = Some r)
        /\ retrieved r <> []
        /\ Z.of_nat (length (retrieved r)) <= maxMemoriesPerRetrieval rs
        /\ (forall m, In m (retrieved r) ->
              In m (memoriesToUse data (name2 ctx)) /\ In m (memories data))
        /\ exists kept rest,
             retrieved r = kept ++ rest
             /\ contextText r
                = fullText kept
                    (getRelationshipContext entries (name2 ctx)
                       (getActiveCharacters ctx))
                    (emotionalStateOf inheritedEmotion data (name2 ctx))
                    (name2 ctx)).
Proof.
  split.
  - intros H stackDepth. unfold retrieveAndInjectContext.
    destruct (retrievalEnabled rs); [|reflexivity]. simpl.
    destruct (chatMessages ctx); [reflexivity|].
    destruct (memories data); [reflexivity|].
    destruct H as [H|[H|[H|H]]]; try discriminate.
    destruct (memoriesToUse _ _); [reflexivity|].
    destruct (selectRelevantMemories _ _ _ _ _); [reflexivity|].
    rewrite nonpositive_budget_never_returns by exact H. reflexivity.
  - intros He Hc Hm Hlimit Hbudget.
    set (toUse := memoriesToUse data (name2 ctx)).
    set (selected := selectRelevantMemories nowMs toUse
                       (recentMessages (chatMessages ctx)) (getActiveCharacters ctx)
                       (maxMemoriesPerRetrieval rs)).
    set (rels := getRelationshipContext entries (name2 ctx)
                   (getActiveCharacters ctx)).
    set (emotion := emotionalStateOf inheritedEmotion data (name2 ctx)).
    assert (HtoUse : toUse <> []) by (apply memoriesToUse_nonempty, Hm).
    assert (Hlen : length selected
                   = keptBy (maxMemoriesPerRetrieval rs) (length toUse))
      by apply selectRelevant_length.
    assert (Hsel : selected <> []).
    { intros Hnil. rewrite Hnil in Hlen. simpl in Hlen.
      unfold keptBy, relIndex in Hlen.
      destruct (maxMemoriesPerRetrieval rs <? 0) eqn:E; [apply Z.ltb_lt in E; lia|].
      destruct toUse; [congruence|]. simpl in Hlen. lia. }
    destruct (formatter_terminates_steps selected rels emotion (name2 ctx)
                (tokenBudget rs) Hbudget) as [text Htext].
    set (bound := depthBound selected rels emotion (name2 ctx) (tokenBudget rs)) in *.
    assert (Hrun : forall stackDepth,
               retrieveAndInjectContext stackDepth rs ctx nowMs entries
                 inheritedEmotion data
               = match formatContextForInjection stackDepth selected rels emotion
                         (name2 ctx) (tokenBudget rs) with
                 | Some formatted =>
                     Some {| retrieved := selected; contextText := formatted |}
                 | None => None
                 end).
    { intros stackDepth. unfold retrieveAndInjectContext. rewrite He. simpl.
      destruct (chatMessages ctx) eqn:Ec; [congruence|].
      destruct (memories data) eqn:Em; [congruence|].
      fold toUse. destruct toUse as [|t0 toUse'] eqn:Et; [congruence|].
      fold selected. destruct selected as [|s0 selected'] eqn:Es; [congruence|].
      reflexivity. }
    exists {| retrieved := selected; contextText := text |}, bound.
    split_and!.
    + intros stackDepth Hdepth. rewrite Hrun, (Htext stackDepth Hdepth). reflexivity.
    + intros stackDepth. rewrite Hrun.
      destruct (formatContextForInjection stackDepth selected rels emotion
                  (name2 ctx) (tokenBudget rs)) as [formatted|] eqn:Ef; [|auto].
      right.
      pose proof (formatter_monotone _ _ _ _ _ _ _ (Nat.max stackDepth bound) Ef
                    (Nat.le_max_l _ _)) as H1.
      rewrite (Htext _ (Nat.le_max_r _ _)) in H1. injection H1 as ->. reflexivity.
    + exact Hsel.
    + simpl. rewrite Hlen. unfold keptBy, relIndex.
      destruct (maxMemoriesPerRetrieval rs <? 0) eqn:E; [apply Z.ltb_lt in E|]; lia.
    + simpl. intros m Hin. apply selectRelevant_In in Hin.
      split; [exact Hin|]. exact (memoriesToUse_In _ _ _ Hin).
    + simpl.
      destruct (formatter_prefix _ _ _ _ _ _ _ (Htext _ (Nat.le_refl _)))
        as (kept & rest & Hsplit & Ht).
      exists kept, rest. auto.
Qed.

(** ** Deleting a memory *)

Lemma findIndex_Some {A} (p : A -> bool) (l : list A) : forall i,
  findIndex p l = Some i ->
  exists before x after,
    l = before ++ x :: after /\ length before = i /\ p x = true
    /\ forall y, In y before -> p y = false.
Proof.
  induction l as [|a l IH]; intros i H; [discriminate|]. simpl in H.
  destruct (p a) eqn:E.
  - injection H as <-. exists [], a, l. repeat split; auto. intros y [].
  - destruct (findIndex p l) as [j|]; [|discriminate]. injection H as <-.
    destruct (IH j eq_refl) as (before & x & after & -> & Hlen & Hx & Hb).
    exists (a :: before), x, after. simpl. repeat split; auto.
    intros y [<-|Hy]; auto.
Qed.

Lemma findIndex_None {A} (p : A -> bool) (l : list A) :
  findIndex p l = None -> forall y, In y l -> p y = false.
Proof.
  induction l as [|a l IH]; intros H y Hy; [destruct Hy|]. simpl in H.
  destruct (p a) eqn:E; [discriminate|].
  destruct (findIndex p l); [discriminate|].
  destruct Hy as [<-|Hy]; auto.
Qed.

Lemma spliceOne_middle {A} (before after : list A) (x : A) :
  spliceOne (length before) (before ++ x :: after) = before ++ after.
Proof.
  unfold spliceOne. induction before as [|b before IH]; [reflexivity|].
  simpl in *. f_equal. exact IH.
Qed.

(** X25.  [deleteMemory(id)] takes out the first stored memory with that
    id and nothing else: the other memories keep their order, and an id
    that no memory has leaves the store as it is.  It does not touch the
    character states, so the id stays among the known events of the
    characters that knew the memory; nor the relationships, whose
    history keeps naming it. *)
Theorem deleteMemory_removes_first_match
    (saveError : option string) (eventId : string) (data : OpenVaultData) :
  let data' := fst (deleteMemory saveError eventId data) in
  ((forall m, In m (memories data) -> id m <> eventId) ->
   deleteMemory saveError eventId data = (data, Returned tt))
  /\ ((exists m, In m (memories data) /\ id m = eventId) ->
      exists before m after,
        memories data = before ++ m :: after
        /\ id m = eventId
        /\ (forall m', In m' before -> id m' <> eventId)
        /\ memories data' = before ++ after)
  /\ character_states data' = character_states data
  /\ relationships data' = relationships data
  /\ last_processed_message_id data' = last_processed_message_id data.
Proof.
  intros data'. unfold data', deleteMemory.
  destruct (findIndex (fun m => String.eqb (id m) eventId) (memories data))
    as [idx|] eqn:E.
  - apply findIndex_Some in E as (before & m & after & Hsplit & Hlen & Hm & Hb).
    apply String.eqb_eq in Hm.
    assert (Hfst : memories (fst ((exec modify (setMemories
                                                  (spliceOne idx (memories data)))
                                   then match saveError with
                                        | Some e => throw e
                                        | None => ret tt
                                        end) data))
                   = before ++ after).
    { unfold bind, modify. simpl. destruct saveError; simpl;
        rewrite Hsplit, <- Hlen; apply spliceOne_middle. }
    split; [|split; [|unfold bind, modify; destruct saveError; simpl; auto]].
    + intros Hno. exfalso. apply (Hno m); [|exact Hm].
      rewrite Hsplit. apply in_or_app. right. left. reflexivity.
    + intros _. exists before, m, after. split; [exact Hsplit|]. split; [exact Hm|].
      split; [|exact Hfst]. intros m' Hm' Heq. specialize (Hb m' Hm').
      apply String.eqb_neq in Hb. contradiction.
  - split; [reflexivity|]. split; [|simpl; auto].
    intros (m & Hin & Hm). pose proof (findIndex_None _ _ E m Hin) as Hf.
    apply String.eqb_neq in Hf. contradiction.
Qed.

(** ** Escaping *)

Lemma occurs_append c a b : occurs c (a +:+ b) = occurs c a || occurs c b.
Proof.
  induction a as [|d a IH]; [reflexivity|]. rewrite append_cons. simpl.
  rewrite IH. apply orb_assoc.
Qed.

(** Replacing a character removes it, when the replacement has none. *)
Lemma replaceChar_removes c rep s :
  occurs c rep = false -> occurs c (replaceChar c rep s) = false.
Proof.
  intros Hrep. induction s as [|d s IH]; [reflexivity|]. simpl.
  destruct (Ascii.eqb d c) eqn:E.
  - rewrite occurs_append, Hrep, IH. reflexivity.
  - simpl. rewrite E, IH. reflexivity.
Qed.

(** Replacing a character brings in no character that neither the text
    nor the replacement has. *)
Lemma replaceChar_keeps_out c d rep s :
  occurs c rep = false -> occurs c s = false ->
  occurs c (replaceChar d rep s) = false.
Proof.
  intros Hrep. induction s as [|x s IH]; intros Hs; [reflexivity|]. simpl in *.
  apply orb_false_iff in Hs as [Hx Hs].
  destruct (Ascii.eqb x d).
  - rewrite occurs_append, Hrep, (IH Hs). reflexivity.
  - simpl. rewrite Hx, (IH Hs). reflexivity.
Qed.

Lemma replaceChar_absent c rep s : occurs c s = false -> replaceChar c rep s = s.
Proof.
  induction s as [|d s IH]; intros H; [reflexivity|]. simpl in *.
  apply orb_false_iff in H as [Hd Hs]. rewrite Hd, (IH Hs). reflexivity.
Qed.

Lemma noSpecial_occurs s c : noSpecial s = true -> special c = true -> occurs c s = false.
Proof.
  intros Hs Hc. induction s as [|d s IH]; [reflexivity|]. simpl in *.
  apply andb_true_iff in Hs as [Hd Hs]. rewrite (IH Hs), orb_false_r.
  destruct (Ascii.eqb d c) eqn:E; [|reflexivity].
  apply Ascii.eqb_eq in E. subst d. rewrite Hc in Hd. discriminate.
Qed.

(** X26.  The text [escapeHtml] returns has none of the characters
    [<], [>], double quote and apostrophe, whatever it is given; and a
    text without these and without [&] is returned as it is. *)
Theorem escapeHtml_leaves_no_markup (str : string) :
  occurs "<" (escapeHtml str) = false
  /\ occurs ">" (escapeHtml str) = false
  /\ occurs doubleQuote (escapeHtml str) = false
  /\ occurs "'" (escapeHtml str) = false
  /\ (noSpecial str = true -> escapeHtml str = str).
Proof.
  unfold escapeHtml.
  set (s1 := replaceChar "&" "&amp;" str).
  set (s2 := replaceChar "<" "&lt;" s1).
  set (s3 := replaceChar ">" "&gt;" s2).
  set (s4 := replaceChar doubleQuote "&quot;" s3).
  assert (H2 : occurs "<" s2 = false) by (apply replaceChar_removes; reflexivity).
  assert (H3 : occurs ">" s3 = false) by (apply replaceChar_removes; reflexivity).
  assert (H4 : occurs doubleQuote s4 = false) by (apply replaceChar_removes; reflexivity).
  split; [|split; [|split; [|split]]].
  - do 3 (apply replaceChar_keeps_out; [reflexivity|]). exact H2.
  - do 2 (apply replaceChar_keeps_out; [reflexivity|]). exact H3.
  - apply replaceChar_keeps_out; [reflexivity|exact H4].
  - apply replaceChar_removes. reflexivity.
  - intros Hs. unfold s4, s3, s2, s1.
    rewrite (replaceChar_absent "&") by (apply noSpecial_occurs; [exact Hs|reflexivity]).
    rewrite (replaceChar_absent "<") by (apply noSpecial_occurs; [exact Hs|reflexivity]).
    rewrite (replaceChar_absent ">") by (apply noSpecial_occurs; [exact Hs|reflexivity]).
    rewrite (replaceChar_absent doubleQuote)
      by (apply noSpecial_occurs; [exact Hs|reflexivity]).
    apply replaceChar_absent, noSpecial_occurs; [exact Hs|reflexivity].
Qed.

(** ** The pages of the memory browser *)

Lemma totalPages_covers n :
  (1 <= totalPages n)%Z /\ (Z.of_nat n <= totalPages n * MEMORIES_PER_PAGE)%Z
  /\ ((0 < n)%nat -> ((totalPages n - 1) * MEMORIES_PER_PAGE < Z.of_nat n)%Z).
Proof.
  unfold totalPages, MEMORIES_PER_PAGE.
  pose proof (Z.div_mod (- Z.of_nat n) 10 ltac:(lia)) as Hdm.
  pose proof (Z.mod_pos_bound (- Z.of_nat n) 10 ltac:(lia)) as Hm.
  destruct (- (- Z.of_nat n / 10) =? 0) eqn:E.
  - apply Z.eqb_eq in E. split; [lia|]. split; [lia|]. intros Hn. lia.
  - apply Z.eqb_neq in E. split; [lia|]. split; [lia|]. intros Hn. lia.
Qed.

(** X27.  The pages of the memory browser, ten memories each, taken in
    order are exactly the filtered memories, newest first; and the page
    shown is clamped to the last page, so that it has between one and ten
    memories whenever a memory passes the filters. *)
Theorem browser_pages_cover_the_memories
    (typeFilter characterFilter : string) (memoryBrowserPage : Z)
    (data : OpenVaultData) :
  let filtered := filteredMemories typeFilter characterFilter data in
  let shown := pageMemories typeFilter characterFilter memoryBrowserPage data in
  concat (map (fun page => pageOf filtered (Z.of_nat page))
              (seq 0 (Z.to_nat (totalPages (length filtered)))))
  = filtered
  /\ Permutation filtered
       (List.filter (browserFilter typeFilter characterFilter) (memories data))
  /\ StronglySorted newestFirst filtered
  /\ (length shown <= 10)%nat
  /\ (0 <= memoryBrowserPage -> filtered <> [] -> shown <> []).
Proof.
  intros filtered shown.
  pose proof (totalPages_covers (length filtered)) as (H1 & Hcover & Hlast).
  split; [|split; [|split; [|split]]].
  - unfold pageOf. apply chunks_concat; [reflexivity|].
    rewrite Z2Nat.id by lia. exact Hcover.
  - unfold filtered, filteredMemories.
    exact (proj1 (sorted_highest_first createdKey _)).
  - unfold filtered, filteredMemories.
    pose proof (sorted_highest_first createdKey
                  (List.filter (browserFilter typeFilter characterFilter)
                               (memories data))) as (_ & Hs & _).
    eapply sorted_weaken; [|exact Hs]. intros a b. apply createdKey_le.
  - unfold shown, pageMemories, pageOf. fold filtered.
    unfold slice. rewrite length_firstn. unfold relIndex, MEMORIES_PER_PAGE.
    set (p := clampPage memoryBrowserPage (length filtered)).
    destruct (p * 10 <? 0) eqn:Ea, (p * 10 + 10 <? 0) eqn:Eb;
      try apply Z.ltb_lt in Ea; try apply Z.ltb_ge in Ea;
      try apply Z.ltb_lt in Eb; try apply Z.ltb_ge in Eb; lia.
  - intros Hpage Hne. unfold shown, pageMemories. fold filtered.
    set (p := clampPage memoryBrowserPage (length filtered)).
    assert (Hn : (0 < length filtered)%nat)
      by (destruct filtered; [congruence|simpl; lia]).
    assert (Hp : 0 <= p /\ p * MEMORIES_PER_PAGE < Z.of_nat (length filtered)).
    { unfold p, clampPage. specialize (Hlast Hn). unfold MEMORIES_PER_PAGE in *. lia. }
    intros Hnil. apply (f_equal (@length _)) in Hnil. unfold pageOf in Hnil.
    rewrite slice_firstn_skipn in Hnil by (unfold MEMORIES_PER_PAGE in *; lia).
    rewrite length_firstn, length_skipn in Hnil. simpl in Hnil.
    unfold MEMORIES_PER_PAGE in *. lia.
Qed.

(** ** The active characters *)

Lemma addMember_NoDup ctx active member :
  NoDup active -> NoDup (addMember ctx active member).
Proof.
  intros H. unfold addMember.
  destruct (find _ (characters ctx)) as [c|]; [|exact H].
  destruct (truthyString (char_name c)) as [n|]; [|exact H].
  destruct (arrayIncludes active n) eqn:E; [exact H|].
  apply NoDup_app. split; [exact H|]. split; [|apply NoDup_singleton].
  intros x Hx Hs. apply list_elem_of_singleton in Hs. subst x.
  apply list_elem_of_In in Hx. unfold arrayIncludes in E.
  apply existsb_eqb_In in Hx. congruence.
Qed.

Lemma addMember_keeps ctx active member x :
  In x active -> In x (addMember ctx active member).
Proof.
  intros H. unfold addMember.
  destruct (find _ (characters ctx)) as [c|]; [|exact H].
  destruct (truthyString (char_name c)) as [n|]; [|exact H].
  destruct (arrayIncludes active n); [exact H|]. apply in_or_app. left. exact H.
Qed.

Lemma addMember_adds ctx active member c n :
  find (fun c => String.eqb (avatar c) member) (characters ctx) = Some c ->
  truthyString (char_name c) = Some n ->
  In n (addMember ctx active member).
Proof.
  intros Hf Hn. unfold addMember. rewrite Hf, Hn.
  destruct (arrayIncludes active n) eqn:E.
  - apply existsb_eqb_In. exact E.
  - apply in_or_app. right. left. reflexivity.
Qed.

(** X28.  The active characters are the main character, the user when it
    has a name, and in a group chat (a group id that is not empty) the
    named characters of the members of the group; without a group id,
    or with an empty one, they are the main character and the user
    only.  When the user's name differs from the main character's, no
    name is listed twice, so the selector counts each participant
    once. *)
Theorem active_characters_are_distinct (ctx : ChatContext) :
  In (name2 ctx) (getActiveCharacters ctx)
  /\ (forall n, truthyString (name1 ctx) = Some n -> In n (getActiveCharacters ctx))
  /\ (forall g grp ms member c n,
        groupId ctx = Some g -> g <> "" ->
        find (fun grp => String.eqb (group_id grp) g) (groups ctx) = Some grp ->
        members grp = Some ms -> In member ms ->
        find (fun c => String.eqb (avatar c) member) (characters ctx) = Some c ->
        truthyString (char_name c) = Some n ->
        In n (getActiveCharacters ctx))
  /\ (groupId ctx = None \/ groupId ctx = Some "" ->
      getActiveCharacters ctx
      = [name2 ctx] ++ match truthyString (name1 ctx) with
                       | Some n => [n]
                       | None => []
                       end)
  /\ (truthyString (name1 ctx) <> Some (name2 ctx) ->
      NoDup (getActiveCharacters ctx)).
Proof.
  unfold getActiveCharacters.
  set (base := match truthyString (name1 ctx) with
               | Some n => [name2 ctx] ++ [n]
               | None => [name2 ctx]
               end).
  assert (Hfold : forall ms active x,
             In x active -> In x (fold_left (addMember ctx) ms active)).
  { induction ms as [|m ms IH]; intros active x H; simpl; [exact H|].
    apply IH, addMember_keeps, H. }
  assert (Hnd : forall ms active,
             NoDup active -> NoDup (fold_left (addMember ctx) ms active)).
  { induction ms as [|m ms IH]; intros active H; simpl; [exact H|].
    apply IH, addMember_NoDup, H. }
  assert (Hbase2 : In (name2 ctx) base)
    by (unfold base; destruct (truthyString (name1 ctx)); left; reflexivity).
  assert (Hbase1 : forall n, truthyString (name1 ctx) = Some n -> In n base)
    by (intros n Hn; unfold base; rewrite Hn; right; left; reflexivity).
  split_and!.
  - destruct (truthyString (groupId ctx)) as [g|]; [|exact Hbase2].
    destruct (find _ (groups ctx)) as [grp|]; [|exact Hbase2]. apply Hfold, Hbase2.
  - intros n Hn. specialize (Hbase1 n Hn).
    destruct (truthyString (groupId ctx)) as [g|]; [|exact Hbase1].
    destruct (find _ (groups ctx)) as [grp|]; [|exact Hbase1]. apply Hfold, Hbase1.
  - intros g grp ms member c n Hg Hne Hgrp Hms Hin Hc Hn.
    assert (Htruthy : truthyString (groupId ctx) = Some g).
    { rewrite Hg. destruct g; [congruence|reflexivity]. }
    rewrite Htruthy, Hgrp, Hms. simpl.
    clear Hbase1 Hbase2 Hms. generalize base.
    induction ms as [|m ms IH]; intros active; [destruct Hin|]. simpl.
    destruct Hin as [->|Hin].
    + apply Hfold. exact (addMember_adds ctx active member c n Hc Hn).
    + apply IH, Hin.
  - intros Hg.
    assert (Htruthy : truthyString (groupId ctx) = None)
      by (destruct Hg as [->| ->]; reflexivity).
    rewrite Htruthy. unfold base.
    destruct (truthyString (name1 ctx)); reflexivity.
  - intros Hne.
    assert (Hb : NoDup base).
    { unfold base. destruct (truthyString (name1 ctx)) as [n|]; [|apply NoDup_singleton].
      simpl. apply NoDup_cons. split; [|apply NoDup_singleton].
      intros Hin. apply list_elem_of_singleton in Hin. congruence. }
    destruct (truthyString (groupId ctx)) as [g|]; [|exact Hb].
    destruct (find _ (groups ctx)) as [grp|]; [|exact Hb]. apply Hnd, Hb.
Qed.

(** ** The list of names *)

Lemma reverseOnto_append (s acc : string) :
  reverseOnto s acc = reverseString s +:+ acc.
Proof.
  unfold reverseString. revert acc.
  induction s as [|c s IH]; intros acc; simpl; [symmetry; apply append_empty_l|].
  rewrite (IH (String c acc)), (IH (String c "")), append_assoc, append_cons,
    append_empty_l.
  reflexivity.
Qed.

Lemma reverseString_append (a b : string) :
  reverseString (a +:+ b) = reverseString b +:+ reverseString a.
Proof.
  induction a as [|c a IH].
  - rewrite append_empty_l. symmetry. apply append_empty_r.
  - rewrite append_cons. unfold reverseString at 1 3. simpl.
    rewrite !reverseOnto_append, IH, append_assoc. reflexivity.
Qed.

Lemma reverseString_involutive (s : string) : reverseString (reverseString s) = s.
Proof.
  induction s as [|c s IH]; [reflexivity|].
  unfold reverseString at 2. simpl. rewrite reverseOnto_append, reverseString_append, IH.
  reflexivity.
Qed.

Lemma allWhiteSpace_append (a b : string) :
  allWhiteSpace (a +:+ b) = allWhiteSpace a && allWhiteSpace b.
Proof.
  induction a as [|c a IH]; [rewrite append_empty_l; reflexivity|].
  rewrite append_cons. simpl. rewrite IH. apply andb_assoc.
Qed.

Lemma allWhiteSpace_reverse (s : string) :
  allWhiteSpace (reverseString s) = allWhiteSpace s.
Proof.
  induction s as [|c s IH]; [reflexivity|].
  unfold reverseString. simpl. rewrite reverseOnto_append, allWhiteSpace_append, IH.
  simpl. rewrite andb_true_r. apply andb_comm.
Qed.

Lemma dropWhiteSpace_empty (s : string) :
  dropWhiteSpace s = "" <-> allWhiteSpace s = true.
Proof.
  induction s as [|c s IH]; simpl; [tauto|].
  destruct (isWhiteSpace c); simpl; [exact IH|]. split; discriminate.
Qed.

Lemma allWhiteSpace_drop (s : string) :
  allWhiteSpace (dropWhiteSpace s) = allWhiteSpace s.
Proof.
  induction s as [|c s IH]; [reflexivity|]. simpl.
  destruct (isWhiteSpace c) eqn:E; simpl; [exact IH|]. rewrite E. reflexivity.
Qed.

Lemma dropWhiteSpace_head (s : string) :
  match dropWhiteSpace s with
  | String c _ => isWhiteSpace c = false
  | EmptyString => True
  end.
Proof.
  induction s as [|c s IH]; simpl; [exact I|].
  destruct (isWhiteSpace c) eqn:E; [exact IH|exact E].
Qed.

Lemma dropWhiteSpace_idempotent (s : string) :
  dropWhiteSpace (dropWhiteSpace s) = dropWhiteSpace s.
Proof.
  pose proof (dropWhiteSpace_head s) as H.
  destruct (dropWhiteSpace s) as [|c t]; [reflexivity|]. simpl. rewrite H. reflexivity.
Qed.

Lemma dropWhiteSpace_suffix (s : string) :
  exists w, s = w +:+ dropWhiteSpace s.
Proof.
  induction s as [|c s [w IH]]; [exists ""; reflexivity|]. simpl.
  destruct (isWhiteSpace c).
  - exists (String c w). rewrite append_cons, <- IH. reflexivity.
  - exists "". rewrite append_empty_l. reflexivity.
Qed.

Lemma trim_empty (raw : string) : trim raw = "" <-> allWhiteSpace raw = true.
Proof.
  unfold trim. set (d := dropWhiteSpace (reverseString (dropWhiteSpace raw))).
  assert (Hd : d = "" <-> allWhiteSpace raw = true).
  { unfold d. rewrite dropWhiteSpace_empty, allWhiteSpace_reverse, allWhiteSpace_drop.
    tauto. }
  rewrite <- Hd. split; intros H.
  - rewrite <- (reverseString_involutive d), H. reflexivity.
  - rewrite H. reflexivity.
Qed.

Lemma trim_clean (raw : string) :
  dropWhiteSpace (trim raw) = trim raw
  /\ dropWhiteSpace (reverseString (trim raw)) = reverseString (trim raw).
Proof.
  unfold trim. set (r := dropWhiteSpace raw).
  set (d := dropWhiteSpace (reverseString r)). split.
  - destruct (dropWhiteSpace_suffix (reverseString r)) as [w Hw]. fold d in Hw.
    apply (f_equal reverseString) in Hw.
    rewrite reverseString_involutive, reverseString_append in Hw.
    pose proof (dropWhiteSpace_head raw) as Hhead. fold r in Hhead.
    destruct (reverseString d) as [|c t]; [reflexivity|].
    rewrite append_cons in Hw. rewrite Hw in Hhead. simpl. rewrite Hhead. reflexivity.
  - rewrite reverseString_involutive. apply dropWhiteSpace_idempotent.
Qed.

(** X29.  A name typed into the input is stored without white space
    around it, at the end of the list of names of the chat; a blank
    input changes nothing.  Deleting the entry at the new name's index
    gives back the list as it was, and a delete at an index outside the
    list, or at one that is no number, changes nothing. *)
Theorem name_list_add_and_delete (raw : string) (nameList : list string) :
  (allWhiteSpace raw = true -> addName raw nameList = nameList)
  /\ (allWhiteSpace raw = false ->
      addName raw nameList = nameList ++ [trim raw]
      /\ trim raw <> ""
      /\ dropWhiteSpace (trim raw) = trim raw
      /\ dropWhiteSpace (reverseString (trim raw)) = reverseString (trim raw)
      /\ removeNameAt (Some (Z.of_nat (length nameList))) (addName raw nameList)
         = nameList)
  /\ (forall idx, idx < 0 \/ Z.of_nat (length nameList) <= idx ->
                  removeNameAt (Some idx) nameList = nameList)
  /\ removeNameAt None nameList = nameList.
Proof.
  split; [|split; [|split; [|reflexivity]]].
  - intros H. unfold addName. apply trim_empty in H. rewrite H. reflexivity.
  - intros H.
    assert (Hne : trim raw <> "").
    { intros E. apply trim_empty in E. congruence. }
    assert (Hadd : addName raw nameList = nameList ++ [trim raw]).
    { unfold addName. apply String.eqb_neq in Hne. rewrite Hne. reflexivity. }
    destruct (trim_clean raw) as [Hl Hr].
    repeat (split; [assumption|]).
    rewrite Hadd. unfold removeNameAt.
    rewrite length_app. simpl.
    replace (Z.of_nat (length nameList) <? 0) with false by (symmetry; apply Z.ltb_ge; lia).
    replace (Z.of_nat (length nameList + 1) <=? Z.of_nat (length nameList)) with false
      by (symmetry; apply Z.leb_gt; lia).
    simpl. rewrite Nat2Z.id. rewrite <- (app_nil_r nameList) at 3.
    apply (spliceOne_middle nameList [] (trim raw)).
  - intros idx H. unfold removeNameAt.
    destruct (idx <? 0) eqn:Ea; [reflexivity|].
    destruct (Z.of_nat (length nameList) <=? idx) eqn:Eb; [reflexivity|].
    apply Z.ltb_ge in Ea. apply Z.leb_gt in Eb. lia.
Qed.

(** * The further properties at concrete inputs *)

(** Two events with the same id and the same witnesses: each witness
    lists the id once. *)
Lemma known_events_stay_distinct_witness :
  distinctKnowledge (character_states emptyData)
  /\ distinctKnowledge
       (character_states
          (fst (updateCharacterStatesFromEvents 5 [doorEvent; doorEvent] emptyData))).
Proof.
  assert (H : distinctKnowledge (character_states emptyData))
    by apply map_Forall_empty.
  split; [exact H|].
  apply (known_events_stay_distinct 5 [doorEvent; doorEvent] emptyData H).
Defined.

Example known_once :
  knownEventIds (fst (updateCharacterStatesFromEvents 5 [doorEvent; doorEvent] emptyData))
                "Bob"
  = ["ev-door"].
Proof. vm_compute. reflexivity. Qed.

Lemma keys_without_arrow_are_skipped_witness :
  let events := [impactEvent "e1" "Alice and Bob" (VString "trust increased")] in
  noArrowKeys events
  /\ updateRelationshipsFromEvents 7 events trustingStore
     = (trustingStore, Returned tt).
Proof.
  intros events.
  assert (H : noArrowKeys events).
  { intros event entry [<-|[]] [<-|[]]. reflexivity. }
  split; [exact H|].
  apply (keys_without_arrow_are_skipped 7 events trustingStore H).
Defined.

Lemma relation_key_tolerates_white_space_witness :
  plainName "Alice" = true /\ plainName "Bob" = true
  /\ allWhiteSpace "  " = true /\ allWhiteSpace " " = true
  /\ matchRelationKey ("Alice" +:+ "  " +:+ "->" +:+ " " +:+ "Bob")
     = Some ("Alice", "Bob")
  /\ matchRelationKey ("Alice" +:+ "  " +:+ "->" +:+ " " +:+ "Bob")
     = matchRelationKey ("Alice" +:+ "->" +:+ "Bob").
Proof.
  do 4 (split; [reflexivity|]).
  apply (relation_key_tolerates_white_space "Alice" "Bob" "  " " "); reflexivity.
Defined.

Lemma text_impacts_never_throw_witness :
  let events := [impactEvent "e1" "Alice->Bob" (VString "trust increased");
                 impactEvent "e2" "no arrow" (VString "tension increased")] in
  textImpacts events
  /\ snd (updateRelationshipsFromEvents 7 events emptyData) = Returned tt.
Proof.
  intros events.
  assert (H : textImpacts events).
  { intros event entry [<-|[<-|[]]] [<-|[]]; reflexivity. }
  split; [exact H|].
  apply (text_impacts_never_throw 7 events emptyData H).
Defined.



Lemma marker_never_moves_back_witness :
  let run := extractMemories readPlainEvent defaultSettings chat2 (answered "[{}]")
               (Some [0; 1]) doorStore in
  last_processed_message_id doorStore = Some 3
  /\ map id (memories (fst run)) = ["ev-door"; "1000-a"]
  /\ orDefault (last_processed_message_id doorStore) (-1)
     <= orDefault (last_processed_message_id (fst run)) (-1).
Proof.
  intros run. split; [reflexivity|]. split; [vm_compute; reflexivity|].
  apply (marker_never_moves_back readPlainEvent defaultSettings chat2 (answered "[{}]")
           (Some [0; 1]) doorStore (fst run) (snd run)).
  apply surjective_pairing.
Defined.

Lemma automatic_cycle_leaves_nothing_witness :
  let run := extractMemories readPlainEvent defaultSettings chat2 (answered "[{}]")
               None emptyData in
  snd run = Returned (Some {| events_created := 1; messages_processed := 2 |})
  /\ last_processed_message_id (fst run) = Some 1
  /\ selectTurns defaultSettings chat2 (fst run) None = []
  /\ extractMemories readPlainEvent defaultSettings chat2 (refused "timeout")
       None (fst run)
     = (fst run, Returned None).
Proof.
  intros run.
  assert (Ho : snd run
               = Returned (Some {| events_created := 1; messages_processed := 2 |}))
    by (vm_compute; reflexivity).
  assert (Hm : last_processed_message_id (fst run) = Some 1)
    by (vm_compute; reflexivity).
  split; [exact Ho|]. split; [exact Hm|].
  apply (automatic_cycle_leaves_nothing readPlainEvent defaultSettings chat2
           (answered "[{}]") (refused "timeout") emptyData (fst run)
           {| events_created := 1; messages_processed := 2 |}).
  - rewrite <- Ho. apply surjective_pairing.
  - discriminate.
  - rewrite Hm. discriminate.
Defined.

Lemma batches_partition_backfill_turns_witness :
  0 < orDefault (messagesPerExtraction defaultSettings) 5
  /\ concat (map (batchOf (orDefault (messagesPerExtraction defaultSettings) 5)
                          (backfillTurns defaultSettings chat23 emptyData))
                 (seq 0 (Z.to_nat (completeBatches defaultSettings chat23 emptyData))))
     = backfillTurns defaultSettings chat23 emptyData.
Proof.
  split; [reflexivity|].
  apply (batches_partition_backfill_turns defaultSettings chat23 emptyData).
  reflexivity.
Defined.

Lemma backfill_keeps_off_recent_turns_witness :
  0 < orDefault (messagesPerExtraction defaultSettings) 5
  /\ length (backfillTurns defaultSettings chat23 emptyData) = 15%nat
  /\ forall t, In t (backfillTurns defaultSettings chat23 emptyData) ->
       0 <= t < Z.of_nat (length chat23) /\ t ∉ alreadyExtracted emptyData.
Proof.
  split; [reflexivity|]. split; [reflexivity|].
  apply (backfill_keeps_off_recent_turns defaultSettings chat23 emptyData).
  reflexivity.
Defined.

Lemma backfill_needs_two_batches_witness :
  0 < orDefault (messagesPerExtraction defaultSettings) 5
  /\ Z.of_nat (length (allMessageIds chat9 emptyData)) < 2 * 5
  /\ extractAllMessages readPlainEvent defaultSettings chat9
       (fun _ => answered "[{}]") (Some "Failed to save chat") emptyData
     = ({| store := emptyData; totalEvents := 0; batchLog := [] |}, Returned None).
Proof.
  assert (H : 0 < orDefault (messagesPerExtraction defaultSettings) 5) by reflexivity.
  assert (Hfew : Z.of_nat (length (allMessageIds chat9 emptyData)) < 2 * 5)
    by reflexivity.
  split; [exact H|]. split; [exact Hfew|].
  apply (backfill_needs_two_batches readPlainEvent defaultSettings chat9
           (fun _ => answered "[{}]") emptyData H).
  exact Hfew.
Defined.

Lemma backfill_runs_every_batch_witness :
  let run := fst (extractAllMessages readPlainEvent defaultSettings chat23 secondFails
                    None listedData) in
  chat23 <> [] /\ backfillTurns defaultSettings chat23 listedData <> []
  /\ map batch_index (batchLog run) = [0; 1; 2]%nat
  /\ totalEvents run = countedEvents (batchLog run).
Proof.
  intros run.
  assert (H1 : chat23 <> []) by discriminate.
  assert (H2 : backfillTurns defaultSettings chat23 listedData <> []) by discriminate.
  split; [exact H1|]. split; [exact H2|].
  destruct (backfill_runs_every_batch readPlainEvent defaultSettings chat23
              secondFails None listedData H1 H2) as (Hidx & _ & _ & _ & Htot & _).
  split; [exact Hidx|exact Htot].
Defined.

Lemma relationship_context_is_about_others_witness :
  let entries := [("Alice<->Bob", aliceTrustsBob)] in
  let s := summaryOf "Bob" aliceTrustsBob in
  entriesOf trustingStore entries
  /\ rel_character s = "Alice"
  /\ (In s (getRelationshipContext entries "Bob" ["Bob"; "Alice"]) <->
      exists key rel,
        relationships trustingStore !! key = Some rel
        /\ In (rel_character s) ["Bob"; "Alice"] /\ rel_character s <> "Bob"
        /\ ((character_a rel = "Bob" /\ character_b rel = rel_character s)
            \/ (character_b rel = "Bob" /\ character_a rel = rel_character s))
        /\ s = summaryOf "Bob" rel).
Proof.
  intros entries s.
  assert (H : entriesOf trustingStore entries).
  { unfold entriesOf, entries, trustingStore. simpl.
    fold aliceTrustsBob. rewrite map_to_list_singleton. reflexivity. }
  split; [exact H|]. split; [reflexivity|].
  apply (relationship_context_is_about_others trustingStore entries "Bob"
           ["Bob"; "Alice"] s H).
Defined.

Lemma formatter_returns_text_of_a_prefix_witness :
  let text := join newline ["[Alice's Memory & State]"; ""; "[End Alice's Memory]"] in
  formatContextForInjection 1 [doorEvent] [] "neutral" "Alice" 8 = Some text
  /\ exists kept rest depth,
       [doorEvent] = kept ++ rest
       /\ text = fullText kept [] "neutral" "Alice"
       /\ (depth <= 1)%nat
       /\ (estimatedTokens text <= 8 * pow2 depth)%Q
       /\ (depth = 0%nat -> kept = [doorEvent]).
Proof.
  intros text.
  assert (H : formatContextForInjection 1 [doorEvent] [] "neutral" "Alice" 8 = Some text)
    by (vm_compute; reflexivity).
  split; [exact H|].
  apply (formatter_returns_text_of_a_prefix 1 [] "neutral" "Alice" [doorEvent] 8 text H).
Defined.

Lemma retrieval_end_to_end_witness :
  retrievalEnabled retrievalDefaults = true
  /\ chatMessages aliceChat <> [] /\ memories doorStore <> []
  /\ 0 < maxMemoriesPerRetrieval retrievalDefaults
  /\ (0 < tokenBudget retrievalDefaults)%Q
  /\ exists r bound,
       (forall stackDepth, (bound <= stackDepth)%nat ->
          retrieveAndInjectContext stackDepth retrievalDefaults aliceChat 39600000
            [] (fun _ => None) doorStore
          = Some r)
       /\ retrieved r <> []
       /\ Z.of_nat (length (retrieved r)) <= maxMemoriesPerRetrieval retrievalDefaults.
Proof.
  assert (H1 : chatMessages aliceChat <> []) by discriminate.
  assert (H2 : memories doorStore <> []) by discriminate.
  assert (H3 : 0 < maxMemoriesPerRetrieval retrievalDefaults) by reflexivity.
  assert (H4 : (0 < tokenBudget retrievalDefaults)%Q) by reflexivity.
  split; [reflexivity|]. split; [exact H1|]. split; [exact H2|].
  split; [exact H3|]. split; [exact H4|].
  destruct (proj2 (retrieval_end_to_end retrievalDefaults aliceChat 39600000
                     [] (fun _ => None) doorStore)
              eq_refl H1 H2 H3 H4)
    as (r & bound & Hrun & _ & Hne & Hlen & _).
  exists r, bound. split; [exact Hrun|]. split; [exact Hne|exact Hlen].
Defined.

(** The retrieval of the example, run: Alice gets the memory of the door
    and the text with it.  With a budget of 0 the formatter never
    returns, and retrieval gives [null] however deep the stack. *)
Example retrieval_runs :
  (match retrieveAndInjectContext 0 retrievalDefaults aliceChat 39600000
           [] (fun _ => None) doorStore with
   | Some r => map id (retrieved r) = ["ev-door"]
   | None => False
   end)
  /\ retrieveAndInjectContext 50
       {| retrievalEnabled := true; maxMemoriesPerRetrieval := 10; tokenBudget := 0 |}
       aliceChat 39600000 [] (fun _ => None) doorStore
     = None.
Proof. vm_compute. auto. Qed.

(** A witness named [constructor]: the lookup finds the function every
    object inherits, no state is made, and reading [known_events] of it
    throws.  Alice, listed before, has learnt the event; Bob, listed
    after, has not. *)
Example inherited_name_stops_propagation :
  let run := updateCharacterStatesFromEvents 5 [oddWitnessEvent] emptyData in
  snd run = Thrown "Cannot read properties of undefined (reading 'includes')"
  /\ knownEventIds (fst run) "Alice" = ["ev-odd"]
  /\ knownEventIds (fst run) "Bob" = []
  /\ character_states (fst run) !! "constructor" = None
  /\ size (character_states (fst run)) = 1%nat.
Proof. vm_compute. auto. Qed.

(** Two memories of one creation time are ordered by their sequence
    numbers, in the context for the prompt and in the prompt. *)
Example sequence_orders_memories :
  map id (memories sequencedStore) = ["ev-a"; "ev-b"]
  /\ map id (getRecentMemoriesForContext (-1) sequencedStore) = ["ev-a"; "ev-b"]
  /\ map id (promptMemories (existingMemoriesFor (Some (-1)) sequencedStore))
     = ["ev-b"; "ev-a"]
  /\ map id (promptMemories (rev (memories sequencedStore))) = ["ev-b"; "ev-a"]
  /\ memorySummaries (existingMemoriesFor (Some (-1)) sequencedStore)
     = "1. [event] First." +:+ newline +:+ "2. [event] Second.".
Proof. vm_compute. auto. Qed.

(** An empty group id is no group: the member of the group it names is
    not among the active characters. *)
Example empty_group_id_is_no_group :
  getActiveCharacters noGroupChat = ["Alice"; "Bob"].
Proof. reflexivity. Qed.

(** The text of a memory is escaped before it goes into the page. *)
Example escapeHtml_script :
  escapeHtml "<b>Tom & Jerry's</b>" = "&lt;b&gt;Tom &amp; Jerry&#039;s&lt;/b&gt;".
Proof. reflexivity. Qed.

(** Twenty-three memories make three pages; a page number past the end
    shows the last page, which has three memories. *)
Example browser_last_page :
  let data := {| memories := replicate 23 doorEvent; character_states := ∅;
                 relationships := ∅; last_processed_message_id := None;
                 last_extraction_batch := None; extracted_batches := Some [] |} in
  totalPages 23 = 3
  /\ length (pageMemories "" "" 7 data) = 3%nat
  /\ length (pageMemories "" "" 0 data) = 10%nat
  /\ pageMemories "revelation" "" 0 data = [].
Proof. vm_compute. auto. Qed.
